(** * KlassLess: the grouping engine of [src/App.tsx]

    A shallow embedding of the clustering code of the [App] component:
    connectivity closure, greedy group construction, greedy merging, the
    text validation that precedes them and the per-group analytics.

    Conventions.
    - A JavaScript [Set<string>] iterates in insertion order; it is a list
      without repetitions, [add] appending at the end.
    - [number] values of the source are integers here ([Z]): the form
      handlers only ever store [Math.max(1, parseInt(..) || 1)].
    - A JavaScript string is the [string] of the bytes of its UTF-8
      encoding (so strings with unpaired surrogates are left out);
      [trim] removes the white space and line terminator characters of
      ECMAScript, each through its UTF-8 encoding.
    - The [while] and [do .. while] loops take a [fuel] argument and answer
      [None] when it runs out; the top-level functions supply a fuel that
      is computed from their arguments, and the termination lemmas below
      show that it is never exhausted. *)

From Stdlib Require Import ZArith String Ascii.
From stdpp Require Import base option list strings gmap.

#[local] Set Warnings "-clear-no-such-hyp".
Local Open Scope Z_scope.

(** ** Data model (interfaces [NameLink], [Person], [Node]) *)

Record NameLink := mkLink { source : string; target : string }.
Record Person := mkPerson { name : string; gender : string }.
Record Node := mkNode { id : string; node_gender : string; group : nat }.

#[global] Instance NameLink_eq_dec : EqDecision NameLink.
Proof. solve_decision. Defined.
#[global] Instance Person_eq_dec : EqDecision Person.
Proof. solve_decision. Defined.
#[global] Instance Node_eq_dec : EqDecision Node.
Proof. solve_decision. Defined.

(** ** Insertion-ordered sets of strings ([Set<string>]) *)

Module StrSet.
Definition has (s : list string) (x : string) : bool := bool_decide (x ∈ s).
Definition add (s : list string) (x : string) : list string :=
  if has s x then s else s ++ [x].
Definition delete (s : list string) (x : string) : list string :=
  filter (λ y, y ≠ x) s.
(** [new Set(iterable)] *)
Definition of_list (l : list string) : list string := foldl add [] l.
End StrSet.

(** [Array.prototype.includes] *)
Definition includes (l : list string) (x : string) : bool := bool_decide (x ∈ l).

(** ** Connectivity closure: [findConnectedNames] *)

(** The body of the [forEach] callback, for one link. *)
Definition visitLink (connected : list string) (link : NameLink) : list string :=
  let connected :=
    if StrSet.has connected (source link)
    then StrSet.add connected (target link) else connected in
  if StrSet.has connected (target link)
  then StrSet.add connected (source link) else connected.

(** One full [linkPairs.forEach] pass. *)
Definition scanLinks (linkPairs : list NameLink) (connected : list string)
  : list string :=
  foldl visitLink connected linkPairs.

(** The [do .. while (size !== connected.size)] loop. *)
Fixpoint findConnectedNames_loop (fuel : nat) (linkPairs : list NameLink)
    (connected : list string) : option (list string) :=
  match fuel with
  | O => None
  | S fuel =>
      let size := length connected in
      let connected := scanLinks linkPairs connected in
      if decide (size ≠ length connected)
      then findConnectedNames_loop fuel linkPairs connected
      else Some connected
  end.

(** Every pass but the last adds a link endpoint that was not yet in the
    set, so [2 * |linkPairs| + 1] passes are enough. *)
Definition findConnectedNames_fuel (linkPairs : list NameLink) : nat :=
  S (2 * length linkPairs).

Definition findConnectedNames (name : string) (linkPairs : list NameLink)
  : option (list string) :=
  findConnectedNames_loop (findConnectedNames_fuel linkPairs) linkPairs [name].

(** ** Inter-group score: [countConnectionsBetweenGroups] *)

Definition countConnectionsBetweenGroups (group1 group2 : list string)
    (linkPairs : list NameLink) : Z :=
  foldl (λ connections link,
           if (includes group1 (source link) && includes group2 (target link))
              || (includes group1 (target link) && includes group2 (source link))
           then connections + 1 else connections)
        0 linkPairs.

(** ** Group merger: [mergeGroups] *)

(** [groups[i]], for an index inside the array (the loops below never
    leave it). *)
Definition groupAt (groups : list (list string)) (i : nat) : list string :=
  default [] (groups !! i).

(** The two mutable locals of the search, [bestMergeScore] and [bestPair],
    with the source's [-1] sentinels. *)
Record Best := mkBest { bestMergeScore : Z; bestPair : Z * Z }.

Definition noBest : Best := {| bestMergeScore := -1; bestPair := (-1, -1) |}.

(** Body of the inner [for] loop at the index pair [(i, j)]. *)
Definition considerPair (groups : list (list string))
    (linkPairs : list NameLink) (maxSize : Z) (i j : nat) (best : Best) : Best :=
  let combinedSize :=
    Z.of_nat (length (groupAt groups i)) + Z.of_nat (length (groupAt groups j)) in
  if decide (combinedSize ≤ maxSize) then
    let connectionCount :=
      countConnectionsBetweenGroups (groupAt groups i) (groupAt groups j) linkPairs in
    let score := connectionCount in
    if decide (score > bestMergeScore best)
    then {| bestMergeScore := score; bestPair := (Z.of_nat i, Z.of_nat j) |}
    else best
  else best.

(** [for (let j = i + 1; j < groups.length; j++)] *)
Definition scanRow (groups : list (list string)) (linkPairs : list NameLink)
    (maxSize : Z) (best : Best) (i : nat) : Best :=
  foldl (λ best j, considerPair groups linkPairs maxSize i j best)
        best (seq (S i) (length groups - S i)%nat).

(** [for (let i = 0; i < groups.length; i++)] *)
Definition findBestPair (groups : list (list string))
    (linkPairs : list NameLink) (maxSize : Z) : Best :=
  foldl (scanRow groups linkPairs maxSize) noBest (seq 0 (length groups)).

(** The two [splice] calls and the [push]. *)
Definition mergePair (groups : list (list string)) (i j : nat)
  : list (list string) :=
  let mergedGroup := groupAt groups i ++ groupAt groups j in
  let groups := delete j groups in
  let groups := delete i groups in
  groups ++ [mergedGroup].

(** One pass through the body of the [while] loop: [None] is the [break]. *)
Definition mergeIteration (groups : list (list string))
    (linkPairs : list NameLink) (maxSize : Z) : option (list (list string)) :=
  let best := findBestPair groups linkPairs maxSize in
  if decide ((bestPair best).1 = -1) then None
  else
    let '(i, j) := bestPair best in
    Some (mergePair groups (Z.to_nat i) (Z.to_nat j)).

Fixpoint mergeGroups_loop (fuel : nat) (groups : list (list string))
    (linkPairs : list NameLink) (maxSize targetGroupCount : Z)
  : option (list (list string)) :=
  match fuel with
  | O => None
  | S fuel =>
      if decide (Z.of_nat (length groups) > targetGroupCount) then
        match mergeIteration groups linkPairs maxSize with
        | None => Some groups
        | Some groups =>
            mergeGroups_loop fuel groups linkPairs maxSize targetGroupCount
        end
      else Some groups
  end.

(** Every merge shortens the array by one. *)
Definition mergeGroups (groups : list (list string))
    (linkPairs : list NameLink) (maxSize targetGroupCount : Z)
  : option (list (list string)) :=
  if decide (Z.of_nat (length groups) ≤ targetGroupCount) then Some groups
  else mergeGroups_loop (S (length groups)) groups linkPairs maxSize
         targetGroupCount.

(** ** Group builder: [createConnectedGroups] *)

(** The padding loop
    [while (currentGroup.length < minSize && unassignedNames.size > 0)],
    which the source writes twice. It answers the padded group and what
    is left unassigned. *)
Fixpoint padToMinSize (fuel : nat) (minSize : Z)
    (currentGroup unassignedNames : list string)
  : option (list string * list string) :=
  match fuel with
  | O => None
  | S fuel =>
      if decide (Z.of_nat (length currentGroup) < minSize) then
        match unassignedNames with
        | [] => Some (currentGroup, unassignedNames)
        | nextName :: _ =>
            padToMinSize fuel minSize (currentGroup ++ [nextName])
              (StrSet.delete unassignedNames nextName)
        end
      else Some (currentGroup, unassignedNames)
  end.

Definition pad (minSize : Z) (currentGroup unassignedNames : list string)
  : option (list string * list string) :=
  padToMinSize (S (length unassignedNames)) minSize currentGroup unassignedNames.

(** The set [connectedToGroup]: the closures of the members of the current
    group, kept where still unassigned, in the order they are met. *)
Definition collectConnected (linkPairs : list NameLink)
    (unassignedNames currentGroup : list string) : option (list string) :=
  foldl (λ acc name,
           connectedToGroup ← acc;
           connected ← findConnectedNames name linkPairs;
           Some (foldl (λ s c, if StrSet.has unassignedNames c
                               then StrSet.add s c else s)
                       connectedToGroup connected))
        (Some []) currentGroup.

(** The main [while (unassignedNames.size > 0)] loop, on the triple
    [(unassignedNames, groups, currentGroup)]. The destructurings
    [const [x] = set] are the matches on the head of the list. *)
Fixpoint createConnectedGroups_loop (fuel : nat) (linkPairs : list NameLink)
    (minSize maxSize : Z) (unassignedNames : list string)
    (groups : list (list string)) (currentGroup : list string)
  : option (list string * list (list string) * list string) :=
  match fuel with
  | O => None
  | S fuel =>
      match unassignedNames with
      | [] => Some (unassignedNames, groups, currentGroup)
      | firstUnassigned :: _ =>
          let '(currentGroup, unassignedNames) :=
            if decide (length currentGroup = 0%nat)
            then (currentGroup ++ [firstUnassigned],
                  StrSet.delete unassignedNames firstUnassigned)
            else (currentGroup, unassignedNames) in
          connectedToGroup ←
            collectConnected linkPairs unassignedNames currentGroup;
          let startNewGroup :=
            '(currentGroup, unassignedNames) ←
              pad minSize currentGroup unassignedNames;
            createConnectedGroups_loop fuel linkPairs minSize maxSize
              unassignedNames (groups ++ [currentGroup]) [] in
          match connectedToGroup with
          | [] => startNewGroup
          | nextName :: _ =>
              if decide (Z.of_nat (length currentGroup) >= maxSize)
              then startNewGroup
              else
                createConnectedGroups_loop fuel linkPairs minSize maxSize
                  (StrSet.delete unassignedNames nextName) groups
                  (currentGroup ++ [nextName])
          end
      end
  end.

Definition createConnectedGroups (uniqueNames : list string)
    (peopleMap : gmap string Person) (linkPairs : list NameLink)
    (minSize maxSize : Z) : option (list (list string)) :=
  '(unassignedNames, groups, currentGroup) ←
    createConnectedGroups_loop (S (2 * length uniqueNames)) linkPairs
      minSize maxSize (StrSet.of_list uniqueNames) [] [];
  if decide (0 < length currentGroup)%nat then
    '(currentGroup, _) ← pad minSize currentGroup unassignedNames;
    Some (groups ++ [currentGroup])
  else Some groups.

(** ** Text helpers: [String.prototype.split], [trim], [toUpperCase] *)

Definition newline : ascii := ascii_of_nat 10.
Definition comma : ascii := ascii_of_nat 44.

(** The string of the given bytes. *)
Definition bytes (codes : list nat) : string :=
  foldr (λ code s, String (ascii_of_nat code) s) EmptyString codes.

(** What [trim] removes: the WhiteSpace and LineTerminator code points
    U+0009 to U+000D, U+0020, U+00A0, U+1680, U+2000 to U+200A, U+2028,
    U+2029, U+202F, U+205F, U+3000 and U+FEFF, each as its UTF-8
    encoding. *)
Definition whiteSpace : list string :=
  bytes <$>
    ([[9]; [10]; [11]; [12]; [13]; [32]; [194; 160]; [225; 154; 128]]
     ++ ((λ low, [226; 128; low]) <$> seq 128 11)
     ++ [[226; 128; 168]; [226; 128; 169]; [226; 128; 175];
         [226; 129; 159]; [227; 128; 128]; [239; 187; 191]])%nat.

(** [s] is the encoding of one white space character. *)
Definition isWhiteSpace (s : string) : bool := bool_decide (s ∈ whiteSpace).

(** [trimStart]: a white space character takes one, two or three bytes. *)
Fixpoint trimStart (s : string) : string :=
  match s with
  | EmptyString => EmptyString
  | String c1 rest1 =>
      if isWhiteSpace (String c1 EmptyString) then trimStart rest1
      else
        match rest1 with
        | EmptyString => s
        | String c2 rest2 =>
            if isWhiteSpace (String c1 (String c2 EmptyString))
            then trimStart rest2
            else
              match rest2 with
              | EmptyString => s
              | String c3 rest3 =>
                  if isWhiteSpace
                       (String c1 (String c2 (String c3 EmptyString)))
                  then trimStart rest3
                  else s
              end
        end
  end.

(** [trimEnd]: once the tail is trimmed, what remains from a byte on is
    dropped when it is one white space character. *)
Fixpoint trimEnd (s : string) : string :=
  match s with
  | EmptyString => EmptyString
  | String c rest =>
      let kept := String c (trimEnd rest) in
      if isWhiteSpace kept then EmptyString else kept
  end.

Definition trim (s : string) : string := trimEnd (trimStart s).

(** [s.split(separator)] for a one-character separator: never empty. *)
Fixpoint split (separator : ascii) (s : string) : list string :=
  match s with
  | EmptyString => [EmptyString]
  | String c rest =>
      if decide (c = separator) then EmptyString :: split separator rest
      else match split separator rest with
           | part :: parts => String c part :: parts
           | [] => [String c EmptyString]
           end
  end.

(** [toUpperCase] on the strings the source applies it to: a gender that
    has passed the [includes] check, one of M, F, m, f. *)
Definition upper (c : ascii) : ascii :=
  let n := nat_of_ascii c in
  if decide (97 ≤ n ≤ 122)%nat then ascii_of_nat (n - 32) else c.

Fixpoint toUpperCase (s : string) : string :=
  match s with
  | EmptyString => EmptyString
  | String c rest => String (upper c) (toUpperCase rest)
  end.

(** [text.split('\n').filter(line => line.trim())] *)
Definition nonBlankLines (text : string) : list string :=
  filter (λ line, trim line ≠ EmptyString) (split newline text).

(** [line.split(',').map(part => part.trim())] *)
Definition fields (line : string) : list string :=
  trim <$> split comma line.

(** ** Errors thrown inside [processInput] *)

Inductive Error :=
  | InvalidNameFormat
  | InvalidGender (name : string)
  | MinSizeNotPositive
  | MaxSizeBelowMinSize
  | MaxGroupsNotPositive
  | InvalidLinkFormat
  | LinkNameNotInList (source target : string)
  | GenderOfUndefined.

(** [err.message] *)
Definition message (e : Error) : string :=
  match e with
  | InvalidNameFormat => "Invalid name format"
  | InvalidGender name => "Invalid gender for " +:+ name +:+ ". Use M or F."
  | MinSizeNotPositive => "Minimum group size must be greater than 0"
  | MaxSizeBelowMinSize =>
      "Maximum group size must be greater than or equal to minimum group size"
  | MaxGroupsNotPositive => "Maximum number of groups must be greater than 0"
  | InvalidLinkFormat => "Invalid link format"
  | LinkNameNotInList source target =>
      "Link contains name not in names list: " +:+ source +:+ " or " +:+ target
  | GenderOfUndefined =>
      "Cannot read properties of undefined (reading 'gender')"
  end%string.

(** [throw] and sequencing: the error monad [Error + _]. *)
#[global] Instance Error_ret : MRet (sum Error) := λ A a, inr a.
#[global] Instance Error_bind : MBind (sum Error) := λ A B f m,
  match m with inl e => inl e | inr a => f a end.
#[global] Instance Error_fmap : FMap (sum Error) := λ A B f m,
  match m with inl e => inl e | inr a => inr (f a) end.

(** ** [processInput]: the entity records *)

(** Callback of the [map] over the name lines, up to [peopleMap.set]. A
    missing second field takes the default [''] of the destructuring; the
    first field always exists. *)
Definition readPerson (line : string) : Error + Person :=
  let parts := fields line in
  let name := default EmptyString (parts !! 0%nat) in
  let gender := default EmptyString (parts !! 1%nat) in
  if decide (name = EmptyString) then inl InvalidNameFormat
  else if negb (includes ["M"; "F"; "m"; "f"]%string gender)
       then inl (InvalidGender name)
       else inr {| name := name; gender := toUpperCase gender |}.

(** The [map] itself, threading [peopleMap]; it answers the final map and
    [nameList]. *)
Fixpoint readPeople (lines : list string) (peopleMap : gmap string Person)
  : Error + (gmap string Person * list string) :=
  match lines with
  | [] => inr (peopleMap, [])
  | line :: lines =>
      person ← readPerson line;
      '(peopleMap, nameList) ←
        readPeople lines (<[name person := person]> peopleMap);
      inr (peopleMap, name person :: nameList)
  end.

(** ** [processInput]: the links *)

(** Callback of the [map] over the link lines. An absent field is
    [undefined], which [!] treats like the empty string. *)
Definition readLink (uniqueNames : list string) (link : string)
  : Error + NameLink :=
  let parts := fields link in
  let source := default EmptyString (parts !! 0%nat) in
  let target := default EmptyString (parts !! 1%nat) in
  if decide (source = EmptyString ∨ target = EmptyString)
  then inl InvalidLinkFormat
  else if negb (includes uniqueNames source) || negb (includes uniqueNames target)
       then inl (LinkNameNotInList source target)
       else inr {| source := source; target := target |}.

(** ** [processInput]: everything before the first grouping call *)

Definition validateInput (names links : string)
    (minGroupSize maxGroupSize maxGroups : Z)
  : Error + (gmap string Person * list string * list NameLink) :=
  '(peopleMap, nameList) ← readPeople (nonBlankLines names) ∅;
  let uniqueNames := StrSet.of_list nameList in
  if decide (minGroupSize ≤ 0) then inl MinSizeNotPositive
  else if decide (maxGroupSize < minGroupSize) then inl MaxSizeBelowMinSize
  else if decide (maxGroups ≤ 0) then inl MaxGroupsNotPositive
  else
    linkPairs ← mapM (readLink uniqueNames) (nonBlankLines links);
    inr (peopleMap, uniqueNames, linkPairs).

(** ** [processInput]: grouping and node creation *)

(** [peopleMap.get(name)!.gender] throws a [TypeError] on a missing key. *)
Definition nodeOf (peopleMap : gmap string Person) (groupIndex : nat)
    (name : string) : Error + Node :=
  match peopleMap !! name with
  | Some person =>
      inr {| id := name; node_gender := gender person; group := groupIndex |}
  | None => inl GenderOfUndefined
  end.

(** [groups.flatMap((group, groupIndex) => group.map(..))] *)
Definition makeNodes (peopleMap : gmap string Person)
    (groups : list (list string)) : Error + list Node :=
  nodeLists ←
    mapM (λ p : nat * list string, mapM (nodeOf peopleMap p.1) p.2)
         (imap pair groups);
  inr (concat nodeLists).

(** What the [try] block does: it returns, throws, or (in this model
    only) runs out of fuel. *)
Inductive Outcome (A : Type) :=
  | Returned (a : A)
  | Thrown (e : Error)
  | OutOfFuel.
Arguments Returned {A} a.
Arguments Thrown {A} e.
Arguments OutOfFuel {A}.

Definition grouping (peopleMap : gmap string Person)
    (uniqueNames : list string) (linkPairs : list NameLink)
    (minGroupSize maxGroupSize maxGroups : Z)
  : Outcome (list (list string)) :=
  match createConnectedGroups uniqueNames peopleMap linkPairs
          minGroupSize maxGroupSize with
  | None => OutOfFuel
  | Some groups =>
      match mergeGroups groups linkPairs maxGroupSize maxGroups with
      | None => OutOfFuel
      | Some groups => Returned groups
      end
  end.

Definition tryBlock (names links : string)
    (minGroupSize maxGroupSize maxGroups : Z)
  : Outcome (list Node * list NameLink) :=
  match validateInput names links minGroupSize maxGroupSize maxGroups with
  | inl e => Thrown e
  | inr (peopleMap, uniqueNames, linkPairs) =>
      match grouping peopleMap uniqueNames linkPairs
              minGroupSize maxGroupSize maxGroups with
      | Returned groups =>
          match makeNodes peopleMap groups with
          | inl e => Thrown e
          | inr nodes => Returned (nodes, linkPairs)
          end
      | Thrown e => Thrown e
      | OutOfFuel => OutOfFuel
      end
  end.

(** The component state read and written by [processInput]. *)
Record AppState := mkState {
  names : string;
  links : string;
  minGroupSize : Z;
  maxGroupSize : Z;
  maxGroups : Z;
  nodes : list Node;
  connections : list NameLink;
  error : string
}.

(** [processInput], with its [catch]: [setNodes], [setConnections] and
    [setError('')] on success, [setError(err.message)] alone on a throw. *)
Definition processInput (st : AppState) : option AppState :=
  match tryBlock (names st) (links st) (minGroupSize st) (maxGroupSize st)
          (maxGroups st) with
  | Returned (newNodes, linkPairs) =>
      Some (mkState (names st) (links st) (minGroupSize st) (maxGroupSize st)
              (maxGroups st) newNodes linkPairs EmptyString)
  | Thrown e =>
      Some (mkState (names st) (links st) (minGroupSize st) (maxGroupSize st)
              (maxGroups st) (nodes st) (connections st) (message e))
  | OutOfFuel => None
  end.

(** ** Analytics *)

(** The [reduce] that buckets the nodes by [group]. *)
Definition groupedNodes (nodes : list Node) : gmap nat (list Node) :=
  foldl (λ acc node,
           let acc :=
             match acc !! group node with
             | None => <[group node := []]> acc
             | Some _ => acc
             end in
           <[group node := default [] (acc !! group node) ++ [node]]> acc)
        ∅ nodes.

(** [groupedNodes[groupId] || []] *)
Definition groupNodesOf (nodes : list Node) (groupId : nat) : list Node :=
  default [] (groupedNodes nodes !! groupId).

Definition getConnectionsInGroup (nodes : list Node)
    (connections : list NameLink) (groupId : nat) : list NameLink :=
  let groupNodeIds := StrSet.of_list (id <$> groupNodesOf nodes groupId) in
  filter (λ conn, StrSet.has groupNodeIds (source conn)
                  && StrSet.has groupNodeIds (target conn))
         connections.

Definition getConnectionsForName (name : string)
    (groupConnections : list NameLink) : nat :=
  length (filter (λ conn, source conn = name ∨ target conn = name)
                 groupConnections).

Definition getIsolatedMembers (nodes : list Node)
    (connections : list NameLink) (groupId : nat) : list Node :=
  let groupNodes := groupNodesOf nodes groupId in
  let groupConnections := getConnectionsInGroup nodes connections groupId in
  filter (λ node, getConnectionsForName (id node) groupConnections = 0%nat)
         groupNodes.

(** ** More analytics: [getGenderCounts], [hasIsolatedMembers] *)

(** A counter of the [reduce] accumulator: an integer, or [NaN] once
    [undefined] has been incremented. The same type stands for what
    [parseInt] answers in the form handlers. *)
Inductive Num :=
  | NaN
  | Int (z : Z).

(** [acc[key]++] on an object whose properties are counters. *)
Definition increment (acc : gmap string Num) (key : string)
  : gmap string Num :=
  match acc !! key with
  | Some (Int n) => <[key := Int (n + 1)]> acc
  | Some NaN | None => <[key := NaN]> acc
  end.

(** The [reduce] over the nodes, from [{ M: 0, F: 0 }]. (Keys inherited
    from [Object.prototype] are outside this model.) *)
Definition getGenderCounts (nodes : list Node) : gmap string Num :=
  foldl (λ acc node, increment acc (node_gender node))
        (<["M" := Int 0]> (<["F" := Int 0]> ∅)) nodes.

(** [Object.keys(groupedNodes)], each key read back with [parseInt]. *)
Definition groupIds (nodes : list Node) : list nat :=
  (map_to_list (groupedNodes nodes)).*1.

(** [Object.keys(groupedNodes).some(..)]; the answer of [some] does not
    depend on the order of the keys. *)
Definition hasIsolatedMembers (nodes : list Node)
    (connections : list NameLink) : bool :=
  existsb (λ groupId,
             bool_decide
               (0 < length (getIsolatedMembers nodes connections groupId))%nat)
          (groupIds nodes).

(** ** The form handlers *)

(** [parsed || fallback]: [NaN] and [0] are falsy. *)
Definition orElse (parsed : Num) (fallback : Z) : Z :=
  match parsed with
  | NaN => fallback
  | Int z => if decide (z = 0) then fallback else z
  end.

(** The component state at the first render. *)
Definition initialState : AppState :=
  mkState EmptyString EmptyString 3 5 3 [] [] EmptyString.

(** [onChange] of the two text areas. *)
Definition onNamesChange (st : AppState) (value : string) : AppState :=
  mkState value (links st) (minGroupSize st) (maxGroupSize st) (maxGroups st)
    (nodes st) (connections st) (error st).

Definition onLinksChange (st : AppState) (value : string) : AppState :=
  mkState (names st) value (minGroupSize st) (maxGroupSize st) (maxGroups st)
    (nodes st) (connections st) (error st).

(** [onChange] of the minimum size; [parsed] is [parseInt(e.target.value)].
    Both setters read the state of the current render. *)
Definition onMinGroupSizeChange (st : AppState) (parsed : Num) : AppState :=
  let value := Z.max 1 (orElse parsed 1) in
  mkState (names st) (links st) value
    (if decide (value > maxGroupSize st) then value else maxGroupSize st)
    (maxGroups st) (nodes st) (connections st) (error st).

(** [onChange] of the maximum size. *)
Definition onMaxGroupSizeChange (st : AppState) (parsed : Num) : AppState :=
  mkState (names st) (links st) (minGroupSize st)
    (Z.max (minGroupSize st) (orElse parsed (minGroupSize st)))
    (maxGroups st) (nodes st) (connections st) (error st).

(** [onChange] of the maximum number of groups. *)
Definition onMaxGroupsChange (st : AppState) (parsed : Num) : AppState :=
  mkState (names st) (links st) (minGroupSize st) (maxGroupSize st)
    (Z.max 1 (orElse parsed 1)) (nodes st) (connections st) (error st).

(** What the user can do: edit a field or press the button. *)
Inductive Event :=
  | NamesChanged (value : string)
  | LinksChanged (value : string)
  | MinGroupSizeChanged (parsed : Num)
  | MaxGroupSizeChanged (parsed : Num)
  | MaxGroupsChanged (parsed : Num)
  | Generate.

Definition handle (st : AppState) (ev : Event) : option AppState :=
  match ev with
  | NamesChanged value => Some (onNamesChange st value)
  | LinksChanged value => Some (onLinksChange st value)
  | MinGroupSizeChanged parsed => Some (onMinGroupSizeChange st parsed)
  | MaxGroupSizeChanged parsed => Some (onMaxGroupSizeChange st parsed)
  | MaxGroupsChanged parsed => Some (onMaxGroupsChange st parsed)
  | Generate => processInput st
  end.

(** A session: the events of the user, in order, from the first render. *)
Definition session (events : list Event) : option AppState :=
  foldl (λ st ev, st ← st; handle st ev) (Some initialState) events.

(** ** Specification-side notions *)

(** Reachability from [seed] along the links, read in both directions. *)
Inductive reachable (linkPairs : list NameLink) (seed : string)
  : string → Prop :=
  | reach_seed : reachable linkPairs seed seed
  | reach_forward link :
      link ∈ linkPairs → reachable linkPairs seed (source link) →
      reachable linkPairs seed (target link)
  | reach_backward link :
      link ∈ linkPairs → reachable linkPairs seed (target link) →
      reachable linkPairs seed (source link).

(** A set that no link leaves. *)
Definition closedUnder (linkPairs : list NameLink) (s : list string) : Prop :=
  ∀ link, link ∈ linkPairs → (source link ∈ s ↔ target link ∈ s).

(** All identifiers a closure from [seed] can ever hold. *)
Definition universe (seed : string) (linkPairs : list NameLink) : list string :=
  seed :: (linkPairs ≫= λ link, [source link; target link]).

(** Every member of [s] is reachable from [seed]. *)
Definition sound (linkPairs : list NameLink) (seed : string)
    (s : list string) : Prop :=
  ∀ x, x ∈ s → reachable linkPairs seed x.

(** A link with one endpoint in each of two groups. *)
Definition crosses (group1 group2 : list string) (link : NameLink) : Prop :=
  (source link ∈ group1 ∧ target link ∈ group2) ∨
  (target link ∈ group1 ∧ source link ∈ group2).

(** The merge score in the spec's words: the number of link occurrences
    with one endpoint in each group. *)
Definition interGroupLinks (group1 group2 : list string)
    (linkPairs : list NameLink) : Z :=
  Z.of_nat (length (filter (crosses group1 group2) linkPairs)).

Definition pairScore (groups : list (list string))
    (linkPairs : list NameLink) (i j : nat) : Z :=
  interGroupLinks (groupAt groups i) (groupAt groups j) linkPairs.

(** An index pair the merger may pick. *)
Definition eligible (groups : list (list string)) (maxSize : Z)
    (i j : nat) : Prop :=
  (i < j < length groups)%nat ∧
  Z.of_nat (length (groupAt groups i)) + Z.of_nat (length (groupAt groups j))
    ≤ maxSize.

(** Row-major order of index pairs. *)
Definition rowMajorLe (p q : nat * nat) : Prop :=
  (p.1 < q.1 ∨ (p.1 = q.1 ∧ p.2 ≤ q.2))%nat.

(** The pair the spec selects: eligible, of highest score, and first in
    row-major order among the eligible pairs of that score. *)
Definition bestEligiblePair (groups : list (list string))
    (linkPairs : list NameLink) (maxSize : Z) (i j : nat) : Prop :=
  eligible groups maxSize i j ∧
  ∀ i' j', eligible groups maxSize i' j' →
    pairScore groups linkPairs i' j' ≤ pairScore groups linkPairs i j ∧
    (pairScore groups linkPairs i' j' = pairScore groups linkPairs i j →
     rowMajorLe (i, j) (i', j')).

(** The group list with the groups at [i] and [j] taken out, the others
    left in their order. *)
Definition withoutPair (groups : list (list string)) (i j : nat)
  : list (list string) :=
  take i groups ++ drop (S i) (take j groups) ++ drop (S j) groups.

(** The index pair [(a, b)] is scanned before the position [(i, j)]. *)
Definition scannedBefore (i j a b : nat) : Prop :=
  (a < i ∨ (a = i ∧ b < j))%nat.

(** State of the search when it stands at position [(i, j)]. *)
Definition searchInvariant (groups : list (list string))
    (linkPairs : list NameLink) (maxSize : Z) (i j : nat) (best : Best)
  : Prop :=
  (best = noBest ∧
   ∀ a b, eligible groups maxSize a b → ¬ scannedBefore i j a b)
  ∨
  (∃ p q,
      best = {| bestMergeScore := pairScore groups linkPairs p q;
                bestPair := (Z.of_nat p, Z.of_nat q) |} ∧
      eligible groups maxSize p q ∧ scannedBefore i j p q ∧
      ∀ a b, eligible groups maxSize a b → scannedBefore i j a b →
        pairScore groups linkPairs a b ≤ pairScore groups linkPairs p q ∧
        (pairScore groups linkPairs a b = pairScore groups linkPairs p q →
         rowMajorLe (p, q) (a, b))).

(** A group within the size cap. *)
Definition fits (maxSize : Z) (g : list string) : Prop :=
  Z.of_nat (length g) ≤ maxSize.

(** What the builder's loop keeps true of its three variables: the
    identifiers are split between finished groups, group in progress and
    unassigned set, and (under valid sizes) nothing exceeds the cap. *)
Definition builderInvariant (all : list string) (minSize maxSize : Z)
    (unassignedNames : list string) (groups : list (list string))
    (currentGroup : list string) : Prop :=
  NoDup unassignedNames ∧
  concat groups ++ currentGroup ++ unassignedNames ≡ₚ all ∧
  (1 ≤ minSize ≤ maxSize →
   Forall (fits maxSize) groups ∧ fits maxSize currentGroup).

(** The entity set of the group [groupId], read off the node list. *)
Definition members (nodes : list Node) (groupId : nat) : list string :=
  id <$> filter (λ node, group node = groupId) nodes.

(** The spec's intra-group edges: links with both endpoints in the group. *)
Definition intraGroupLinks (nodes : list Node) (connections : list NameLink)
    (groupId : nat) : list NameLink :=
  filter (λ link, source link ∈ members nodes groupId ∧
                  target link ∈ members nodes groupId) connections.

(** A link occurrence touching [name]. *)
Definition touches (name : string) (link : NameLink) : Prop :=
  source link = name ∨ target link = name.

(** Link endpoints equal to [name], each endpoint counted: a self-link on
    [name] has two. *)
Definition endpointOccurrences (name : string) (links : list NameLink) : nat :=
  (length (filter (λ link, source link = name) links) +
   length (filter (λ link, target link = name) links))%nat.

(** Self-links on [name]. *)
Definition selfLinks (name : string) (links : list NameLink) : nat :=
  length (filter (λ link, source link = name ∧ target link = name) links).

(** The identifier and the gender field of an entity line, and the two
    fields of a link line. *)
Definition lineName (line : string) : string :=
  default EmptyString (fields line !! 0%nat).
Definition lineGender (line : string) : string :=
  default EmptyString (fields line !! 1%nat).
Definition linkSource (line : string) : string :=
  default EmptyString (fields line !! 0%nat).
Definition linkTarget (line : string) : string :=
  default EmptyString (fields line !! 1%nat).

(** First-seen order: every identifier at its first occurrence. *)
Fixpoint firstSeen (l : list string) : list string :=
  match l with
  | [] => []
  | x :: l => x :: filter (λ y, y ≠ x) (firstSeen l)
  end.

(** The last entity line that names [n]. *)
Definition lastLineOf (n : string) (lines : list string) : option string :=
  last (filter (λ line, lineName line = n) lines).

(** The identifiers of the entity records of the input text. *)
Definition entityIds (names : string) : list string :=
  lineName <$> nonBlankLines names.

(** Some link line names an identifier that no entity record has. *)
Definition referencesUnknown (names links : string) : Prop :=
  ∃ line, line ∈ nonBlankLines links ∧
          (linkSource line ∉ entityIds names ∨
           linkTarget line ∉ entityIds names).

(** Both fields of a link line are there. *)
Definition wellFormedLink (line : string) : Prop :=
  linkSource line ≠ EmptyString ∧ linkTarget line ≠ EmptyString.

(** The checks that precede the links all pass. *)
Definition validBeforeLinks (names : string)
    (minGroupSize maxGroupSize maxGroups : Z) : Prop :=
  (∃ r, readPeople (nonBlankLines names) ∅ = inr r) ∧
  0 < minGroupSize ∧ minGroupSize ≤ maxGroupSize ∧ 0 < maxGroups.

(** The link read in the other direction. *)
Definition reversed (link : NameLink) : NameLink :=
  {| source := target link; target := source link |}.

(** An entity line that [processInput] accepts. *)
Definition validRecord (line : string) : Prop :=
  lineName line ≠ EmptyString ∧
  lineGender line ∈ ["M"; "F"; "m"; "f"]%string.

(** A link line that [processInput] accepts, given the entity ids. *)
Definition validLink (ids : list string) (line : string) : Prop :=
  wellFormedLink line ∧ linkSource line ∈ ids ∧ linkTarget line ∈ ids.

(** The link a link line stands for. *)
Definition linkOfLine (line : string) : NameLink :=
  {| source := linkSource line; target := linkTarget line |}.

(** All groups but the last one satisfy [P]. *)
Definition allButLast (P : list string → Prop) (groups : list (list string))
  : Prop :=
  ∀ i g, groups !! i = Some g → (S i < length groups)%nat → P g.

(** The sizes the form can hold. *)
Definition validSizes (st : AppState) : Prop :=
  1 ≤ minGroupSize st ∧ minGroupSize st ≤ maxGroupSize st ∧ 1 ≤ maxGroups st.

(** A group whose members all lie in one connected component. *)
Definition withinComponent (linkPairs : list NameLink) (g : list string)
  : Prop :=
  ∀ x y, x ∈ g → y ∈ g → reachable linkPairs x y.

(** A group that has reached the minimum size. *)
Definition reachesMin (minSize : Z) (g : list string) : Prop :=
  minSize ≤ Z.of_nat (length g).

(** Loop invariant of the builder for the shape of its groups. *)
Definition shapeInvariant (minSize : Z) (unassignedNames : list string)
    (groups : list (list string)) (currentGroup : list string) : Prop :=
  Forall (λ g, g ≠ []) groups ∧
  (unassignedNames ≠ [] ∨ currentGroup ≠ [] →
   Forall (reachesMin minSize) groups) ∧
  allButLast (reachesMin minSize) groups.

(** Loop invariant of the builder when nothing is padded: groups grow
    inside a component. *)
Definition componentInvariant (linkPairs : list NameLink)
    (unassignedNames : list string) (groups : list (list string))
    (currentGroup : list string) : Prop :=
  Forall (withinComponent linkPairs) groups ∧
  withinComponent linkPairs currentGroup.

(** Loop invariant of the builder when, besides, the cap never closes a
    group: a finished group is cut off from everything else. *)
Definition separationInvariant (linkPairs : list NameLink) (maxSize : Z)
    (unassignedNames : list string) (groups : list (list string))
    (currentGroup : list string) : Prop :=
  componentInvariant linkPairs unassignedNames groups currentGroup ∧
  Z.of_nat (length currentGroup + length unassignedNames) ≤ maxSize ∧
  ∀ x y, x ∈ concat groups →
         y ∈ concat groups ++ currentGroup ++ unassignedNames →
         reachable linkPairs x y → ∃ g, g ∈ groups ∧ x ∈ g ∧ y ∈ g.

(** Loop invariant of the builder when there are no links: the names are
    dealt out in order, in groups of [max(1, minSize)]. *)
Definition dealingInvariant (all : list string) (minSize : Z)
    (unassignedNames : list string) (groups : list (list string))
    (currentGroup : list string) : Prop :=
  concat groups ++ currentGroup ++ unassignedNames = all ∧
  (length currentGroup ≤ 1)%nat ∧
  (unassignedNames ≠ [] ∨ currentGroup ≠ [] →
   Forall (λ g, Z.of_nat (length g) = Z.max 1 minSize) groups) ∧
  allButLast (λ g, Z.of_nat (length g) = Z.max 1 minSize) groups.

(** The nodes of a group list, when every member has a person. *)
Definition nodesOf (peopleMap : gmap string Person)
    (groups : list (list string)) : list Node :=
  concat (imap (λ i g,
                  (λ n, {| id := n;
                           node_gender :=
                             default EmptyString (gender <$> peopleMap !! n);
                           group := i |}) <$> g)
               groups).

(** The degree of a node inside its group, as the list view shows it. *)
Definition degreeInGroup (nodes : list Node) (connections : list NameLink)
    (groupId : nat) (node : Node) : nat :=
  getConnectionsForName (id node)
    (getConnectionsInGroup nodes connections groupId).

(** How many nodes have the gender [g]. *)
Definition genderCount (g : string) (nodes : list Node) : Z :=
  Z.of_nat (length (filter (λ node, node_gender node = g) nodes)).

(** The three errors about the sizes. *)
Definition sizeError (e : Error) : Prop :=
  e = MinSizeNotPositive ∨ e = MaxSizeBelowMinSize ∨ e = MaxGroupsNotPositive.

(** What a session keeps true of the state. *)
Definition sessionInvariant (st : AppState) : Prop :=
  validSizes st ∧
  (error st = EmptyString ∨ ∃ e, error st = message e ∧ ¬ sizeError e).


(** The error of an entity line that is not valid, and of a link line
    that is not. *)
Definition recordError (line : string) : Error :=
  if decide (lineName line = EmptyString) then InvalidNameFormat
  else InvalidGender (lineName line).

Definition linkError (line : string) : Error :=
  if decide (wellFormedLink line)
  then LinkNameNotInList (linkSource line) (linkTarget line)
  else InvalidLinkFormat.

(** [bad] is the first of [lines] that fails [P]. *)
Definition firstFailing {A} (P : A → Prop) (lines : list A) (bad : A) : Prop :=
  ∃ good rest, lines = good ++ bad :: rest ∧ Forall P good ∧ ¬ P bad.

(** [e] is the error of the first check that fails, the checks taken in
    the order: entity lines (top to bottom), minimum size, maximum size,
    number of groups, link lines (top to bottom). *)
Definition firstFailure (names links : string)
    (minGroupSize maxGroupSize maxGroups : Z) (e : Error) : Prop :=
  (∃ bad, firstFailing validRecord (nonBlankLines names) bad ∧
          e = recordError bad) ∨
  (Forall validRecord (nonBlankLines names) ∧
   ((minGroupSize ≤ 0 ∧ e = MinSizeNotPositive) ∨
    (0 < minGroupSize ∧ maxGroupSize < minGroupSize ∧
     e = MaxSizeBelowMinSize) ∨
    (0 < minGroupSize ∧ minGroupSize ≤ maxGroupSize ∧ maxGroups ≤ 0 ∧
     e = MaxGroupsNotPositive) ∨
    (0 < minGroupSize ∧ minGroupSize ≤ maxGroupSize ∧ 0 < maxGroups ∧
     ∃ bad, firstFailing (validLink (entityIds names)) (nonBlankLines links)
              bad ∧
            e = linkError bad))).
(** * Insertion-ordered sets *)

Section StrSetFacts.
Implicit Types (s l : list string) (x y : string).

Lemma has_true s x : StrSet.has s x = true ↔ x ∈ s.
Proof. unfold StrSet.has. apply bool_decide_eq_true. Qed.

Lemma has_false s x : StrSet.has s x = false ↔ x ∉ s.
Proof. unfold StrSet.has. apply bool_decide_eq_false. Qed.

Lemma elem_of_add s x y : x ∈ StrSet.add s y ↔ x ∈ s ∨ x = y.
Proof.
  unfold StrSet.add. destruct (StrSet.has s y) eqn:E.
  - apply has_true in E. set_solver.
  - set_solver.
Qed.

Lemma NoDup_add s y : NoDup s → NoDup (StrSet.add s y).
Proof.
  intros Hs. unfold StrSet.add. destruct (StrSet.has s y) eqn:E; [done|].
  apply has_false in E. apply NoDup_app. repeat split; [done| |apply NoDup_singleton].
  set_solver.
Qed.

Lemma add_extends s y : ∃ e, StrSet.add s y = s ++ e.
Proof.
  unfold StrSet.add. destruct (StrSet.has s y).
  - exists []. by rewrite app_nil_r.
  - by exists [y].
Qed.

Lemma elem_of_delete s x y : x ∈ StrSet.delete s y ↔ x ∈ s ∧ x ≠ y.
Proof. unfold StrSet.delete. rewrite list_elem_of_filter. tauto. Qed.

Lemma NoDup_delete s y : NoDup s → NoDup (StrSet.delete s y).
Proof. apply NoDup_filter. Qed.

Lemma elem_of_of_list_from l s x :
  x ∈ foldl StrSet.add s l ↔ x ∈ s ∨ x ∈ l.
Proof.
  revert s. induction l as [|y l IH]; intros s; simpl.
  - set_solver.
  - rewrite IH, elem_of_add. set_solver.
Qed.

Lemma elem_of_of_list l x : x ∈ StrSet.of_list l ↔ x ∈ l.
Proof. unfold StrSet.of_list. rewrite elem_of_of_list_from. set_solver. Qed.

Lemma NoDup_of_list_from l s : NoDup s → NoDup (foldl StrSet.add s l).
Proof.
  revert s. induction l as [|y l IH]; intros s Hs; simpl; [done|].
  apply IH. by apply NoDup_add.
Qed.

Lemma NoDup_of_list l : NoDup (StrSet.of_list l).
Proof. apply NoDup_of_list_from. constructor. Qed.
End StrSetFacts.

(** * Connectivity closure *)

Section Closure.
Variable linkPairs : list NameLink.
Implicit Types (s : list string) (link : NameLink).

Lemma visitLink_extends s link : ∃ e, visitLink s link = s ++ e.
Proof.
  unfold visitLink.
  destruct (StrSet.has s (source link)).
  - destruct (add_extends s (target link)) as [e1 ->].
    destruct (StrSet.has (s ++ e1) (target link)).
    + destruct (add_extends (s ++ e1) (source link)) as [e2 ->].
      exists (e1 ++ e2). by rewrite app_assoc.
    + by exists e1.
  - destruct (StrSet.has s (target link)).
    + apply add_extends.
    + exists []. by rewrite app_nil_r.
Qed.

Lemma scanLinks_extends links s : ∃ e, scanLinks links s = s ++ e.
Proof.
  unfold scanLinks. revert s.
  induction links as [|link links IH]; intros s; simpl.
  - exists []. by rewrite app_nil_r.
  - destruct (visitLink_extends s link) as [e1 ->].
    destruct (IH (s ++ e1)) as [e2 ->].
    exists (e1 ++ e2). by rewrite app_assoc.
Qed.

Lemma scanLinks_length links s : (length s ≤ length (scanLinks links s))%nat.
Proof.
  destruct (scanLinks_extends links s) as [e ->]. rewrite length_app. lia.
Qed.

Lemma scanLinks_same_length links s :
  length (scanLinks links s) = length s → scanLinks links s = s.
Proof.
  destruct (scanLinks_extends links s) as [e ->]. rewrite length_app.
  intros H. destruct e; simpl in H; [by rewrite app_nil_r | lia].
Qed.

Lemma elem_of_visitLink s link x :
  x ∈ visitLink s link →
  x ∈ s ∨ (x = target link ∧ source link ∈ s)
  ∨ (x = source link ∧ target link ∈ s).
Proof.
  unfold visitLink.
  destruct (StrSet.has s (source link)) eqn:E1.
  - apply has_true in E1.
    destruct (StrSet.has _ (target link)) eqn:E2.
    + rewrite !elem_of_add. naive_solver.
    + rewrite elem_of_add. naive_solver.
  - destruct (StrSet.has s (target link)) eqn:E2.
    + apply has_true in E2. rewrite elem_of_add. naive_solver.
    + naive_solver.
Qed.

Lemma visitLink_NoDup s link : NoDup s → NoDup (visitLink s link).
Proof.
  intros Hs. unfold visitLink.
  destruct (StrSet.has s (source link));
    destruct (StrSet.has _ (target link)); auto using NoDup_add.
Qed.

Lemma visitLink_fixed s link :
  visitLink s link = s → (source link ∈ s ↔ target link ∈ s).
Proof.
  unfold visitLink.
  destruct (StrSet.has s (source link)) eqn:E1.
  - apply has_true in E1. intros H.
    assert (target link ∈ s); [|tauto].
    destruct (StrSet.has _ (target link)) eqn:E2.
    + rewrite <- H. rewrite !elem_of_add. auto.
    + rewrite <- H. rewrite elem_of_add. auto.
  - apply has_false in E1.
    destruct (StrSet.has s (target link)) eqn:E2.
    + apply has_true in E2. intros H. exfalso. apply E1.
      rewrite <- H. rewrite elem_of_add. auto.
    + apply has_false in E2. tauto.
Qed.

Lemma scanLinks_fixed links s :
  scanLinks links s = s → closedUnder links s.
Proof.
  unfold scanLinks. revert s.
  induction links as [|link links IH]; intros s H l Hl.
  - by apply elem_of_nil in Hl.
  - simpl in H.
    assert (visitLink s link = s) as Hv.
    { destruct (visitLink_extends s link) as [e1 He1].
      destruct (scanLinks_extends links (visitLink s link)) as [e2 He2].
      unfold scanLinks in He2. rewrite He2, He1 in H.
      rewrite <- app_assoc in H.
      rewrite <- (app_nil_r s) in H at 2. apply app_inv_head in H.
      apply app_eq_nil in H as [-> _]. by rewrite app_nil_r in He1. }
    rewrite Hv in H. apply elem_of_cons in Hl as [->|Hl].
    + by apply visitLink_fixed.
    + by apply (IH s H).
Qed.

Lemma scanLinks_sound seed links s :
  links ⊆ linkPairs → sound linkPairs seed s →
  sound linkPairs seed (scanLinks links s).
Proof.
  unfold scanLinks. revert s.
  induction links as [|link links IH]; intros s Hsub Hs; simpl; [done|].
  apply IH; [set_solver|].
  intros x Hx. apply elem_of_visitLink in Hx.
  assert (link ∈ linkPairs) by set_solver.
  destruct Hx as [Hx|[[-> Hx]|[-> Hx]]].
  - by apply Hs.
  - apply reach_forward; auto.
  - apply reach_backward; auto.
Qed.

Lemma scanLinks_NoDup links s : NoDup s → NoDup (scanLinks links s).
Proof.
  unfold scanLinks. revert s.
  induction links as [|link links IH]; intros s Hs; simpl; [done|].
  by apply IH, visitLink_NoDup.
Qed.

Lemma scanLinks_universe seed links s :
  links ⊆ linkPairs → s ⊆ universe seed linkPairs →
  scanLinks links s ⊆ universe seed linkPairs.
Proof.
  unfold scanLinks. revert s.
  induction links as [|link links IH]; intros s Hsub Hs; simpl; [done|].
  apply IH; [set_solver|].
  intros x Hx. apply elem_of_visitLink in Hx.
  assert (link ∈ linkPairs) as Hl by set_solver.
  assert (source link ∈ universe seed linkPairs ∧
          target link ∈ universe seed linkPairs) as [Hsrc Htgt].
  { unfold universe. split; apply elem_of_cons; right;
      apply list_elem_of_bind; exists link; set_solver. }
  destruct Hx as [Hx|[[-> _]|[-> _]]]; auto.
Qed.

Lemma universe_length seed :
  length (universe seed linkPairs) = S (2 * length linkPairs).
Proof.
  unfold universe. simpl. f_equal.
  generalize linkPairs. intros links.
  induction links as [|l ls IH]; [done|].
  rewrite bind_cons, length_app, IH. simpl. lia.
Qed.

(** The loop answers as soon as the fuel covers what can still be added. *)
Lemma findConnectedNames_loop_total seed fuel s :
  NoDup s → s ⊆ universe seed linkPairs →
  (length (universe seed linkPairs) < fuel + length s)%nat →
  ∃ r, findConnectedNames_loop fuel linkPairs s = Some r.
Proof.
  revert s. induction fuel as [|fuel IH]; intros s Hnd Hsub Hfuel.
  - apply NoDup_submseteq in Hsub; [|done].
    apply submseteq_length in Hsub. lia.
  - simpl. case_decide as Hlen; [|eauto].
    apply IH.
    + by apply scanLinks_NoDup.
    + by apply scanLinks_universe.
    + pose proof (scanLinks_length linkPairs s). lia.
Qed.

(** What the loop answers is a fixed point of the pass and keeps every
    invariant of the pass. *)
Lemma findConnectedNames_loop_post (P : list string → Prop) fuel s r :
  (∀ s, P s → P (scanLinks linkPairs s)) →
  findConnectedNames_loop fuel linkPairs s = Some r →
  P s → P r ∧ scanLinks linkPairs r = r ∧ ∃ e, r = s ++ e.
Proof.
  intros HP. revert s. induction fuel as [|fuel IH]; intros s Hr Hs; [done|].
  simpl in Hr. case_decide as Hlen.
  - apply IH in Hr as (? & ? & e & ->); [|by apply HP].
    repeat split; [done..|].
    destruct (scanLinks_extends linkPairs s) as [e' ->].
    exists (e' ++ e). by rewrite app_assoc.
  - simplify_eq. symmetry in Hlen. apply scanLinks_same_length in Hlen.
    rewrite Hlen. repeat split; [done..|]. exists []. by rewrite app_nil_r.
Qed.

Lemma reachable_in_closed seed s x :
  seed ∈ s → closedUnder linkPairs s → reachable linkPairs seed x → x ∈ s.
Proof.
  intros Hseed Hcl. induction 1 as [|link Hl _ IH|link Hl _ IH]; [done|..].
  - by apply (Hcl link Hl).
  - by apply (Hcl link Hl).
Qed.

Lemma findConnectedNames_total seed :
  ∃ r, findConnectedNames seed linkPairs = Some r.
Proof.
  unfold findConnectedNames, findConnectedNames_fuel.
  apply (findConnectedNames_loop_total seed).
  - apply NoDup_singleton.
  - unfold universe. set_solver.
  - rewrite universe_length. simpl. lia.
Qed.

Lemma findConnectedNames_spec seed r :
  findConnectedNames seed linkPairs = Some r →
  NoDup r ∧ (∀ x, x ∈ r ↔ reachable linkPairs seed x) ∧ ∃ e, r = seed :: e.
Proof.
  intros Hr. unfold findConnectedNames in Hr.
  apply (findConnectedNames_loop_post
           (λ s, NoDup s ∧ sound linkPairs seed s)) in Hr.
  - destruct Hr as ((Hnd & Hsound) & Hfix & e & ->).
    repeat split; [done| apply Hsound | | by exists e].
    apply reachable_in_closed; [set_solver|]. by apply scanLinks_fixed.
  - intros s [? ?]. split; [by apply scanLinks_NoDup|].
    by apply scanLinks_sound.
  - split; [apply NoDup_singleton|]. intros x Hx.
    apply list_elem_of_singleton in Hx as ->. constructor.
Qed.
End Closure.

Lemma reachable_untouched linkPairs seed x :
  (∀ link, link ∈ linkPairs → source link ≠ seed ∧ target link ≠ seed) →
  reachable linkPairs seed x → x = seed.
Proof.
  intros Hno. induction 1 as [|link Hl _ IH|link Hl _ IH]; [done|..].
  - destruct (Hno link Hl) as [? _]. congruence.
  - destruct (Hno link Hl) as [_ ?]. congruence.
Qed.

(** C7. The connectivity closure answers, and what it answers holds
    exactly the identifiers reachable from the seed along the links taken
    in both directions, each once; it is the least set that contains the
    seed and that no link leaves; for a seed that no link mentions it is
    the one-element set of the seed. *)
Theorem findConnectedNames_is_reachable_set (seed : string)
    (linkPairs : list NameLink) :
  ∃ connected,
    findConnectedNames seed linkPairs = Some connected ∧
    NoDup connected ∧
    (∀ x, x ∈ connected ↔ reachable linkPairs seed x) ∧
    (seed ∈ connected ∧ closedUnder linkPairs connected ∧
     ∀ s, seed ∈ s → closedUnder linkPairs s → connected ⊆ s) ∧
    ((∀ link, link ∈ linkPairs → source link ≠ seed ∧ target link ≠ seed) →
     connected = [seed]).
Proof.
  destruct (findConnectedNames_total linkPairs seed) as [r Hr].
  exists r. split; [done|].
  destruct (findConnectedNames_spec linkPairs seed r Hr)
    as (Hnd & Hreach & e & ->).
  split; [done|]. split; [done|]. split; [split; [|split]|].
  - apply list_elem_of_here.
  - intros link Hl. rewrite !Hreach. split; intros H.
    + by apply reach_forward.
    + by apply reach_backward.
  - intros s Hseed Hclosed x Hx. apply Hreach in Hx.
    by apply (reachable_in_closed linkPairs seed).
  - intros Hno. f_equal. destruct e as [|y e]; [done|].
    assert (y = seed) as ->.
    { apply (reachable_untouched linkPairs); [done|]. apply Hreach. set_solver. }
    apply NoDup_cons in Hnd as [Hnd _]. set_solver.
Qed.

(** * Group merger *)

Lemma foldl_seq_invariant {A} (P : nat → A → Prop) (f : A → nat → A)
    (a : A) (start len : nat) :
  P start a →
  (∀ k a, (start ≤ k < start + len)%nat → P k a → P (S k) (f a k)) →
  P (start + len)%nat (foldl f a (seq start len)).
Proof.
  revert a start. induction len as [|len IH]; intros a start H0 Hstep; simpl.
  - by rewrite Nat.add_0_r.
  - replace (start + S len)%nat with (S start + len)%nat by lia.
    apply IH.
    + apply Hstep; [lia|done].
    + intros k b Hk. apply Hstep. lia.
Qed.

Lemma includes_true l x : includes l x = true ↔ x ∈ l.
Proof. unfold includes. apply bool_decide_eq_true. Qed.

Lemma countConnections_from g1 g2 links (n : Z) :
  foldl (λ connections link,
           if (includes g1 (source link) && includes g2 (target link))
              || (includes g1 (target link) && includes g2 (source link))
           then connections + 1 else connections) n links
  = n + interGroupLinks g1 g2 links.
Proof.
  unfold interGroupLinks. revert n.
  induction links as [|link links IH]; intros n; simpl; [lia|].
  rewrite IH. rewrite filter_cons.
  destruct (decide (crosses g1 g2 link)) as [Hc|Hc].
  - assert ((includes g1 (source link) && includes g2 (target link))
            || (includes g1 (target link) && includes g2 (source link)) = true)
      as ->.
    { rewrite orb_true_iff, !andb_true_iff, !includes_true. exact Hc. }
    simpl. lia.
  - assert ((includes g1 (source link) && includes g2 (target link))
            || (includes g1 (target link) && includes g2 (source link)) = false)
      as ->; [|lia].
    apply not_true_is_false. intros E. apply Hc.
    by rewrite orb_true_iff, !andb_true_iff, !includes_true in E.
Qed.

(** The counter of the source is the spec's score. *)
Lemma countConnections_interGroupLinks g1 g2 links :
  countConnectionsBetweenGroups g1 g2 links = interGroupLinks g1 g2 links.
Proof.
  unfold countConnectionsBetweenGroups. rewrite countConnections_from. lia.
Qed.

Lemma interGroupLinks_nonneg g1 g2 links : 0 ≤ interGroupLinks g1 g2 links.
Proof. unfold interGroupLinks. lia. Qed.

Section Search.
Variables (groups : list (list string)) (linkPairs : list NameLink)
          (maxSize : Z).

Local Abbreviation Inv := (searchInvariant groups linkPairs maxSize).
Local Abbreviation score := (pairScore groups linkPairs).
Local Abbreviation ok := (eligible groups maxSize).

Lemma scannedBefore_next i j a b :
  scannedBefore i (S j) a b ↔ scannedBefore i j a b ∨ (a = i ∧ b = j).
Proof. unfold scannedBefore. lia. Qed.

Lemma considerPair_invariant i j best :
  (i < j < length groups)%nat →
  Inv i j best → Inv i (S j) (considerPair groups linkPairs maxSize i j best).
Proof.
  intros Hij HI. unfold considerPair.
  rewrite countConnections_interGroupLinks. fold (score i j).
  pose proof (interGroupLinks_nonneg (groupAt groups i) (groupAt groups j)
                linkPairs) as Hpos. fold (score i j) in Hpos.
  case_decide as Hsize.
  - assert (ok i j) as Hok by (split; [lia|done]).
    case_decide as Hbetter.
    + right. exists i, j. split; [done|]. split; [done|].
      split; [apply scannedBefore_next; auto|].
      intros a b Hab Hbefore. apply scannedBefore_next in Hbefore.
      destruct Hbefore as [Hbefore|[-> ->]].
      * destruct HI as [[-> Hnone]|(p & q & -> & _ & _ & Hall)].
        -- by destruct (Hnone a b Hab).
        -- simpl in Hbetter. destruct (Hall a b Hab Hbefore). lia.
      * split; [lia|]. intros _. unfold rowMajorLe. simpl. lia.
    + destruct HI as [[-> Hnone]|(p & q & -> & Hpq & Hpqb & Hall)].
      * simpl in Hbetter. lia.
      * right. exists p, q. split; [done|]. split; [done|].
        split; [apply scannedBefore_next; auto|].
        intros a b Hab Hbefore. apply scannedBefore_next in Hbefore.
        destruct Hbefore as [Hbefore|[-> ->]]; [by apply Hall|].
        simpl in Hbetter. split; [lia|]. intros _.
        unfold scannedBefore in Hpqb. unfold rowMajorLe. simpl. lia.
  - assert (¬ ok i j) as Hno by (intros [_ ?]; lia).
    destruct HI as [[-> Hnone]|(p & q & -> & Hpq & Hpqb & Hall)].
    + left. split; [done|]. intros a b Hab Hbefore.
      apply scannedBefore_next in Hbefore.
      destruct Hbefore as [Hbefore|[-> ->]]; [by apply (Hnone a b)|done].
    + right. exists p, q. split; [done|]. split; [done|].
      split; [apply scannedBefore_next; auto|].
      intros a b Hab Hbefore. apply scannedBefore_next in Hbefore.
      destruct Hbefore as [Hbefore|[-> ->]]; [by apply Hall|done].
Qed.

Lemma searchInvariant_weaken i j i' j' best :
  (∀ a b, ok a b → scannedBefore i' j' a b ↔ scannedBefore i j a b) →
  Inv i j best → Inv i' j' best.
Proof.
  intros Heq [[-> Hnone]|(p & q & -> & Hpq & Hpqb & Hall)].
  - left. split; [done|]. intros a b Hab Hb. apply (Hnone a b Hab).
    by apply Heq.
  - right. exists p, q. split; [done|]. split; [done|].
    split; [by apply Heq|]. intros a b Hab Hb. apply Hall; [done|].
    by apply Heq.
Qed.

Lemma scanRow_invariant i best :
  (i < length groups)%nat →
  Inv i (S i) best → Inv (S i) (S (S i)) (scanRow groups linkPairs maxSize best i).
Proof.
  intros Hi HI. unfold scanRow.
  apply (searchInvariant_weaken i (S i + (length groups - S i))).
  { intros a b [Hab _]. unfold scannedBefore. lia. }
  apply (foldl_seq_invariant (λ j b, Inv i j b)); [done|].
  intros j b Hj. apply considerPair_invariant. lia.
Qed.

Lemma findBestPair_invariant :
  Inv (length groups) (S (length groups))
    (findBestPair groups linkPairs maxSize).
Proof.
  unfold findBestPair.
  apply (foldl_seq_invariant (λ i b, Inv i (S i) b) _ _ 0 (length groups)).
  - left. split; [done|]. intros a b [Hab _]. unfold scannedBefore. lia.
  - intros i b Hi. apply scanRow_invariant. lia.
Qed.

(** The search ends on the sentinel when nothing is eligible, and on the
    spec's best pair otherwise. *)
Lemma findBestPair_spec :
  (findBestPair groups linkPairs maxSize = noBest ∧ ∀ a b, ¬ ok a b) ∨
  (∃ i j, bestPair (findBestPair groups linkPairs maxSize)
            = (Z.of_nat i, Z.of_nat j) ∧
          bestEligiblePair groups linkPairs maxSize i j).
Proof.
  destruct findBestPair_invariant as [[-> Hnone]|(p & q & -> & Hpq & _ & Hall)].
  - left. split; [done|]. intros a b Hab. apply (Hnone a b Hab).
    destruct Hab as [? _]. unfold scannedBefore. lia.
  - right. exists p, q. split; [done|]. split; [done|].
    intros a b Hab. apply Hall; [done|].
    destruct Hab as [? _]. unfold scannedBefore. lia.
Qed.

Lemma mergeIteration_spec :
  match mergeIteration groups linkPairs maxSize with
  | None => ∀ i j, ¬ ok i j
  | Some groups' =>
      ∃ i j, bestEligiblePair groups linkPairs maxSize i j ∧
             groups' = mergePair groups i j
  end.
Proof.
  unfold mergeIteration.
  destruct findBestPair_spec as [[-> Hnone]|(i & j & Hbest & Hij)].
  - done.
  - rewrite Hbest. simpl. case_decide; [lia|].
    exists i, j. by rewrite !Nat2Z.id.
Qed.
End Search.

(** ** The two splices *)

Section MergePair.
Variable groups : list (list string).
Variables i j : nat.
Hypothesis Hij : (i < j < length groups)%nat.

Lemma delete_pair : delete i (delete j groups) = withoutPair groups i j.
Proof.
  unfold withoutPair.
  rewrite (delete_take_drop groups j).
  rewrite (delete_take_drop (take j groups ++ _) i).
  rewrite take_app_le by (rewrite length_take; lia).
  rewrite take_take. replace (i `min` j)%nat with i by lia.
  by rewrite drop_app_le by (rewrite length_take; lia).
Qed.

Lemma mergePair_withoutPair :
  mergePair groups i j
  = withoutPair groups i j ++ [groupAt groups i ++ groupAt groups j].
Proof. unfold mergePair. by rewrite delete_pair. Qed.

Lemma groupAt_lookup k : (k < length groups)%nat →
  groups !! k = Some (groupAt groups k).
Proof.
  intros Hk. unfold groupAt.
  destruct (lookup_lt_is_Some_2 groups k Hk) as [g ->]. done.
Qed.

Lemma mergePair_length : S (length (mergePair groups i j)) = length groups.
Proof.
  assert (is_Some (groups !! j)) as Hj by (apply lookup_lt_is_Some_2; lia).
  assert (is_Some (delete j groups !! i)) as Hi.
  { apply lookup_lt_is_Some_2. rewrite length_delete by done. lia. }
  unfold mergePair. cbv zeta.
  rewrite length_app, !length_delete by done. simpl. lia.
Qed.

Lemma groups_split :
  groups ≡ₚ groupAt groups i :: groupAt groups j :: delete i (delete j groups).
Proof.
  rewrite (delete_Permutation groups j (groupAt groups j)) at 1
    by (apply groupAt_lookup; lia).
  rewrite (delete_Permutation (delete j groups) i (groupAt groups i)) at 1.
  - apply perm_swap.
  - rewrite list_lookup_delete_lt by lia. apply groupAt_lookup. lia.
Qed.

Lemma mergePair_concat : concat (mergePair groups i j) ≡ₚ concat groups.
Proof.
  unfold mergePair. cbv zeta.
  trans (concat (groupAt groups i :: groupAt groups j
                   :: delete i (delete j groups))).
  - simpl. rewrite concat_app. simpl. rewrite app_nil_r.
    etrans; [apply Permutation_app_comm|]. by rewrite <- app_assoc.
  - by rewrite <- groups_split.
Qed.

Lemma elem_of_mergePair g :
  g ∈ mergePair groups i j →
  g ∈ groups ∨ g = groupAt groups i ++ groupAt groups j.
Proof.
  unfold mergePair. cbv zeta. rewrite elem_of_app, list_elem_of_singleton.
  intros [Hg|Hg]; [left|by right].
  rewrite groups_split. set_solver.
Qed.
End MergePair.

Lemma bestEligiblePair_unique groups linkPairs maxSize i j i' j' :
  bestEligiblePair groups linkPairs maxSize i j →
  bestEligiblePair groups linkPairs maxSize i' j' →
  i' = i ∧ j' = j.
Proof.
  intros [Hok Hbest] [Hok' Hbest'].
  destruct (Hbest i' j' Hok') as [Hle Htie].
  destruct (Hbest' i j Hok) as [Hle' Htie'].
  assert (pairScore groups linkPairs i' j' = pairScore groups linkPairs i j)
    as Heq by lia.
  specialize (Htie Heq). symmetry in Heq. specialize (Htie' Heq).
  unfold rowMajorLe in *. simpl in *. lia.
Qed.

(** The loop answers within [|groups| + 1] rounds; what it answers is no
    longer than its input, holds the same identifiers, and each of its
    groups is an input group or a merge that fits [maxSize]. *)
Lemma mergeGroups_loop_spec fuel groups linkPairs maxSize targetGroupCount :
  (length groups < fuel)%nat →
  ∃ out,
    mergeGroups_loop fuel groups linkPairs maxSize targetGroupCount = Some out ∧
    (length out ≤ length groups)%nat ∧
    (∀ g, g ∈ out → g ∈ groups ∨ Z.of_nat (length g) ≤ maxSize) ∧
    concat out ≡ₚ concat groups.
Proof.
  revert groups. induction fuel as [|fuel IH]; intros groups Hfuel; [lia|].
  simpl. case_decide as Hcount; [|exists groups; repeat split; auto].
  pose proof (mergeIteration_spec groups linkPairs maxSize) as Hit.
  destruct (mergeIteration groups linkPairs maxSize) as [groups'|];
    [|exists groups; repeat split; auto].
  destruct Hit as (i & j & [[Hij Hsize] _] & ->).
  pose proof (mergePair_length groups i j Hij) as Hlen.
  destruct (IH (mergePair groups i j)) as (out & Hout & Hle & Hin & Hperm);
    [lia|].
  exists out. split; [done|]. split; [lia|]. split.
  - intros g Hg. destruct (Hin g Hg) as [Hg'|]; [|by right].
    apply (elem_of_mergePair groups i j Hij) in Hg' as [?| ->]; [by left|].
    right. rewrite length_app. lia.
  - by rewrite Hperm, mergePair_concat.
Qed.

Lemma mergeGroups_spec groups linkPairs maxSize targetGroupCount :
  ∃ out,
    mergeGroups groups linkPairs maxSize targetGroupCount = Some out ∧
    (length out ≤ length groups)%nat ∧
    (∀ g, g ∈ out → g ∈ groups ∨ Z.of_nat (length g) ≤ maxSize) ∧
    concat out ≡ₚ concat groups.
Proof.
  unfold mergeGroups. case_decide.
  - exists groups. repeat split; auto.
  - apply mergeGroups_loop_spec. lia.
Qed.

(** C3. [mergeGroups] answers a list that is no longer than its input,
    and it produces no group above [maxSize]: every group of the answer is
    either one of the input groups, left as it was, or a merged group of
    size at most [maxSize]; so when the input groups fit [maxSize], all
    groups of the answer do. *)
Theorem mergeGroups_monotone (groups : list (list string))
    (linkPairs : list NameLink) (maxSize targetGroupCount : Z) :
  ∃ out,
    mergeGroups groups linkPairs maxSize targetGroupCount = Some out ∧
    (length out ≤ length groups)%nat ∧
    (∀ g, g ∈ out → g ∈ groups ∨ Z.of_nat (length g) ≤ maxSize) ∧
    ((∀ g, g ∈ groups → Z.of_nat (length g) ≤ maxSize) →
     ∀ g, g ∈ out → Z.of_nat (length g) ≤ maxSize).
Proof.
  destruct (mergeGroups_spec groups linkPairs maxSize targetGroupCount)
    as (out & Hrun & Hlen & Hin & _).
  exists out. split; [done|]. split; [done|]. split; [done|].
  intros Hfit g Hg. destruct (Hin g Hg) as [Hold|Hnew]; [by apply Hfit|done].
Qed.

(** C5. A round of the [while] loop of [mergeGroups] runs while the group
    count exceeds the target, and in it: if no index pair [i < j] has a
    combined size within [maxSize] the loop stops; otherwise the pair
    chosen is the eligible pair of highest inter-group link count, the
    first in row-major order among those of that count, it is the only
    such pair, and the new list is the old one without the two groups,
    followed by the first group's members and then the second's. *)
Theorem mergeIteration_selects_best (groups : list (list string))
    (linkPairs : list NameLink) (maxSize : Z) :
  (∀ fuel targetGroupCount,
      mergeGroups_loop (S fuel) groups linkPairs maxSize targetGroupCount =
      if decide (Z.of_nat (length groups) > targetGroupCount) then
        match mergeIteration groups linkPairs maxSize with
        | None => Some groups
        | Some groups' =>
            mergeGroups_loop fuel groups' linkPairs maxSize targetGroupCount
        end
      else Some groups) ∧
  match mergeIteration groups linkPairs maxSize with
  | None => ∀ i j, ¬ eligible groups maxSize i j
  | Some groups' =>
      ∃ i j,
        bestEligiblePair groups linkPairs maxSize i j ∧
        (∀ i' j', bestEligiblePair groups linkPairs maxSize i' j' →
                  i' = i ∧ j' = j) ∧
        groups' =
          withoutPair groups i j ++ [groupAt groups i ++ groupAt groups j]
  end.
Proof.
  split; [done|].
  pose proof (mergeIteration_spec groups linkPairs maxSize) as Hit.
  destruct (mergeIteration groups linkPairs maxSize) as [groups'|]; [|done].
  destruct Hit as (i & j & Hbest & ->).
  exists i, j. split; [done|]. split.
  - intros i' j' Hbest'. by apply (bestEligiblePair_unique groups linkPairs maxSize).
  - apply mergePair_withoutPair. by destruct Hbest as [[? _] _].
Qed.

(** * Group builder *)

Lemma delete_head x (s : list string) :
  NoDup (x :: s) → StrSet.delete (x :: s) x = s.
Proof.
  intros [Hx Hs]%NoDup_cons. unfold StrSet.delete.
  rewrite filter_cons. case_decide; [done|].
  clear Hs. induction s as [|y s IH]; [done|].
  rewrite filter_cons. apply not_elem_of_cons in Hx as [Hxy Hx].
  case_decide; [|congruence]. f_equal. by apply IH.
Qed.

Lemma delete_Permutation_set (s : list string) x :
  NoDup s → x ∈ s → s ≡ₚ x :: StrSet.delete s x.
Proof.
  induction s as [|y s IH]; intros Hnd Hx; [by apply elem_of_nil in Hx|].
  destruct (decide (y = x)) as [->|Hne].
  - by rewrite delete_head.
  - apply NoDup_cons in Hnd as [_ Hnd].
    apply elem_of_cons in Hx as [->|Hx]; [done|].
    unfold StrSet.delete in *. rewrite filter_cons.
    case_decide; [|done]. rewrite (IH Hnd Hx) at 1. apply perm_swap.
Qed.

Lemma delete_length (s : list string) x :
  NoDup s → x ∈ s → length s = S (length (StrSet.delete s x)).
Proof.
  intros Hnd Hx. by rewrite (delete_Permutation_set s x Hnd Hx) at 1.
Qed.

(** ** Padding *)

Lemma padToMinSize_spec fuel minSize cg U :
  NoDup U → (length U < fuel)%nat →
  ∃ cg' U',
    padToMinSize fuel minSize cg U = Some (cg', U') ∧
    cg' ++ U' ≡ₚ cg ++ U ∧ NoDup U' ∧ (length U' ≤ length U)%nat ∧
    Z.of_nat (length cg') ≤ Z.max (Z.of_nat (length cg)) minSize ∧
    (U = [] → cg' = cg ∧ U' = []).
Proof.
  revert cg U. induction fuel as [|fuel IH]; intros cg U Hnd Hfuel; [lia|].
  simpl. case_decide as Hsmall.
  - destruct U as [|x U].
    + exists cg, []. repeat split; auto. lia.
    + rewrite delete_head by done.
      apply NoDup_cons in Hnd as [Hx Hnd].
      destruct (IH (cg ++ [x]) U Hnd) as (cg' & U' & -> & Hp & ? & ? & Hsz & _);
        [simpl in Hfuel; lia|].
      exists cg', U'. repeat split; auto.
      * rewrite Hp, <- app_assoc. done.
      * simpl. lia.
      * rewrite length_app in Hsz. simpl in Hsz. lia.
      * done.
      * done.
  - exists cg, U. repeat split; auto. lia.
Qed.

Lemma pad_spec minSize cg U :
  NoDup U →
  ∃ cg' U',
    pad minSize cg U = Some (cg', U') ∧
    cg' ++ U' ≡ₚ cg ++ U ∧ NoDup U' ∧ (length U' ≤ length U)%nat ∧
    Z.of_nat (length cg') ≤ Z.max (Z.of_nat (length cg)) minSize ∧
    (U = [] → cg' = cg ∧ U' = []).
Proof. intros Hnd. unfold pad. apply padToMinSize_spec; [done|lia]. Qed.

(** ** Candidates connected to the group in progress *)

Lemma keepUnassigned_subset (U s connected : list string) :
  s ⊆ U →
  foldl (λ s c, if StrSet.has U c then StrSet.add s c else s) s connected ⊆ U.
Proof.
  revert s. induction connected as [|c connected IH]; intros s Hs; simpl; [done|].
  apply IH. destruct (StrSet.has U c) eqn:E; [|done].
  apply has_true in E. intros x Hx. apply elem_of_add in Hx as [Hx| ->]; auto.
Qed.

Lemma collectConnected_from linkPairs (U cg s : list string) :
  s ⊆ U →
  ∃ c,
    foldl (λ acc name,
             connectedToGroup ← acc;
             connected ← findConnectedNames name linkPairs;
             Some (foldl (λ s c, if StrSet.has U c then StrSet.add s c else s)
                         connectedToGroup connected))
          (Some s) cg = Some c ∧ c ⊆ U.
Proof.
  revert s. induction cg as [|name cg IH]; intros s Hs; simpl; [by exists s|].
  destruct (findConnectedNames_total linkPairs name) as [connected ->]. simpl.
  apply IH. by apply keepUnassigned_subset.
Qed.

Lemma collectConnected_spec linkPairs (U cg : list string) :
  ∃ c, collectConnected linkPairs U cg = Some c ∧ c ⊆ U.
Proof. apply collectConnected_from. set_solver. Qed.

(** ** The main loop *)

Lemma createConnectedGroups_loop_spec all linkPairs minSize maxSize fuel
    U groups cg :
  builderInvariant all minSize maxSize U groups cg →
  (2 * length U + Nat.min 1 (length cg) < fuel)%nat →
  ∃ groups' cg',
    createConnectedGroups_loop fuel linkPairs minSize maxSize U groups cg
      = Some ([], groups', cg') ∧
    builderInvariant all minSize maxSize [] groups' cg'.
Proof.
  revert U groups cg.
  induction fuel as [|fuel IH]; intros U groups cg (Hnd & Hperm & Hfit) Hfuel;
    [lia|].
  simpl. destruct U as [|firstUnassigned U0].
  { exists groups, cg. by split. }
  assert (∃ cg1 U1,
             (if decide (length cg = 0%nat)
              then (cg ++ [firstUnassigned],
                    StrSet.delete (firstUnassigned :: U0) firstUnassigned)
              else (cg, firstUnassigned :: U0)) = (cg1, U1) ∧
             builderInvariant all minSize maxSize U1 groups cg1 ∧
             (2 * length U1 + 1 ≤ fuel)%nat) as (cg1 & U1 & -> & HI & Hfuel1).
  { case_decide as Hcg.
    - destruct cg; [|done]. rewrite delete_head by done.
      exists [firstUnassigned], U0. split; [done|].
      simpl in Hfuel. split; [|lia].
      apply NoDup_cons in Hnd as [_ Hnd]. split; [done|]. split; [done|].
      intros Hsz. split; [by apply Hfit|]. unfold fits. simpl. lia.
    - exists cg, (firstUnassigned :: U0). split; [done|]. split; [done|].
      destruct cg; [done|]. simpl in *. lia. }
  destruct HI as (Hnd1 & Hperm1 & Hfit1).
  destruct (collectConnected_spec linkPairs U1 cg1) as (c & -> & Hc). simpl.
  assert (∃ groups' cg',
             pad minSize cg1 U1
             ≫= (λ '(currentGroup, unassignedNames),
                   createConnectedGroups_loop fuel linkPairs minSize maxSize
                     unassignedNames (groups ++ [currentGroup]) [])
             = Some ([], groups', cg') ∧
             builderInvariant all minSize maxSize [] groups' cg') as Hstart.
  { destruct (pad_spec minSize cg1 U1 Hnd1)
      as (cg2 & U2 & -> & Hp & Hnd2 & Hlen & Hsz & _).
    simpl. apply IH; [|simpl; lia].
    split; [done|]. split.
    - rewrite concat_app. simpl. rewrite !app_nil_r, <- app_assoc.
      by rewrite Hp.
    - intros Hvalid. destruct (Hfit1 Hvalid) as [Hgs Hcg1]. split.
      + apply Forall_app. split; [done|]. apply Forall_singleton.
        unfold fits in *. lia.
      + unfold fits. simpl. lia. }
  destruct c as [|nextName c]; [exact Hstart|].
  case_decide as Hfull; [exact Hstart|].
  assert (nextName ∈ U1) as Hnext by set_solver.
  pose proof (delete_length U1 nextName Hnd1 Hnext) as Hlen.
  apply IH.
  - split; [by apply NoDup_delete|]. split.
    + trans (concat groups ++ cg1 ++ U1); [|done].
      rewrite <- app_assoc. do 2 apply Permutation_app_head. simpl.
      symmetry. by apply delete_Permutation_set.
    + intros Hvalid. destruct (Hfit1 Hvalid) as [Hgs Hcg1]. split; [done|].
      unfold fits in *. rewrite length_app. simpl. lia.
  - rewrite length_app. change (length [nextName]) with 1%nat. lia.
Qed.

Lemma of_list_from_length (l s : list string) :
  (length (foldl StrSet.add s l) ≤ length s + length l)%nat.
Proof.
  revert s. induction l as [|x l IH]; intros s; simpl; [lia|].
  etrans; [apply IH|]. unfold StrSet.add.
  destruct (StrSet.has s x); [lia|]. rewrite length_app. simpl. lia.
Qed.

Lemma of_list_length (l : list string) :
  (length (StrSet.of_list l) ≤ length l)%nat.
Proof. apply (of_list_from_length l []). Qed.

(** The builder always answers; its groups hold the identifiers of the
    unique-name set once each, and fit [maxSize] under valid sizes. *)
Lemma createConnectedGroups_spec uniqueNames peopleMap linkPairs
    minSize maxSize :
  ∃ groups,
    createConnectedGroups uniqueNames peopleMap linkPairs minSize maxSize
      = Some groups ∧
    concat groups ≡ₚ StrSet.of_list uniqueNames ∧
    (1 ≤ minSize ≤ maxSize → Forall (fits maxSize) groups).
Proof.
  unfold createConnectedGroups.
  destruct (createConnectedGroups_loop_spec (StrSet.of_list uniqueNames)
              linkPairs minSize maxSize (S (2 * length uniqueNames))
              (StrSet.of_list uniqueNames) [] [])
    as (groups & cg & -> & _ & Hperm & Hfit).
  { split; [apply NoDup_of_list|]. split; [done|].
    intros ?. split; [constructor|]. unfold fits. simpl. lia. }
  { pose proof (of_list_length uniqueNames). simpl. lia. }
  simpl. rewrite !app_nil_r in Hperm. case_decide as Hcg.
  - destruct (pad_spec minSize cg [] (NoDup_nil_2 (A:=string)))
      as (cg' & U' & -> & _ & _ & _ & _ & Hsame).
    destruct Hsame as [-> _]; [done|]. simpl.
    exists (groups ++ [cg]). split; [done|]. split.
    + rewrite concat_app. simpl. by rewrite app_nil_r.
    + intros Hvalid. destruct (Hfit Hvalid).
      apply Forall_app. split; [done|]. by apply Forall_singleton.
  - destruct cg; [|simpl in Hcg; lia].
    exists groups. rewrite app_nil_r in Hperm. split; [done|]. split; [done|].
    intros Hvalid. by destruct (Hfit Hvalid).
Qed.

(** C9. Under [1 <= minSize <= maxSize] the builder answers, and every
    group of its answer (before any merging) has at most [maxSize]
    members. *)
Theorem createConnectedGroups_within_maxSize (uniqueNames : list string)
    (peopleMap : gmap string Person) (linkPairs : list NameLink)
    (minSize maxSize : Z) :
  1 ≤ minSize ≤ maxSize →
  ∃ groups,
    createConnectedGroups uniqueNames peopleMap linkPairs minSize maxSize
      = Some groups ∧
    ∀ g, g ∈ groups → Z.of_nat (length g) ≤ maxSize.
Proof.
  intros Hvalid.
  destruct (createConnectedGroups_spec uniqueNames peopleMap linkPairs
              minSize maxSize) as (groups & Hrun & _ & Hfit).
  exists groups. split; [done|]. intros g Hg.
  specialize (Hfit Hvalid). rewrite Forall_forall in Hfit. by apply Hfit.
Qed.

Lemma createConnectedGroups_within_maxSize_witness :
  1 ≤ 2 ≤ 2 ∧
  ∃ groups,
    createConnectedGroups ["A"; "B"; "C"; "D"]%string ∅
      [mkLink "A" "B"; mkLink "C" "D"] 2 2 = Some groups ∧
    ∀ g, g ∈ groups → Z.of_nat (length g) ≤ 2.
Proof.
  split; [lia|].
  apply (createConnectedGroups_within_maxSize
           ["A"; "B"; "C"; "D"]%string ∅ [mkLink "A" "B"; mkLink "C" "D"] 2 2).
  lia.
Defined.

(** ** The whole grouping phase *)

Lemma elem_of_concat (ls : list (list string)) x :
  x ∈ concat ls ↔ ∃ l, x ∈ l ∧ l ∈ ls.
Proof.
  induction ls as [|h ls IH]; simpl.
  - split; [by intros ?%elem_of_nil|]. by intros (l & _ & ?%elem_of_nil).
  - rewrite elem_of_app, IH. split.
    + intros [?|(l & ? & ?)]; [exists h|exists l]; set_solver.
    + intros (l & ? & [->|?]%elem_of_cons); [by left|right; by exists l].
Qed.

Lemma NoDup_concat_unique (groups : list (list string)) i i' g g' x :
  NoDup (concat groups) →
  groups !! i = Some g → groups !! i' = Some g' → x ∈ g → x ∈ g' → i' = i.
Proof.
  revert i i'. induction groups as [|h groups IH]; intros i i' Hnd Hi Hi' Hx Hx';
    [done|].
  simpl in Hnd. apply NoDup_app in Hnd as (_ & Hdisj & Hnd).
  assert (∀ k gk, groups !! k = Some gk → x ∈ gk → x ∈ concat groups) as Hin.
  { intros k gk Hk Hgk. apply elem_of_concat. exists gk. split; [done|].
    by apply list_elem_of_lookup_2 in Hk. }
  destruct i as [|i], i' as [|i']; simpl in *; simplify_eq.
  - done.
  - destruct (Hdisj x Hx). by apply (Hin i' g').
  - destruct (Hdisj x Hx'). by apply (Hin i g).
  - f_equal. by apply IH.
Qed.

(** The grouping phase as a whole. *)
Lemma grouping_spec (uniqueNames : list string)
    (peopleMap : gmap string Person) (linkPairs : list NameLink)
    (minSize maxSize targetGroupCount : Z) :
  ∃ groups final,
    createConnectedGroups uniqueNames peopleMap linkPairs minSize maxSize
      = Some groups ∧
    mergeGroups groups linkPairs maxSize targetGroupCount = Some final ∧
    grouping peopleMap uniqueNames linkPairs minSize maxSize targetGroupCount
      = Returned final ∧
    concat final ≡ₚ StrSet.of_list uniqueNames ∧
    NoDup (concat final) ∧
    (∀ x, x ∈ concat final ↔ x ∈ uniqueNames) ∧
    (∀ x, x ∈ uniqueNames →
       ∃ i g, final !! i = Some g ∧ x ∈ g ∧
              ∀ i' g', final !! i' = Some g' → x ∈ g' → i' = i).
Proof.
  destruct (createConnectedGroups_spec uniqueNames peopleMap linkPairs
              minSize maxSize) as (groups & Hrun & Hperm & _).
  destruct (mergeGroups_spec groups linkPairs maxSize targetGroupCount)
    as (final & Hmerge & _ & _ & Hperm').
  assert (concat final ≡ₚ StrSet.of_list uniqueNames) as Hall
    by (by rewrite Hperm').
  assert (NoDup (concat final)) as Hnd
    by (rewrite Hall; apply NoDup_of_list).
  assert (∀ x, x ∈ concat final ↔ x ∈ uniqueNames) as Hmem
    by (intros x; by rewrite Hall, elem_of_of_list).
  exists groups, final. split; [done|]. split; [done|]. split.
  { unfold grouping. by rewrite Hrun, Hmerge. }
  split; [done|]. split; [done|]. split; [done|].
  intros x Hx. apply Hmem in Hx.
  apply elem_of_concat in Hx as (g & Hxg & Hg).
  apply list_elem_of_lookup_1 in Hg as [i Hi].
  exists i, g. split; [done|]. split; [done|].
  intros i' g' Hi' Hx'. by apply (NoDup_concat_unique final i i' g g' x).
Qed.

(** C1. The builder followed by the merger always answers, and the final
    groups partition the unique entity set: their concatenation is a
    rearrangement of it without repetition, so that every unique
    identifier is a member of exactly one group. (No assumption on the
    sizes or on the links is needed.) *)
Theorem grouping_partitions (uniqueNames : list string)
    (peopleMap : gmap string Person) (linkPairs : list NameLink)
    (minSize maxSize targetGroupCount : Z) :
  ∃ groups final,
    createConnectedGroups uniqueNames peopleMap linkPairs minSize maxSize
      = Some groups ∧
    mergeGroups groups linkPairs maxSize targetGroupCount = Some final ∧
    grouping peopleMap uniqueNames linkPairs minSize maxSize targetGroupCount
      = Returned final ∧
    concat final ≡ₚ StrSet.of_list uniqueNames ∧
    NoDup (concat final) ∧
    (∀ x, x ∈ concat final ↔ x ∈ uniqueNames) ∧
    (∀ x, x ∈ uniqueNames →
       ∃ i g, final !! i = Some g ∧ x ∈ g ∧
              ∀ i' g', final !! i' = Some g' → x ∈ g' → i' = i).
Proof.
  apply grouping_spec.
Qed.

(** * Analytics *)

Lemma groupedNodes_from (nodes : list Node) (acc : gmap nat (list Node))
    (groupId : nat) :
  default [] (foldl (λ acc node,
                       let acc :=
                         match acc !! group node with
                         | None => <[group node := []]> acc
                         | Some _ => acc
                         end in
                       <[group node := default [] (acc !! group node) ++ [node]]>
                         acc) acc nodes !! groupId)
  = default [] (acc !! groupId) ++ filter (λ node, group node = groupId) nodes.
Proof.
  revert acc. induction nodes as [|node nodes IH]; intros acc; simpl.
  - by rewrite app_nil_r.
  - rewrite IH. rewrite filter_cons.
    destruct (decide (group node = groupId)) as [<-|Hne].
    + rewrite lookup_insert_eq. simpl.
      destruct (acc !! group node) eqn:E; simpl.
      * rewrite E. simpl. by rewrite <- app_assoc.
      * rewrite lookup_insert_eq. simpl. done.
    + rewrite lookup_insert_ne by done.
      destruct (acc !! group node) eqn:E; simpl; [done|].
      by rewrite lookup_insert_ne.
Qed.

(** The bucket of a group holds its nodes, in node order. *)
Lemma groupNodesOf_filter nodes groupId :
  groupNodesOf nodes groupId = filter (λ node, group node = groupId) nodes.
Proof.
  unfold groupNodesOf, groupedNodes. rewrite groupedNodes_from.
  by rewrite lookup_empty.
Qed.

Lemma getConnectionsInGroup_intra nodes connections groupId :
  getConnectionsInGroup nodes connections groupId
  = intraGroupLinks nodes connections groupId.
Proof.
  unfold getConnectionsInGroup, intraGroupLinks, members.
  rewrite groupNodesOf_filter. apply list_filter_iff. intros link.
  rewrite andb_True, !Is_true_true, !has_true, !elem_of_of_list. done.
Qed.

Lemma touches_count name (links : list NameLink) :
  (length (filter (touches name) links) + selfLinks name links
   = endpointOccurrences name links)%nat.
Proof.
  unfold selfLinks, endpointOccurrences, touches.
  induction links as [|link links IH]; [done|].
  rewrite !filter_cons.
  destruct (decide (source link = name)), (decide (target link = name));
    repeat case_decide; simpl; try tauto; lia.
Qed.

(** C2 (as amended). The per-entity degree within a group is the number
    of intra-group link occurrences touching the entity, a self-link
    counting once: the degree plus the entity's intra-group self-links is
    the number of intra-group link endpoints equal to the entity. *)
Theorem degree_counts_each_link_once (nodes : list Node)
    (connections : list NameLink) (groupId : nat) (name : string) :
  let groupConnections := getConnectionsInGroup nodes connections groupId in
  let intra := intraGroupLinks nodes connections groupId in
  groupConnections = intra ∧
  getConnectionsForName name groupConnections
    = length (filter (touches name) intra) ∧
  (getConnectionsForName name groupConnections + selfLinks name intra
   = endpointOccurrences name intra)%nat.
Proof.
  simpl. rewrite getConnectionsInGroup_intra. split; [done|].
  split; [done|]. apply touches_count.
Qed.

(** C2, the claim as stated fails: on the one entity [A] with the
    self-link [A,A] (a run of [processInput] on those texts), the reported
    degree is 1 while the endpoint count is 2. *)
Lemma degree_self_link_counterexample :
  tryBlock "A,F" "A,A" 1 1 1
    = Returned ([mkNode "A" "F" 0], [mkLink "A" "A"]) ∧
  getConnectionsForName "A"
    (getConnectionsInGroup [mkNode "A" "F" 0] [mkLink "A" "A"] 0) = 1%nat ∧
  endpointOccurrences "A"
    (intraGroupLinks [mkNode "A" "F" 0] [mkLink "A" "A"] 0) = 2%nat.
Proof. by vm_compute. Qed.

(** C10. An entity with a self-link among the links is never reported in
    the isolated set of a group. *)
Theorem self_linked_never_isolated (nodes : list Node)
    (connections : list NameLink) (groupId : nat) (node : Node) :
  {| source := id node; target := id node |} ∈ connections →
  node ∉ getIsolatedMembers nodes connections groupId.
Proof.
  intros Hself Hiso. unfold getIsolatedMembers in Hiso.
  apply list_elem_of_filter in Hiso as [Hzero Hnode].
  assert (id node ∈ StrSet.of_list (id <$> groupNodesOf nodes groupId)) as Hid.
  { apply elem_of_of_list. by apply list_elem_of_fmap_2. }
  assert ({| source := id node; target := id node |}
            ∈ getConnectionsInGroup nodes connections groupId) as Hin.
  { unfold getConnectionsInGroup. apply list_elem_of_filter. split; [|done].
    simpl. apply andb_True. split; apply Is_true_true; by apply has_true. }
  unfold getConnectionsForName in Hzero.
  apply length_zero_iff_nil in Hzero.
  assert ({| source := id node; target := id node |}
            ∈ filter (λ conn, source conn = id node ∨ target conn = id node)
                (getConnectionsInGroup nodes connections groupId)) as Hin'.
  { apply list_elem_of_filter. split; [by left|done]. }
  rewrite Hzero in Hin'. by apply elem_of_nil in Hin'.
Qed.

Lemma self_linked_never_isolated_witness :
  {| source := "A"; target := "A" |} ∈ [mkLink "A" "B"; mkLink "A" "A"] ∧
  mkNode "A" "F" 0 ∉
    getIsolatedMembers [mkNode "A" "F" 0; mkNode "B" "M" 1]
      [mkLink "A" "B"; mkLink "A" "A"] 0.
Proof.
  split; [apply list_elem_of_further, list_elem_of_here|].
  apply (self_linked_never_isolated
           [mkNode "A" "F" 0; mkNode "B" "M" 1]
           [mkLink "A" "B"; mkLink "A" "A"] 0 (mkNode "A" "F" 0)).
  apply list_elem_of_further, list_elem_of_here.
Defined.

(** * Validation *)

Lemma readPerson_inr line person :
  readPerson line = inr person →
  person = {| name := lineName line; gender := toUpperCase (lineGender line) |}.
Proof.
  unfold readPerson, lineName, lineGender.
  case_decide; [done|]. destruct (negb _); [done|]. by intros [= <-].
Qed.

Lemma lastLineOf_cons n line lines :
  lastLineOf n (line :: lines) =
  match lastLineOf n lines with
  | Some l => Some l
  | None => if decide (lineName line = n) then Some line else None
  end.
Proof.
  unfold lastLineOf. rewrite filter_cons.
  case_decide; [by rewrite last_cons|]. by destruct (last _).
Qed.

Lemma readPeople_spec lines (peopleMap0 peopleMap : gmap string Person) nameList :
  readPeople lines peopleMap0 = inr (peopleMap, nameList) →
  nameList = lineName <$> lines ∧
  ∀ n, peopleMap !! n =
       match lastLineOf n lines with
       | Some line =>
           Some {| name := n; gender := toUpperCase (lineGender line) |}
       | None => peopleMap0 !! n
       end.
Proof.
  revert peopleMap0 nameList.
  induction lines as [|line lines IH]; intros peopleMap0 nameList; simpl.
  - by intros [= <- <-].
  - destruct (readPerson line) as [e|person] eqn:Hp; [done|]. simpl.
    apply readPerson_inr in Hp as ->. simpl.
    destruct (readPeople lines _) as [e|[m l]] eqn:Hrest; [done|]. simpl.
    intros [= <- <-]. apply IH in Hrest as [-> Hm]. split; [done|].
    intros n. rewrite Hm, lastLineOf_cons.
    destruct (lastLineOf n lines); [done|].
    case_decide as Hn.
    + rewrite Hn. by rewrite lookup_insert_eq.
    + by rewrite lookup_insert_ne.
Qed.

Lemma lastLineOf_is_Some n lines :
  n ∈ lineName <$> lines → is_Some (lastLineOf n lines).
Proof.
  induction lines as [|line lines IH]; [by intros ?%elem_of_nil|].
  rewrite fmap_cons, elem_of_cons, lastLineOf_cons. intros [->|Hn].
  - destruct (lastLineOf _ lines); [by eexists|].
    case_decide; [by eexists|done].
  - destruct (IH Hn) as [l ->]. by eexists.
Qed.

Lemma of_list_from_firstSeen (l s : list string) :
  foldl StrSet.add s l = s ++ filter (λ y, y ∉ s) (firstSeen l).
Proof.
  revert s. induction l as [|x l IH]; intros s; simpl.
  - by rewrite app_nil_r.
  - rewrite IH, filter_cons. unfold StrSet.add.
    destruct (StrSet.has s x) eqn:E.
    + apply has_true in E. case_decide; [done|]. f_equal.
      rewrite list_filter_filter. apply list_filter_iff. intros y.
      naive_solver.
    + apply has_false in E. case_decide; [|done].
      rewrite <- app_assoc. simpl. do 2 f_equal.
      rewrite list_filter_filter. apply list_filter_iff. intros y.
      rewrite not_elem_of_app, list_elem_of_singleton. naive_solver.
Qed.

(** [new Set(list)] keeps the first occurrence of every identifier. *)
Lemma of_list_firstSeen (l : list string) : StrSet.of_list l = firstSeen l.
Proof.
  unfold StrSet.of_list. rewrite of_list_from_firstSeen. simpl.
  induction (firstSeen l) as [|y k IH]; [done|].
  rewrite filter_cons. case_decide as Hy; [by f_equal|].
  by apply elem_of_nil in Hy.
Qed.

(** The set built from an initial segment of a list is an initial segment
    of the set built from the whole list. *)
Lemma of_list_prefix (p s : list string) :
  StrSet.of_list p `prefix_of` StrSet.of_list (p ++ s).
Proof.
  unfold StrSet.of_list. rewrite foldl_app.
  rewrite (of_list_from_firstSeen s (foldl StrSet.add [] p)).
  by apply prefix_app_r.
Qed.

(** ** The link lines *)

Lemma readLink_inr U line link :
  readLink U line = inr link → linkSource line ∈ U ∧ linkTarget line ∈ U.
Proof.
  unfold readLink, linkSource, linkTarget. case_decide; [done|].
  destruct (includes U _) eqn:E1; simpl; [|done].
  destruct (includes U (default _ (_ !! 1%nat))) eqn:E2; simpl; [|done].
  intros _. by rewrite <- !includes_true.
Qed.

Lemma readLink_inl U line e :
  readLink U line = inl e → wellFormedLink line →
  e = LinkNameNotInList (linkSource line) (linkTarget line) ∧
  (linkSource line ∉ U ∨ linkTarget line ∉ U).
Proof.
  unfold readLink, wellFormedLink, linkSource, linkTarget.
  case_decide; [tauto|].
  destruct (includes U _) eqn:E1; simpl.
  - destruct (includes U (default _ (_ !! 1%nat))) eqn:E2; simpl; [done|].
    intros [= <-] _. split; [done|]. right.
    by rewrite <- includes_true, E2.
  - intros [= <-] _. split; [done|]. left. by rewrite <- includes_true, E1.
Qed.

Lemma mapM_readLink_unknown U lines :
  (∃ line, line ∈ lines ∧ (linkSource line ∉ U ∨ linkTarget line ∉ U)) →
  ∃ e, mapM (readLink U) lines = inl e.
Proof.
  induction lines as [|line lines IH]; intros (bad & Hbad & Hunk).
  - by apply elem_of_nil in Hbad.
  - simpl. destruct (readLink U line) as [e|link] eqn:Hl; simpl; [by exists e|].
    apply readLink_inr in Hl. apply elem_of_cons in Hbad as [->|Hbad]; [tauto|].
    destruct IH as [e ->]; [by exists bad|]. by exists e.
Qed.

Lemma mapM_readLink_error U lines e :
  Forall wellFormedLink lines → mapM (readLink U) lines = inl e →
  ∃ s t, e = LinkNameNotInList s t ∧ (s ∉ U ∨ t ∉ U).
Proof.
  induction 1 as [|line lines Hwf _ IH]; simpl; [done|].
  destruct (readLink U line) as [e'|link] eqn:Hl; simpl.
  - intros [= ->]. destruct (readLink_inl U line e Hl Hwf) as [-> ?]. eauto.
  - destruct (mapM (readLink U) lines) as [e'|k]; simpl; [|done].
    intros [= ->]. by apply IH.
Qed.

(** ** The [try] block *)

Lemma validateInput_unknown names links minGroupSize maxGroupSize maxGroups :
  referencesUnknown names links →
  ∃ e,
    validateInput names links minGroupSize maxGroupSize maxGroups = inl e ∧
    (validBeforeLinks names minGroupSize maxGroupSize maxGroups →
     Forall wellFormedLink (nonBlankLines links) →
     ∃ s t, e = LinkNameNotInList s t ∧
            (s ∉ entityIds names ∨ t ∉ entityIds names)).
Proof.
  intros Hunk. unfold validateInput.
  destruct (readPeople (nonBlankLines names) ∅) as [e|[m nameList]] eqn:Hr;
    simpl.
  { exists e. split; [done|]. intros [[r ?] _]. congruence. }
  apply readPeople_spec in Hr as [-> _]. fold (entityIds names).
  repeat case_decide;
    try (eexists; split; [done|]; intros (_ & ? & ? & ?); lia).
  assert (∃ line, line ∈ nonBlankLines links ∧
            (linkSource line ∉ StrSet.of_list (entityIds names) ∨
             linkTarget line ∉ StrSet.of_list (entityIds names))) as Hunk'.
  { destruct Hunk as (line & ? & ?). exists line.
    by rewrite !elem_of_of_list. }
  destruct (mapM_readLink_unknown _ _ Hunk') as [e He].
  rewrite He. simpl. exists e. split; [done|]. intros _ Hwf.
  destruct (mapM_readLink_error _ _ _ Hwf He) as (s & t & -> & Hst).
  exists s, t. by rewrite !elem_of_of_list in Hst.
Qed.

Lemma validateInput_inr names links minGroupSize maxGroupSize maxGroups
    (peopleMap : gmap string Person) uniqueNames linkPairs :
  validateInput names links minGroupSize maxGroupSize maxGroups
    = inr (peopleMap, uniqueNames, linkPairs) →
  ∀ n, n ∈ uniqueNames → is_Some (peopleMap !! n).
Proof.
  unfold validateInput.
  destruct (readPeople (nonBlankLines names) ∅) as [e|[m nameList]] eqn:Hr;
    simpl; [done|].
  repeat case_decide; try done.
  destruct (mapM _ _); simpl; [done|]. intros [= <- <- <-] n Hn.
  rewrite elem_of_of_list in Hn.
  apply readPeople_spec in Hr as [-> Hm].
  destruct (lastLineOf_is_Some n _ Hn) as [line Hline].
  rewrite Hm, Hline. by eexists.
Qed.

Lemma mapM_nodeOf_ok (peopleMap : gmap string Person) i (g : list string) :
  (∀ x, x ∈ g → is_Some (peopleMap !! x)) →
  ∃ ns, mapM (nodeOf peopleMap i) g = inr ns.
Proof.
  induction g as [|x g IH]; intros Hg; simpl; [by eexists|].
  assert (is_Some (peopleMap !! x)) as [p Hp] by set_solver.
  assert (nodeOf peopleMap i x
          = inr {| id := x; node_gender := gender p; group := i |}) as ->
    by (unfold nodeOf; by rewrite Hp).
  simpl. destruct IH as [ns ->]; [set_solver|]. simpl. by eexists.
Qed.

Lemma makeNodes_ok (peopleMap : gmap string Person) groups :
  (∀ x, x ∈ concat groups → is_Some (peopleMap !! x)) →
  ∃ nodes, makeNodes peopleMap groups = inr nodes.
Proof.
  intros Hall. unfold makeNodes.
  assert (∀ p, p ∈ imap pair groups →
               ∀ x, x ∈ p.2 → is_Some (peopleMap !! x)) as Hps.
  { intros p (i & g & -> & Hg)%elem_of_lookup_imap x Hx. apply Hall.
    apply elem_of_concat. exists g. split; [done|].
    by apply list_elem_of_lookup_2 in Hg. }
  assert (∃ k, mapM (λ p : nat * list string, mapM (nodeOf peopleMap p.1) p.2)
                 (imap pair groups) = inr k) as [k ->]; [|by eexists].
  induction (imap pair groups) as [|p ps IH]; simpl; [by eexists|].
  destruct (mapM_nodeOf_ok peopleMap p.1 p.2) as [ns ->].
  { apply Hps. set_solver. }
  simpl. destruct IH as [k ->]; [intros q Hq; apply Hps; set_solver|].
  simpl. by eexists.
Qed.

(** Once the validation passes, the run returns. *)
Lemma tryBlock_returns names links minGroupSize maxGroupSize maxGroups
    (peopleMap : gmap string Person) uniqueNames linkPairs :
  validateInput names links minGroupSize maxGroupSize maxGroups
    = inr (peopleMap, uniqueNames, linkPairs) →
  ∃ nodes,
    tryBlock names links minGroupSize maxGroupSize maxGroups
      = Returned (nodes, linkPairs).
Proof.
  intros Hv. unfold tryBlock. rewrite Hv.
  destruct (grouping_spec uniqueNames peopleMap linkPairs minGroupSize
              maxGroupSize maxGroups)
    as (groups & final & _ & _ & -> & _ & _ & Hmem & _).
  destruct (makeNodes_ok peopleMap final) as [nodes ->]; [|by eexists].
  intros x Hx. apply (validateInput_inr _ _ _ _ _ _ _ _ Hv). by apply Hmem.
Qed.


Lemma findConnectedNames_is_reachable_set_witness :
  (∀ link, link ∈ [mkLink "Alice" "Bob"] →
           source link ≠ "Zed"%string ∧ target link ≠ "Zed"%string) ∧
  findConnectedNames "Zed" [mkLink "Alice" "Bob"] = Some ["Zed"%string].
Proof.
  assert (∀ link, link ∈ [mkLink "Alice" "Bob"] →
            source link ≠ "Zed"%string ∧ target link ≠ "Zed"%string) as Hno.
  { intros link ->%list_elem_of_singleton. by split. }
  split; [exact Hno|].
  destruct (findConnectedNames_is_reachable_set "Zed" [mkLink "Alice" "Bob"])
    as (connected & -> & _ & _ & _ & Hsingle).
  f_equal. by apply Hsingle.
Defined.

(** * Scenario A *)

(** C4. Entities [Alice,F], [Bob,M], [Carol,F], the one link [Alice,Bob],
    [minSize = 2], [maxSize = 3] and a target of one group: the builder
    answers [[Alice, Bob]] and [[Carol]], the merger joins them into the
    single group [[Alice, Bob, Carol]], whose only intra-group edge is
    [Alice,Bob] and whose only isolated entity is Carol, of degree 0. *)
Theorem scenario_A :
  let names := "Alice,F
Bob,M
Carol,F"%string in
  let linkPairs := [mkLink "Alice" "Bob"] in
  let newNodes :=
    [mkNode "Alice" "F" 0; mkNode "Bob" "M" 0; mkNode "Carol" "F" 0] in
  (∀ peopleMap,
      createConnectedGroups ["Alice"; "Bob"; "Carol"]%string peopleMap
        linkPairs 2 3 = Some [["Alice"; "Bob"]; ["Carol"]]%string) ∧
  mergeGroups [["Alice"; "Bob"]; ["Carol"]]%string linkPairs 3 1
    = Some [["Alice"; "Bob"; "Carol"]]%string ∧
  tryBlock names "Alice,Bob" 2 3 1 = Returned (newNodes, linkPairs) ∧
  groupedNodes newNodes = {[ 0%nat := newNodes ]} ∧
  getConnectionsInGroup newNodes linkPairs 0 = [mkLink "Alice" "Bob"] ∧
  getIsolatedMembers newNodes linkPairs 0 = [mkNode "Carol" "F" 0] ∧
  getConnectionsForName "Carol" (getConnectionsInGroup newNodes linkPairs 0)
    = 0%nat.
Proof.
  simpl. repeat split; try intros peopleMap; vm_compute; reflexivity.
Qed.

(** * The other scenarios of the specification *)

(** Scenario B: two linked pairs, groups of exactly two. *)
Example scenario_B :
  tryBlock "A,M
B,F
C,M
D,F" "A,B
C,D" 2 2 2
  = Returned ([mkNode "A" "M" 0; mkNode "B" "F" 0;
               mkNode "C" "M" 1; mkNode "D" "F" 1],
              [mkLink "A" "B"; mkLink "C" "D"]).
Proof. vm_compute; reflexivity. Qed.

(** Scenario C: the same entities, one group of four wanted. *)
Example scenario_C :
  tryBlock "A,M
B,F
C,M
D,F" "A,B
C,D" 2 4 1
  = Returned ([mkNode "A" "M" 0; mkNode "B" "F" 0;
               mkNode "C" "M" 0; mkNode "D" "F" 0],
              [mkLink "A" "B"; mkLink "C" "D"]).
Proof. vm_compute; reflexivity. Qed.

(** Scenario D: fewer entities than [minSize]. *)
Example scenario_D :
  tryBlock "A,M
B,F" "" 3 5 1
  = Returned ([mkNode "A" "M" 0; mkNode "B" "F" 0], []).
Proof. vm_compute; reflexivity. Qed.

(** Scenario E: a link to an identifier that is not an entity. *)
Example scenario_E :
  tryBlock "Alice,F" "Alice,Zed" 1 3 1
  = Thrown (LinkNameNotInList "Alice" "Zed").
Proof. vm_compute; reflexivity. Qed.

(** The first failing check decides the error: an entity line without
    gender, or a link line without target, is reported before a later
    unknown name. *)
Example earlier_record_error_wins :
  tryBlock "Alice,F
Bob" "Alice,Zed" 1 3 1 = Thrown (InvalidGender "Bob").
Proof. vm_compute; reflexivity. Qed.

Example earlier_link_error_wins :
  tryBlock "Alice,F" "Alice
Alice,Zed" 1 3 1 = Thrown InvalidLinkFormat.
Proof. vm_compute; reflexivity. Qed.

(** * More on the connectivity closure *)

Lemma reachable_trans linkPairs a b c :
  reachable linkPairs a b → reachable linkPairs b c → reachable linkPairs a c.
Proof.
  intros Hab. induction 1 as [|link Hl _ IH|link Hl _ IH]; [done|..].
  - by apply reach_forward.
  - by apply reach_backward.
Qed.

Lemma reachable_sym linkPairs a b :
  reachable linkPairs a b → reachable linkPairs b a.
Proof.
  induction 1 as [|link Hl _ IH|link Hl _ IH]; [constructor|..].
  - apply (reachable_trans _ _ (source link)); [|done].
    apply reach_backward; [done|constructor].
  - apply (reachable_trans _ _ (target link)); [|done].
    apply reach_forward; [done|constructor].
Qed.

Lemma reachable_mono linkPairs linkPairs' a b :
  (∀ link, link ∈ linkPairs →
           link ∈ linkPairs' ∨ reversed link ∈ linkPairs') →
  reachable linkPairs a b → reachable linkPairs' a b.
Proof.
  intros Hsub. induction 1 as [|link Hl _ IH|link Hl _ IH]; [constructor|..].
  - destruct (Hsub link Hl) as [Hl'|Hl'].
    + by apply reach_forward.
    + by apply (reach_backward _ _ (reversed link)).
  - destruct (Hsub link Hl) as [Hl'|Hl'].
    + by apply reach_backward.
    + by apply (reach_forward _ _ (reversed link)).
Qed.

Lemma reachable_universe linkPairs seed x :
  reachable linkPairs seed x →
  x = seed ∨ ∃ link, link ∈ linkPairs ∧ (x = source link ∨ x = target link).
Proof. destruct 1; eauto. Qed.

(** X1. The closures are the classes of an equivalence: when [y] is in
    the closure of [x], the closure of [y] has the same members as the
    closure of [x] (it is a rearrangement of it), so [x] is in it. *)
Theorem findConnectedNames_same_class (linkPairs : list NameLink)
    (x y : string) (cx : list string) :
  findConnectedNames x linkPairs = Some cx → y ∈ cx →
  ∃ cy, findConnectedNames y linkPairs = Some cy ∧ x ∈ cy ∧ cy ≡ₚ cx.
Proof.
  intros Hx Hy.
  destruct (findConnectedNames_spec linkPairs x cx Hx) as (Hndx & Hrx & _).
  destruct (findConnectedNames_total linkPairs y) as [cy Hcy].
  destruct (findConnectedNames_spec linkPairs y cy Hcy) as (Hndy & Hry & _).
  apply Hrx in Hy. exists cy. split; [done|]. split.
  - by apply Hry, reachable_sym.
  - apply NoDup_Permutation; [done..|]. intros z. rewrite Hrx, Hry. split.
    + by apply reachable_trans.
    + apply reachable_trans. by apply reachable_sym.
Qed.

Lemma findConnectedNames_same_class_witness :
  findConnectedNames "a" [mkLink "b" "a"; mkLink "c" "b"]
    = Some ["a"; "b"; "c"]%string ∧
  "c"%string ∈ ["a"; "b"; "c"]%string ∧
  ∃ cy, findConnectedNames "c" [mkLink "b" "a"; mkLink "c" "b"] = Some cy ∧
        "a"%string ∈ cy ∧ cy ≡ₚ ["a"; "b"; "c"]%string.
Proof.
  assert (findConnectedNames "a" [mkLink "b" "a"; mkLink "c" "b"]
          = Some ["a"; "b"; "c"]%string) as Hrun by (vm_compute; reflexivity).
  assert ("c"%string ∈ ["a"; "b"; "c"]%string) as Hin
    by (do 2 apply list_elem_of_further; apply list_elem_of_here).
  split; [exact Hrun|]. split; [exact Hin|].
  exact (findConnectedNames_same_class _ _ _ _ Hrun Hin).
Defined.

(** X2. The closure only grows with the links, whatever their direction
    and order: if every link of one list occurs in another list, as it is
    or reversed, then every member of the closure over the first list is a
    member of the closure over the second. *)
Theorem findConnectedNames_monotone (linkPairs linkPairs' : list NameLink)
    (seed : string) (c c' : list string) :
  (∀ link, link ∈ linkPairs →
           link ∈ linkPairs' ∨ reversed link ∈ linkPairs') →
  findConnectedNames seed linkPairs = Some c →
  findConnectedNames seed linkPairs' = Some c' →
  c ⊆ c'.
Proof.
  intros Hsub Hc Hc' x Hx.
  destruct (findConnectedNames_spec linkPairs seed c Hc) as (_ & Hr & _).
  destruct (findConnectedNames_spec linkPairs' seed c' Hc') as (_ & Hr' & _).
  apply Hr', (reachable_mono linkPairs); [done|]. by apply Hr.
Qed.

Lemma findConnectedNames_monotone_witness :
  (∀ link, link ∈ [mkLink "a" "b"] →
     link ∈ [mkLink "c" "b"; mkLink "b" "a"] ∨
     reversed link ∈ [mkLink "c" "b"; mkLink "b" "a"]) ∧
  findConnectedNames "a" [mkLink "a" "b"] = Some ["a"; "b"]%string ∧
  findConnectedNames "a" [mkLink "c" "b"; mkLink "b" "a"]
    = Some ["a"; "b"; "c"]%string ∧
  ["a"; "b"]%string ⊆ ["a"; "b"; "c"]%string.
Proof.
  assert (∀ link, link ∈ [mkLink "a" "b"] →
     link ∈ [mkLink "c" "b"; mkLink "b" "a"] ∨
     reversed link ∈ [mkLink "c" "b"; mkLink "b" "a"]) as Hsub.
  { intros link ->%list_elem_of_singleton. right.
    apply list_elem_of_further, list_elem_of_here. }
  assert (findConnectedNames "a" [mkLink "a" "b"] = Some ["a"; "b"]%string)
    as H1 by (vm_compute; reflexivity).
  assert (findConnectedNames "a" [mkLink "c" "b"; mkLink "b" "a"]
          = Some ["a"; "b"; "c"]%string) as H2 by (vm_compute; reflexivity).
  split; [exact Hsub|]. split; [exact H1|]. split; [exact H2|].
  exact (findConnectedNames_monotone _ _ _ _ _ Hsub H1 H2).
Defined.

(** X3. The closure starts with the seed, every other member is an
    endpoint of some link, and it has at most [2 * |links| + 1] members;
    with no links it is the seed alone. *)
Theorem findConnectedNames_bounds (linkPairs : list NameLink)
    (seed : string) :
  ∃ rest,
    findConnectedNames seed linkPairs = Some (seed :: rest) ∧
    (∀ x, x ∈ rest →
          ∃ link, link ∈ linkPairs ∧ (x = source link ∨ x = target link)) ∧
    (length rest ≤ 2 * length linkPairs)%nat ∧
    (linkPairs = [] → rest = []).
Proof.
  destruct (findConnectedNames_total linkPairs seed) as [r Hr].
  destruct (findConnectedNames_spec linkPairs seed r Hr)
    as (Hnd & Hreach & rest & ->).
  exists rest. split; [done|].
  apply NoDup_cons in Hnd as [Hseed Hnd].
  assert (∀ x, x ∈ rest →
            ∃ link, link ∈ linkPairs ∧ (x = source link ∨ x = target link))
    as Hends.
  { intros x Hx.
    destruct (reachable_universe linkPairs seed x) as [->|?]; [|done|done].
    apply Hreach. by right. }
  split; [done|]. split.
  - assert (rest ⊆+ (linkPairs ≫= λ link, [source link; target link]))
      as Hsub.
    { apply NoDup_submseteq; [done|]. intros x Hx.
      destruct (Hends x Hx) as (link & Hl & Hxl).
      apply list_elem_of_bind. exists link. set_solver. }
    apply submseteq_length in Hsub.
    pose proof (universe_length linkPairs seed) as Hlen.
    unfold universe in Hlen. simpl in Hlen. lia.
  - intros ->. destruct rest as [|x rest]; [done|].
    destruct (Hends x) as (link & Hl & _); [by left|].
    by apply elem_of_nil in Hl.
Qed.

(** * More on the merge score and the merger *)

Lemma crosses_swap g1 g2 link : crosses g1 g2 link ↔ crosses g2 g1 link.
Proof. unfold crosses. tauto. Qed.

Lemma crosses_reversed g1 g2 link :
  crosses g1 g2 (reversed link) ↔ crosses g1 g2 link.
Proof. unfold crosses, reversed. simpl. tauto. Qed.

Lemma filter_fmap_length {A B} (f : A → B) (P : B → Prop)
    `{∀ y, Decision (P y)} (l : list A) :
  length (filter P (f <$> l)) = length (filter (λ x, P (f x)) l).
Proof.
  induction l as [|x l IH]; [done|].
  rewrite fmap_cons, !filter_cons. case_decide; simpl; by rewrite IH.
Qed.

(** X4. The merge score does not depend on the order of the two groups,
    on the direction of the links or on their order, and it lies between
    0 and the number of links. *)
Theorem countConnectionsBetweenGroups_symmetric (group1 group2 : list string)
    (linkPairs : list NameLink) :
  countConnectionsBetweenGroups group1 group2 linkPairs
    = countConnectionsBetweenGroups group2 group1 linkPairs ∧
  countConnectionsBetweenGroups group1 group2 (reversed <$> linkPairs)
    = countConnectionsBetweenGroups group1 group2 linkPairs ∧
  (∀ linkPairs', linkPairs ≡ₚ linkPairs' →
     countConnectionsBetweenGroups group1 group2 linkPairs'
       = countConnectionsBetweenGroups group1 group2 linkPairs) ∧
  0 ≤ countConnectionsBetweenGroups group1 group2 linkPairs
    ≤ Z.of_nat (length linkPairs).
Proof.
  rewrite !countConnections_interGroupLinks. unfold interGroupLinks.
  split; [|split; [|split]].
  - do 2 f_equal. apply list_filter_iff. intros link. apply crosses_swap.
  - rewrite filter_fmap_length. do 2 f_equal.
    apply list_filter_iff. intros link. apply crosses_reversed.
  - intros linkPairs' Hperm. rewrite countConnections_interGroupLinks.
    unfold interGroupLinks. by rewrite Hperm.
  - pose proof (length_filter (crosses group1 group2) linkPairs). lia.
Qed.

(** ** Why the loop stops *)

Lemma mergeIteration_None groups linkPairs maxSize :
  (∀ i j, ¬ eligible groups maxSize i j) →
  mergeIteration groups linkPairs maxSize = None.
Proof.
  intros Hnone.
  pose proof (mergeIteration_spec groups linkPairs maxSize) as Hit.
  destruct (mergeIteration groups linkPairs maxSize); [|done].
  destruct Hit as (i & j & [Hok _] & _). by destruct (Hnone i j).
Qed.

Lemma mergeGroups_loop_post (P : list string → Prop) fuel groups linkPairs
    maxSize targetGroupCount out :
  (∀ a b, P a → P b → P (a ++ b)) →
  mergeGroups_loop fuel groups linkPairs maxSize targetGroupCount = Some out →
  (Z.of_nat (length out) ≤ targetGroupCount ∨
   ∀ i j, ¬ eligible out maxSize i j) ∧
  Z.min targetGroupCount (Z.of_nat (length groups)) ≤ Z.of_nat (length out) ∧
  (Forall P groups → Forall P out).
Proof.
  intros Happ. revert groups.
  induction fuel as [|fuel IH]; intros groups Hrun; [done|].
  simpl in Hrun. case_decide as Hcount.
  - pose proof (mergeIteration_spec groups linkPairs maxSize) as Hit.
    destruct (mergeIteration groups linkPairs maxSize) as [groups'|].
    + destruct Hit as (i & j & [[Hij Hsize] _] & ->).
      pose proof (mergePair_length groups i j Hij) as Hlen.
      destruct (IH _ Hrun) as (Hstop & Hlow & HP).
      split; [done|]. split; [lia|]. intros Hall. apply HP.
      rewrite Forall_forall in Hall. apply Forall_forall. intros g Hg.
      apply (elem_of_mergePair groups i j Hij) in Hg as [?| ->]; [auto|].
      apply Happ; apply Hall;
        eapply list_elem_of_lookup_2, groupAt_lookup; lia.
    + simplify_eq. split; [by right|]. split; [lia|done].
  - simplify_eq. split; [left; lia|]. split; [lia|done].
Qed.

Lemma mergeGroups_post (P : list string → Prop) groups linkPairs
    maxSize targetGroupCount out :
  (∀ a b, P a → P b → P (a ++ b)) →
  mergeGroups groups linkPairs maxSize targetGroupCount = Some out →
  (Z.of_nat (length out) ≤ targetGroupCount ∨
   ∀ i j, ¬ eligible out maxSize i j) ∧
  Z.min targetGroupCount (Z.of_nat (length groups)) ≤ Z.of_nat (length out) ∧
  (Forall P groups → Forall P out).
Proof.
  intros Happ. unfold mergeGroups. case_decide.
  - intros [= <-]. split; [by left|]. split; [lia|done].
  - by apply mergeGroups_loop_post.
Qed.

(** X5. [mergeGroups] stops for one of two reasons only: the group count
    is within the target, or no two remaining groups fit [maxSize]
    together; and it never merges below the target: the count of the
    answer is at least the smaller of the target and the input count. *)
Theorem mergeGroups_stops (groups : list (list string))
    (linkPairs : list NameLink) (maxSize targetGroupCount : Z) :
  ∃ out,
    mergeGroups groups linkPairs maxSize targetGroupCount = Some out ∧
    (Z.of_nat (length out) ≤ targetGroupCount ∨
     ∀ i j, (i < j < length out)%nat →
       maxSize < Z.of_nat (length (groupAt out i))
                 + Z.of_nat (length (groupAt out j))) ∧
    Z.min targetGroupCount (Z.of_nat (length groups)) ≤ Z.of_nat (length out).
Proof.
  destruct (mergeGroups_spec groups linkPairs maxSize targetGroupCount)
    as (out & Hrun & _).
  destruct (mergeGroups_post (λ _, True) _ _ _ _ _ (λ _ _ _ _, I) Hrun)
    as (Hstop & Hlow & _).
  exists out. split; [done|]. split; [|done].
  destruct Hstop as [?|Hnone]; [by left|right].
  intros i j Hij. specialize (Hnone i j). unfold eligible in Hnone.
  destruct (decide (Z.of_nat (length (groupAt out i))
                    + Z.of_nat (length (groupAt out j)) ≤ maxSize)); [|lia].
  tauto.
Qed.

(** X6. Merging again changes nothing: [mergeGroups] applied to its own
    answer, with the same links, cap and target, answers it unchanged. *)
Theorem mergeGroups_idempotent (groups : list (list string))
    (linkPairs : list NameLink) (maxSize targetGroupCount : Z) :
  ∃ out,
    mergeGroups groups linkPairs maxSize targetGroupCount = Some out ∧
    mergeGroups out linkPairs maxSize targetGroupCount = Some out.
Proof.
  destruct (mergeGroups_spec groups linkPairs maxSize targetGroupCount)
    as (out & Hrun & _).
  destruct (mergeGroups_post (λ _, True) _ _ _ _ _ (λ _ _ _ _, I) Hrun)
    as (Hstop & _ & _).
  exists out. split; [done|]. unfold mergeGroups.
  case_decide as Hcount; [done|]. simpl.
  case_decide; [|done].
  destruct Hstop as [?|Hnone]; [lia|]. by rewrite mergeIteration_None.
Qed.

(** X7. Merging moves members around without losing or inventing any:
    the members of the answer are those of the input, and when no input
    group is empty no group of the answer is. *)
Theorem mergeGroups_keeps_members (groups : list (list string))
    (linkPairs : list NameLink) (maxSize targetGroupCount : Z) :
  ∃ out,
    mergeGroups groups linkPairs maxSize targetGroupCount = Some out ∧
    concat out ≡ₚ concat groups ∧
    ((∀ g, g ∈ groups → g ≠ []) → ∀ g, g ∈ out → g ≠ []).
Proof.
  destruct (mergeGroups_spec groups linkPairs maxSize targetGroupCount)
    as (out & Hrun & _ & _ & Hperm).
  exists out. split; [done|]. split; [done|].
  destruct (mergeGroups_post (λ g, g ≠ []) _ _ _ _ _
              (λ a b Ha _, λ Hab, Ha (proj1 (app_eq_nil a b Hab))) Hrun)
    as (_ & _ & HP).
  rewrite <- !Forall_forall. exact HP.
Qed.

Lemma pair_size_le_total (groups : list (list string)) i j :
  (i < j < length groups)%nat →
  (length (groupAt groups i) + length (groupAt groups j)
   ≤ length (concat groups))%nat.
Proof.
  intros Hij. pose proof (groups_split groups i j Hij) as Hsplit.
  assert (concat groups ≡ₚ
          concat (groupAt groups i :: groupAt groups j
                    :: delete i (delete j groups))) as Hc
    by (by rewrite <- Hsplit).
  rewrite Hc. simpl. rewrite !length_app. lia.
Qed.

(** X8. When all members together fit [maxSize] and the target is at
    least 1, the merger reaches the target: the answer has exactly
    [min(target, input count)] groups. *)
Theorem mergeGroups_reaches_target (groups : list (list string))
    (linkPairs : list NameLink) (maxSize targetGroupCount : Z) :
  1 ≤ targetGroupCount →
  Z.of_nat (length (concat groups)) ≤ maxSize →
  ∃ out,
    mergeGroups groups linkPairs maxSize targetGroupCount = Some out ∧
    Z.of_nat (length out) = Z.min targetGroupCount (Z.of_nat (length groups)).
Proof.
  intros Htarget Htotal.
  destruct (mergeGroups_spec groups linkPairs maxSize targetGroupCount)
    as (out & Hrun & Hlen & _ & Hperm).
  destruct (mergeGroups_post (λ _, True) _ _ _ _ _ (λ _ _ _ _, I) Hrun)
    as (Hstop & Hlow & _).
  exists out. split; [done|].
  assert (Z.of_nat (length out) ≤ targetGroupCount ∨
          Z.of_nat (length groups) ≤ targetGroupCount) as Hle; [|
    unfold mergeGroups in Hrun; case_decide; simplify_eq; lia].
  destruct Hstop as [?|Hnone]; [by left|].
  destruct (decide (Z.of_nat (length out) ≤ targetGroupCount)); [by left|].
  exfalso. apply (Hnone 0%nat 1%nat). split; [lia|].
  pose proof (pair_size_le_total out 0 1) as Hpair.
  rewrite Hperm in Hpair. lia.
Qed.

Lemma mergeGroups_reaches_target_witness :
  1 ≤ 2 ∧
  Z.of_nat (length (concat [["a"]; ["b"; "c"]; ["d"]]%string)) ≤ 4 ∧
  ∃ out,
    mergeGroups [["a"]; ["b"; "c"]; ["d"]]%string [mkLink "a" "d"] 4 2
      = Some out ∧
    Z.of_nat (length out)
      = Z.min 2 (Z.of_nat (length [["a"]; ["b"; "c"]; ["d"]]%string)).
Proof.
  split; [lia|]. split; [simpl; lia|].
  apply (mergeGroups_reaches_target
           [["a"]; ["b"; "c"]; ["d"]]%string [mkLink "a" "d"] 4 2);
    simpl; lia.
Defined.

(** * More on the group builder *)

(** ** Padding, in detail *)

Lemma padToMinSize_prefix fuel minSize cg U cg2 U2 :
  NoDup U → padToMinSize fuel minSize cg U = Some (cg2, U2) →
  ∃ e, cg2 = cg ++ e ∧ U = e ++ U2 ∧
       (minSize ≤ Z.of_nat (length cg2) ∨ U2 = []) ∧
       (minSize ≤ Z.of_nat (length cg) → e = []) ∧
       (e ≠ [] → Z.of_nat (length cg2) ≤ minSize).
Proof.
  revert cg U. induction fuel as [|fuel IH]; intros cg U Hnd Hrun; [done|].
  simpl in Hrun. case_decide as Hsmall.
  - destruct U as [|x U].
    + simplify_eq. exists []. rewrite app_nil_r.
      split; [done|]. split; [done|]. split; [by right|]. by split.
    + rewrite delete_head in Hrun by done.
      apply NoDup_cons in Hnd as [_ Hnd].
      destruct (IH _ _ Hnd Hrun) as (e & -> & -> & Hbig & Hnone & Hle).
      exists (x :: e). split; [by rewrite <- app_assoc|].
      split; [done|]. split; [done|]. split; [lia|].
      intros _. destruct e as [|y e]; [|by apply Hle].
      rewrite !length_app. simpl. lia.
  - simplify_eq. exists []. rewrite app_nil_r.
    split; [done|]. split; [done|]. split; [left; lia|]. by split.
Qed.

Lemma pad_prefix minSize cg U cg2 U2 :
  NoDup U → pad minSize cg U = Some (cg2, U2) →
  ∃ e, cg2 = cg ++ e ∧ U = e ++ U2 ∧
       (minSize ≤ Z.of_nat (length cg2) ∨ U2 = []) ∧
       (minSize ≤ Z.of_nat (length cg) → e = []) ∧
       (e ≠ [] → Z.of_nat (length cg2) ≤ minSize).
Proof. apply padToMinSize_prefix. Qed.

Lemma pad_nil minSize cg : pad minSize cg [] = Some (cg, []).
Proof. unfold pad. simpl. by case_decide. Qed.

(** ** The candidates, exactly *)

Lemma keepUnassigned_elem (U s connected : list string) x :
  x ∈ foldl (λ s c, if StrSet.has U c then StrSet.add s c else s) s connected
  ↔ x ∈ s ∨ (x ∈ U ∧ x ∈ connected).
Proof.
  revert s. induction connected as [|c connected IH]; intros s; simpl.
  - set_solver.
  - rewrite IH. destruct (StrSet.has U c) eqn:E.
    + apply has_true in E. rewrite elem_of_add. set_solver.
    + apply has_false in E. set_solver.
Qed.

Lemma collectConnected_from_elem linkPairs (U cg s c : list string) :
  foldl (λ acc name,
           connectedToGroup ← acc;
           connected ← findConnectedNames name linkPairs;
           Some (foldl (λ s c, if StrSet.has U c then StrSet.add s c else s)
                       connectedToGroup connected))
        (Some s) cg = Some c →
  ∀ x, x ∈ c ↔
       x ∈ s ∨ (x ∈ U ∧ ∃ name, name ∈ cg ∧ reachable linkPairs name x).
Proof.
  revert s. induction cg as [|name cg IH]; intros s Hrun x; simpl in Hrun.
  - simplify_eq. set_solver.
  - destruct (findConnectedNames_total linkPairs name) as [connected Hc].
    rewrite Hc in Hrun. simpl in Hrun.
    destruct (findConnectedNames_spec linkPairs name connected Hc)
      as (_ & Hreach & _).
    rewrite (IH _ Hrun), keepUnassigned_elem, Hreach. set_solver.
Qed.

Lemma collectConnected_elem linkPairs (U cg c : list string) :
  collectConnected linkPairs U cg = Some c →
  ∀ x, x ∈ c ↔ x ∈ U ∧ ∃ name, name ∈ cg ∧ reachable linkPairs name x.
Proof.
  intros Hrun x. rewrite (collectConnected_from_elem _ _ _ _ _ Hrun).
  set_solver.
Qed.

(** ** Invariants of the main loop *)

Section LoopInvariant.
Variables (linkPairs : list NameLink) (minSize maxSize : Z).
Variable Inv : list string → list (list string) → list string → Prop.

Hypothesis Inv_seed : ∀ x U groups,
  NoDup (x :: U) → Inv (x :: U) groups [] → Inv U groups [x].
Hypothesis Inv_close : ∀ U groups cg c cg2 U2,
  NoDup U → cg ≠ [] → Inv U groups cg →
  collectConnected linkPairs U cg = Some c →
  (c = [] ∨ maxSize ≤ Z.of_nat (length cg)) →
  pad minSize cg U = Some (cg2, U2) →
  Inv U2 (groups ++ [cg2]) [].
Hypothesis Inv_grow : ∀ U groups cg nextName c,
  NoDup U → cg ≠ [] → Inv U groups cg →
  collectConnected linkPairs U cg = Some (nextName :: c) →
  Z.of_nat (length cg) < maxSize →
  Inv (StrSet.delete U nextName) groups (cg ++ [nextName]).

Lemma createConnectedGroups_loop_invariant fuel U groups cg U' groups' cg' :
  NoDup U → Inv U groups cg →
  createConnectedGroups_loop fuel linkPairs minSize maxSize U groups cg
    = Some (U', groups', cg') →
  U' = [] ∧ Inv [] groups' cg'.
Proof.
  revert U groups cg.
  induction fuel as [|fuel IH]; intros U groups cg Hnd HI Hrun; [done|].
  simpl in Hrun. destruct U as [|firstUnassigned U0].
  { by simplify_eq. }
  assert (∃ cg1 U1,
             (if decide (length cg = 0%nat)
              then (cg ++ [firstUnassigned],
                    StrSet.delete (firstUnassigned :: U0) firstUnassigned)
              else (cg, firstUnassigned :: U0)) = (cg1, U1) ∧
             cg1 ≠ [] ∧ NoDup U1 ∧ Inv U1 groups cg1)
    as (cg1 & U1 & Heq & Hne & Hnd1 & HI1).
  { case_decide as Hcg.
    - destruct cg; [|done]. rewrite delete_head by done.
      exists [firstUnassigned], U0. split; [done|]. split; [done|].
      split; [by apply NoDup_cons in Hnd as [_ ?]|]. by apply Inv_seed.
    - exists cg, (firstUnassigned :: U0). split; [done|].
      split; [by destruct cg|done]. }
  rewrite Heq in Hrun. clear Heq.
  destruct (collectConnected_spec linkPairs U1 cg1) as (c & Hc & Hsub).
  rewrite Hc in Hrun. simpl in Hrun.
  assert (c = [] ∨ maxSize ≤ Z.of_nat (length cg1) →
          pad minSize cg1 U1
          ≫= (λ '(currentGroup, unassignedNames),
                createConnectedGroups_loop fuel linkPairs minSize maxSize
                  unassignedNames (groups ++ [currentGroup]) [])
          = Some (U', groups', cg') →
          U' = [] ∧ Inv [] groups' cg') as Hstart.
  { intros Hwhy Hrun'.
    destruct (pad_spec minSize cg1 U1 Hnd1)
      as (cg2 & U2 & Hpad & _ & Hnd2 & _).
    rewrite Hpad in Hrun'. simpl in Hrun'.
    apply (IH _ _ _ Hnd2) in Hrun'; [done|].
    by apply (Inv_close U1 groups cg1 c). }
  destruct c as [|nextName c]; [apply Hstart; auto|].
  case_decide as Hfull; [apply Hstart; [right; lia|done]|].
  apply IH in Hrun; [done|by apply NoDup_delete|].
  apply (Inv_grow U1 groups cg1 nextName c); auto. lia.
Qed.

Lemma createConnectedGroups_invariant uniqueNames peopleMap out :
  Inv (StrSet.of_list uniqueNames) [] [] →
  createConnectedGroups uniqueNames peopleMap linkPairs minSize maxSize
    = Some out →
  ∃ groups cg,
    Inv [] groups cg ∧
    out = if decide (0 < length cg)%nat then groups ++ [cg] else groups.
Proof.
  intros HI. unfold createConnectedGroups.
  destruct (createConnectedGroups_loop _ _ _ _ _ _ _)
    as [[[U' groups'] cg']|] eqn:Hloop; [|done]. simpl.
  apply createConnectedGroups_loop_invariant in Hloop as [-> HI'];
    [|apply NoDup_of_list|done].
  intros Hout. exists groups', cg'. split; [done|].
  case_decide; [|by simplify_eq].
  rewrite pad_nil in Hout. simpl in Hout. by simplify_eq.
Qed.
End LoopInvariant.

(** ** The shape of the groups *)

Lemma allButLast_Forall (P : list string → Prop) groups :
  Forall P groups → allButLast P groups.
Proof.
  intros Hall i g Hi _. rewrite Forall_forall in Hall.
  by apply Hall, list_elem_of_lookup_2 with i.
Qed.

Lemma allButLast_snoc (P : list string → Prop) groups g :
  Forall P groups → allButLast P (groups ++ [g]).
Proof.
  intros Hall i h Hi Hlen. rewrite length_app in Hlen. simpl in Hlen.
  rewrite lookup_app_l in Hi by lia.
  rewrite Forall_forall in Hall. by apply Hall, list_elem_of_lookup_2 with i.
Qed.

Lemma length_le_concat (groups : list (list string)) :
  Forall (λ g, g ≠ []) groups → (length groups ≤ length (concat groups))%nat.
Proof.
  induction 1 as [|g groups Hg _ IH]; simpl; [done|].
  rewrite length_app. destruct g; [done|]. simpl. lia.
Qed.

Lemma shapeInvariant_final minSize groups cg :
  shapeInvariant minSize [] groups cg →
  let out := if decide (0 < length cg)%nat then groups ++ [cg] else groups in
  Forall (λ g, g ≠ []) out ∧ allButLast (reachesMin minSize) out.
Proof.
  intros (Hne & Hbig & Hlast). simpl. case_decide as Hcg.
  - split.
    + apply Forall_app. split; [done|]. apply Forall_singleton.
      intros ->. simpl in Hcg. lia.
    + apply allButLast_snoc, Hbig. right. intros ->. simpl in Hcg. lia.
  - done.
Qed.

(** The shape of the answer of the builder. *)
Lemma createConnectedGroups_shape_facts (uniqueNames : list string)
    (peopleMap : gmap string Person) (linkPairs : list NameLink)
    (minSize maxSize : Z) :
  ∃ groups,
    createConnectedGroups uniqueNames peopleMap linkPairs minSize maxSize
      = Some groups ∧
    (∀ g, g ∈ groups → g ≠ []) ∧
    (length groups ≤ length (StrSet.of_list uniqueNames))%nat ∧
    (uniqueNames = [] → groups = []) ∧
    (∀ i g, groups !! i = Some g → (S i < length groups)%nat →
            minSize ≤ Z.of_nat (length g)).
Proof.
  destruct (createConnectedGroups_spec uniqueNames peopleMap linkPairs
              minSize maxSize) as (out & Hrun & Hperm & _).
  exists out. split; [done|].
  assert (∃ groups cg,
             shapeInvariant minSize [] groups cg ∧
             out = if decide (0 < length cg)%nat
                   then groups ++ [cg] else groups)
    as (groups & cg & HI & ->); [
    apply (createConnectedGroups_invariant linkPairs minSize maxSize
             (shapeInvariant minSize)) with uniqueNames peopleMap;
      [| | | |exact Hrun] |].
  - intros x U groups _ (Hne & Hbig & Hlast). split; [done|].
    split; [|done]. intros _. apply Hbig. by left.
  - intros U groups cg c cg2 U2 Hnd Hcg (Hne & Hbig & Hlast) _ _ Hpad.
    destruct (pad_prefix _ _ _ _ _ Hnd Hpad) as (e & -> & _ & Hmin & _).
    assert (Forall (reachesMin minSize) groups) as Hall by (apply Hbig; auto).
    split; [|split].
    + apply Forall_app. split; [done|]. apply Forall_singleton.
      by destruct cg.
    + intros [HU2|?]; [|done]. apply Forall_app. split; [done|].
      apply Forall_singleton. by destruct Hmin.
    + by apply allButLast_snoc.
  - intros U groups cg nextName c _ Hcg (Hne & Hbig & Hlast) _ _.
    split; [done|]. split; [|done]. intros _. apply Hbig. by right.
  - split; [constructor|]. split; [by constructor|]. by intros i g ?.
  - destruct (shapeInvariant_final _ _ _ HI) as [Hne Hlast].
    split; [by apply Forall_forall|].
    assert (length (if decide (0 < length cg)%nat
                    then groups ++ [cg] else groups)
            ≤ length (StrSet.of_list uniqueNames))%nat as Hlen.
    { rewrite <- Hperm. by apply length_le_concat. }
    split; [done|]. split; [|exact Hlast].
    intros ->. unfold StrSet.of_list in Hlen. simpl in Hlen.
    destruct (if decide _ then _ else _); [done|simpl in Hlen; lia].
Qed.

(** X9. The builder never answers an empty group, answers at most as
    many groups as there are unique names (none for no names), and every
    group but the last has at least [minSize] members. *)
Theorem createConnectedGroups_shape (uniqueNames : list string)
    (peopleMap : gmap string Person) (linkPairs : list NameLink)
    (minSize maxSize : Z) :
  ∃ groups,
    createConnectedGroups uniqueNames peopleMap linkPairs minSize maxSize
      = Some groups ∧
    (∀ g, g ∈ groups → g ≠ []) ∧
    (length groups ≤ length (StrSet.of_list uniqueNames))%nat ∧
    (uniqueNames = [] → groups = []) ∧
    (∀ i g, groups !! i = Some g → (S i < length groups)%nat →
            minSize ≤ Z.of_nat (length g)).
Proof.
  apply createConnectedGroups_shape_facts.
Qed.

(** ** Groups and connected components *)

Lemma withinComponent_singleton linkPairs x : withinComponent linkPairs [x].
Proof.
  intros a b ->%list_elem_of_singleton ->%list_elem_of_singleton. constructor.
Qed.

Lemma withinComponent_nil linkPairs : withinComponent linkPairs [].
Proof. by intros a b ?%elem_of_nil. Qed.

Lemma withinComponent_snoc linkPairs cg name nextName :
  withinComponent linkPairs cg → name ∈ cg →
  reachable linkPairs name nextName →
  withinComponent linkPairs (cg ++ [nextName]).
Proof.
  intros Hcg Hname Hreach a b Ha Hb.
  assert (∀ z, z ∈ cg ++ [nextName] → reachable linkPairs name z) as Hfrom.
  { intros z [Hz| ->%list_elem_of_singleton]%elem_of_app; [|done].
    by apply Hcg. }
  apply (reachable_trans _ _ name); [apply reachable_sym|]; by apply Hfrom.
Qed.

Lemma componentInvariant_seed linkPairs x U groups :
  componentInvariant linkPairs (x :: U) groups [] →
  componentInvariant linkPairs U groups [x].
Proof. intros [? _]. split; [done|]. apply withinComponent_singleton. Qed.

Lemma componentInvariant_close linkPairs minSize U groups cg cg2 U2 :
  minSize ≤ 1 → NoDup U → cg ≠ [] →
  componentInvariant linkPairs U groups cg →
  pad minSize cg U = Some (cg2, U2) →
  cg2 = cg ∧ U2 = U ∧ componentInvariant linkPairs U2 (groups ++ [cg2]) [].
Proof.
  intros Hmin Hnd Hcg [Hgs Hwc] Hpad.
  destruct (pad_prefix _ _ _ _ _ Hnd Hpad) as (e & -> & -> & _ & Hnone & _).
  rewrite Hnone; [|destruct cg; [done|simpl; lia]].
  rewrite app_nil_r. simpl. split; [done|]. split; [done|].
  split; [|apply withinComponent_nil].
  apply Forall_app. split; [done|]. by apply Forall_singleton.
Qed.

Lemma componentInvariant_grow linkPairs U groups cg nextName c :
  componentInvariant linkPairs U groups cg →
  collectConnected linkPairs U cg = Some (nextName :: c) →
  nextName ∈ U ∧
  componentInvariant linkPairs (StrSet.delete U nextName) groups
    (cg ++ [nextName]).
Proof.
  intros [Hgs Hwc] Hc.
  destruct (proj1 (collectConnected_elem _ _ _ _ Hc nextName))
    as (HU & name & Hname & Hreach); [by left|].
  split; [done|]. split; [done|]. by apply withinComponent_snoc with name.
Qed.

(** X10. With [minSize <= 1] nothing is padded, and every group the
    builder answers lies inside one connected component: any two of its
    members are linked by a chain of links. *)
Theorem createConnectedGroups_within_component (uniqueNames : list string)
    (peopleMap : gmap string Person) (linkPairs : list NameLink)
    (minSize maxSize : Z) :
  minSize ≤ 1 →
  ∃ groups,
    createConnectedGroups uniqueNames peopleMap linkPairs minSize maxSize
      = Some groups ∧
    ∀ g x y, g ∈ groups → x ∈ g → y ∈ g → reachable linkPairs x y.
Proof.
  intros Hmin.
  destruct (createConnectedGroups_spec uniqueNames peopleMap linkPairs
              minSize maxSize) as (out & Hrun & _).
  exists out. split; [done|].
  assert (∃ groups cg,
             componentInvariant linkPairs [] groups cg ∧
             out = if decide (0 < length cg)%nat
                   then groups ++ [cg] else groups)
    as (groups & cg & [Hgs Hwc] & ->); [
    apply (createConnectedGroups_invariant linkPairs minSize maxSize
             (componentInvariant linkPairs)) with uniqueNames peopleMap;
      [| | | |exact Hrun] |].
  - intros x U groups _. apply componentInvariant_seed.
  - intros U groups cg c cg2 U2 Hnd Hcg HI _ _ Hpad.
    by destruct (componentInvariant_close _ _ _ _ _ _ _ Hmin Hnd Hcg HI Hpad)
      as (_ & _ & ?).
  - intros U groups cg nextName c _ _ HI Hc _.
    by destruct (componentInvariant_grow _ _ _ _ _ _ HI Hc).
  - split; [constructor|apply withinComponent_nil].
  - intros g x y Hg. rewrite Forall_forall in Hgs.
    case_decide; [|by apply Hgs].
    apply elem_of_app in Hg as [Hg| ->%list_elem_of_singleton];
      [by apply Hgs|apply Hwc].
Qed.

Lemma createConnectedGroups_within_component_witness :
  1 ≤ 1 ∧
  ∃ groups,
    createConnectedGroups ["a"; "b"; "c"]%string ∅ [mkLink "c" "a"] 1 2
      = Some groups ∧
    ∀ g x y, g ∈ groups → x ∈ g → y ∈ g →
             reachable [mkLink "c" "a"] x y.
Proof.
  split; [lia|].
  apply (createConnectedGroups_within_component
           ["a"; "b"; "c"]%string ∅ [mkLink "c" "a"] 1 2).
  lia.
Defined.

(** X11. With [minSize <= 1] and a cap that all unique names fit, the
    builder answers the connected components: two names are linked by a
    chain of links exactly when they are members of the same group. *)
Theorem createConnectedGroups_components (uniqueNames : list string)
    (peopleMap : gmap string Person) (linkPairs : list NameLink)
    (minSize maxSize : Z) :
  minSize ≤ 1 →
  Z.of_nat (length (StrSet.of_list uniqueNames)) ≤ maxSize →
  ∃ groups,
    createConnectedGroups uniqueNames peopleMap linkPairs minSize maxSize
      = Some groups ∧
    ∀ x y, x ∈ uniqueNames → y ∈ uniqueNames →
      (reachable linkPairs x y ↔ ∃ g, g ∈ groups ∧ x ∈ g ∧ y ∈ g).
Proof.
  intros Hmin Hmax.
  destruct (createConnectedGroups_spec uniqueNames peopleMap linkPairs
              minSize maxSize) as (out & Hrun & Hperm & _).
  exists out. split; [done|].
  assert (∃ groups cg,
             separationInvariant linkPairs maxSize [] groups cg ∧
             out = if decide (0 < length cg)%nat
                   then groups ++ [cg] else groups)
    as (groups & cg & ([Hgs Hwc] & _ & Hsep) & ->); [
    apply (createConnectedGroups_invariant linkPairs minSize maxSize
             (separationInvariant linkPairs maxSize))
      with uniqueNames peopleMap; [| | | |exact Hrun] |].
  - intros x U groups _ (HI & Hsize & Hsep).
    split; [by apply componentInvariant_seed|]. split; [simpl in *; lia|].
    intros a b Ha Hb. apply Hsep; [done|]. set_solver.
  - intros U groups cg c cg2 U2 Hnd Hcg (HI & Hsize & Hsep) Hc Hwhy Hpad.
    destruct (componentInvariant_close _ _ _ _ _ _ _ Hmin Hnd Hcg HI Hpad)
      as (-> & -> & HI').
    assert (c = []) as ->.
    { destruct Hwhy as [?|Hfull]; [done|]. destruct c as [|z c]; [done|].
      destruct (proj1 (collectConnected_elem _ _ _ _ Hc z)) as [HzU _];
        [by left|].
      destruct U; [by apply elem_of_nil in HzU|]. simpl in Hsize. lia. }
    split; [done|]. split; [simpl; lia|].
    intros a b Ha Hb Hab. rewrite concat_app in Ha, Hb. simpl in Ha, Hb.
    rewrite app_nil_r in Ha, Hb.
    assert (∀ g, g ∈ groups → g ∈ groups ++ [cg]) as Hweak by set_solver.
    apply elem_of_app in Ha as [Ha|Ha].
    + destruct (Hsep a b Ha) as (g & ? & ? & ?); [set_solver|done|].
      exists g. auto.
    + rewrite <- app_assoc in Hb.
      apply elem_of_app in Hb as [Hb|[Hb|Hb]%elem_of_app].
      * destruct (Hsep b a Hb) as (g & ? & ? & ?);
          [set_solver|by apply reachable_sym|].
        exists g. auto.
      * exists cg. set_solver.
      * assert (b ∈ []) as Hnil; [|by apply elem_of_nil in Hnil].
        apply (collectConnected_elem _ _ _ _ Hc). split; [done|]. by exists a.
  - intros U groups cg nextName c Hnd Hcg (HI & Hsize & Hsep) Hc _.
    destruct (componentInvariant_grow _ _ _ _ _ _ HI Hc) as [HU HI'].
    split; [done|]. split.
    + pose proof (delete_length U nextName Hnd HU). rewrite length_app.
      simpl. lia.
    + intros a b Ha Hb. apply Hsep; [done|].
      rewrite !elem_of_app in Hb. rewrite list_elem_of_singleton in Hb.
      rewrite elem_of_delete in Hb. set_solver.
  - split; [split; [constructor|apply withinComponent_nil]|].
    split; [simpl; lia|]. by intros a b ?%elem_of_nil.
  - assert (∀ z, z ∈ uniqueNames →
              z ∈ concat groups ∨ (z ∈ cg ∧ (0 < length cg)%nat)) as Hcover.
    { intros z Hz. apply elem_of_of_list in Hz. rewrite <- Hperm in Hz.
      case_decide; [|by left]. rewrite concat_app in Hz. simpl in Hz.
      rewrite app_nil_r in Hz. apply elem_of_app in Hz as [?|?]; auto. }
    assert (∀ a b, a ∈ concat groups → b ∈ concat groups ∨ b ∈ cg →
              reachable linkPairs a b → ∃ g, g ∈ groups ∧ a ∈ g ∧ b ∈ g)
      as Hsep'.
    { intros a b Ha Hb. apply Hsep; [done|]. set_solver. }
    rewrite Forall_forall in Hgs.
    intros x y Hx Hy. split.
    + intros Hxy.
      destruct (Hcover x Hx) as [Hx'|[Hx' Hpos]].
      * destruct (Hsep' x y Hx') as (g & ? & ? & ?); [|done|].
        { destruct (Hcover y Hy) as [?|[? _]]; auto. }
        exists g. split; [|done]. case_decide; set_solver.
      * destruct (Hcover y Hy) as [Hy'|[Hy' _]].
        -- destruct (Hsep' y x Hy') as (g & ? & ? & ?);
             [auto|by apply reachable_sym|].
           exists g. split; [|done]. case_decide; set_solver.
        -- exists cg. split; [|done]. case_decide; [set_solver|lia].
    + intros (g & Hg & Hxg & Hyg).
      case_decide; [|by apply (Hgs g)].
      apply elem_of_app in Hg as [Hg| ->%list_elem_of_singleton];
        [by apply (Hgs g)|by apply Hwc].
Qed.

Lemma createConnectedGroups_components_witness :
  1 ≤ 1 ∧
  Z.of_nat (length (StrSet.of_list ["a"; "b"; "c"; "d"]%string)) ≤ 4 ∧
  ∃ groups,
    createConnectedGroups ["a"; "b"; "c"; "d"]%string ∅
      [mkLink "c" "a"; mkLink "d" "b"] 1 4 = Some groups ∧
    ∀ x y, x ∈ ["a"; "b"; "c"; "d"]%string →
           y ∈ ["a"; "b"; "c"; "d"]%string →
      (reachable [mkLink "c" "a"; mkLink "d" "b"] x y
       ↔ ∃ g, g ∈ groups ∧ x ∈ g ∧ y ∈ g).
Proof.
  split; [lia|]. split; [vm_compute; discriminate|].
  apply (createConnectedGroups_components
           ["a"; "b"; "c"; "d"]%string ∅ [mkLink "c" "a"; mkLink "d" "b"] 1 4).
  - lia.
  - vm_compute. discriminate.
Defined.

(** ** Without links *)

Lemma reachable_no_links x y : reachable [] x y → y = x.
Proof.
  apply reachable_untouched. by intros link ?%elem_of_nil.
Qed.

(** X12. Without links the builder deals the unique names out in their
    order: the groups, put end to end, are the unique-name list itself,
    and every group but the last has exactly [max(1, minSize)] members. *)
Theorem createConnectedGroups_no_links (uniqueNames : list string)
    (peopleMap : gmap string Person) (minSize maxSize : Z) :
  ∃ groups,
    createConnectedGroups uniqueNames peopleMap [] minSize maxSize
      = Some groups ∧
    concat groups = StrSet.of_list uniqueNames ∧
    ∀ i g, groups !! i = Some g → (S i < length groups)%nat →
           Z.of_nat (length g) = Z.max 1 minSize.
Proof.
  destruct (createConnectedGroups_spec uniqueNames peopleMap []
              minSize maxSize) as (out & Hrun & _).
  exists out. split; [done|].
  pose proof (NoDup_of_list uniqueNames) as Hall.
  assert (∃ groups cg,
             dealingInvariant (StrSet.of_list uniqueNames) minSize [] groups cg ∧
             out = if decide (0 < length cg)%nat
                   then groups ++ [cg] else groups)
    as (groups & cg & (Heq & Hone & Hexact & Hlast) & ->); [
    apply (createConnectedGroups_invariant [] minSize maxSize
             (dealingInvariant (StrSet.of_list uniqueNames) minSize))
      with uniqueNames peopleMap; [| | | |exact Hrun] |].
  - intros x U groups _ (Heq & _ & Hexact & Hlast).
    split; [done|]. split; [simpl; lia|]. split; [|done].
    intros _. apply Hexact. by left.
  - intros U groups cg c cg2 U2 Hnd Hcg (Heq & Hone & Hexact & Hlast) _ _ Hpad.
    destruct (pad_prefix _ _ _ _ _ Hnd Hpad) as (e & -> & -> & Hmin & Hnone & Hle).
    assert (length cg = 1%nat) as Hlen by (destruct cg; [done|simpl in *; lia]).
    assert (Forall (λ g, Z.of_nat (length g) = Z.max 1 minSize) groups)
      as Hgs by (apply Hexact; auto).
    split; [|split; [simpl; lia|split]].
    + rewrite concat_app. simpl. rewrite app_nil_r, <- !app_assoc.
      simpl. exact Heq.
    + intros [HU2|?]; [|done]. apply Forall_app. split; [done|].
      apply Forall_singleton. destruct Hmin as [Hmin|?]; [|done].
      rewrite length_app in *. destruct e as [|z e].
      * simpl in *. lia.
      * specialize (Hle ltac:(done)). simpl in *. lia.
    + by apply allButLast_snoc.
  - intros U groups cg nextName c Hnd Hcg (Heq & _) Hc _. exfalso.
    destruct (proj1 (collectConnected_elem _ _ _ _ Hc nextName))
      as (HU & name & Hname & Hreach); [by left|].
    apply reachable_no_links in Hreach as ->.
    rewrite <- Heq in Hall. apply NoDup_app in Hall as (_ & _ & Hall).
    apply NoDup_app in Hall as (_ & Hdisj & _). by apply (Hdisj name).
  - split; [done|]. split; [simpl; lia|]. split; [by constructor|].
    by intros i g ?.
  - rewrite app_nil_r in Heq. case_decide as Hcg.
    + split; [by rewrite concat_app; simpl; rewrite app_nil_r|].
      apply allButLast_snoc, Hexact. right. intros ->. simpl in Hcg. lia.
    + destruct cg; [|simpl in Hcg; lia]. rewrite app_nil_r in Heq. done.
Qed.

(** * More on the validation *)

Lemma readPerson_ok line :
  (∃ person, readPerson line = inr person) ↔ validRecord line.
Proof.
  unfold readPerson, validRecord, lineName, lineGender.
  case_decide as Hname.
  - split; [by intros [? ?]|]. by intros [? _].
  - destruct (includes _ _) eqn:E; simpl.
    + apply includes_true in E. split; [done|]. by eexists.
    + split; [by intros [? ?]|]. intros [_ Hg].
      apply includes_true in Hg. congruence.
Qed.

Lemma readPeople_ok lines (peopleMap : gmap string Person) :
  (∃ r, readPeople lines peopleMap = inr r) ↔ Forall validRecord lines.
Proof.
  revert peopleMap. induction lines as [|line lines IH]; intros peopleMap.
  - simpl. split; [constructor|]. by eexists.
  - simpl. rewrite Forall_cons, <- readPerson_ok.
    destruct (readPerson line) as [e|person]; simpl.
    + split; [by intros [? ?]|]. by intros [[? ?] _].
    + rewrite <- (IH (<[name person := person]> peopleMap)).
      destruct (readPeople lines _) as [e|[m l]]; simpl.
      * split; [by intros [? ?]|]. by intros [_ [? ?]].
      * split; [|by eexists]. intros _. split; by eexists.
Qed.

Lemma readLink_ok U line link :
  readLink U line = inr link ↔ validLink U line ∧ link = linkOfLine line.
Proof.
  unfold readLink, validLink, wellFormedLink, linkOfLine, linkSource,
    linkTarget.
  case_decide as Hwf.
  - split; [done|]. intros [[[? ?] _] _]. tauto.
  - destruct (includes U _) eqn:E1; simpl.
    + destruct (includes U (default _ (_ !! 1%nat))) eqn:E2; simpl.
      * apply includes_true in E1, E2. split.
        -- intros [= <-]. split; [|done]. split; [|done].
           split; intros ?; apply Hwf; auto.
        -- by intros [_ ->].
      * split; [done|]. intros [(_ & _ & Ht) _].
        apply includes_true in Ht. congruence.
    + split; [done|]. intros [(_ & Hs & _) _].
      apply includes_true in Hs. congruence.
Qed.

Lemma mapM_readLink_ok U lines linkPairs :
  mapM (readLink U) lines = inr linkPairs ↔
  Forall (validLink U) lines ∧ linkPairs = linkOfLine <$> lines.
Proof.
  revert linkPairs. induction lines as [|line lines IH]; intros linkPairs.
  - simpl. split; [by intros [= <-]|]. by intros [_ ->].
  - simpl. rewrite Forall_cons.
    destruct (readLink U line) as [e|link] eqn:Hl; simpl.
    + split; [done|]. intros [[Hv _] _].
      assert (readLink U line = inr (linkOfLine line)) as Hok
        by (by apply readLink_ok).
      congruence.
    + apply readLink_ok in Hl as [Hv ->].
      destruct (mapM (readLink U) lines) as [e|k] eqn:Hk; simpl.
      * split; [done|]. intros [[_ Hall] _].
        assert (inl e = inr (linkOfLine <$> lines)) as Hbad
          by (by apply IH). done.
      * destruct (proj1 (IH k) eq_refl) as [Hall ->].
        split; [by intros [= <-]|]. by intros [_ ->].
Qed.

(** X13. What [processInput] accepts: the validation passes exactly when
    every non-blank entity line has a name and a gender among M, F, m, f,
    the sizes satisfy [0 < minGroupSize <= maxGroupSize] and
    [0 < maxGroups], and every non-blank link line has two non-empty
    fields that both name an entity. *)
Theorem validateInput_accepts (names links : string)
    (minGroupSize maxGroupSize maxGroups : Z) :
  (∃ r, validateInput names links minGroupSize maxGroupSize maxGroups
        = inr r) ↔
  Forall validRecord (nonBlankLines names) ∧
  0 < minGroupSize ∧ minGroupSize ≤ maxGroupSize ∧ 0 < maxGroups ∧
  Forall (validLink (entityIds names)) (nonBlankLines links).
Proof.
  unfold validateInput. rewrite <- (readPeople_ok _ ∅).
  destruct (readPeople (nonBlankLines names) ∅) as [e|[m nameList]] eqn:Hr;
    simpl.
  { split; [by intros [? ?]|]. by intros [[? ?] _]. }
  apply readPeople_spec in Hr as [-> _]. fold (entityIds names).
  assert (∀ line, validLink (StrSet.of_list (entityIds names)) line
                  ↔ validLink (entityIds names) line) as Hids.
  { intros line. unfold validLink. by rewrite !elem_of_of_list. }
  repeat case_decide;
    try (split; [by intros [? ?]|intros (_ & ? & ? & ? & _); lia]).
  destruct (mapM _ _) as [e|linkPairs] eqn:Hm; simpl.
  - split; [by intros [? ?]|]. intros (_ & _ & _ & _ & Hall).
    assert (mapM (readLink (StrSet.of_list (entityIds names)))
              (nonBlankLines links)
            = inr (linkOfLine <$> nonBlankLines links)) as Hok.
    { apply mapM_readLink_ok. split; [|done].
      eapply Forall_impl; [exact Hall|]. intros line. apply Hids. }
    congruence.
  - apply mapM_readLink_ok in Hm as [Hall _].
    split; [|by eexists]. intros _.
    split; [by eexists|]. split; [lia|]. split; [lia|]. split; [lia|].
    eapply Forall_impl; [exact Hall|]. intros line. apply Hids.
Qed.

Lemma validateInput_result names links minGroupSize maxGroupSize maxGroups
    (peopleMap : gmap string Person) uniqueNames linkPairs :
  validateInput names links minGroupSize maxGroupSize maxGroups
    = inr (peopleMap, uniqueNames, linkPairs) →
  readPeople (nonBlankLines names) ∅ = inr (peopleMap, entityIds names) ∧
  uniqueNames = StrSet.of_list (entityIds names) ∧
  linkPairs = linkOfLine <$> nonBlankLines links ∧
  Forall (validLink uniqueNames) (nonBlankLines links) ∧
  0 < minGroupSize ∧ minGroupSize ≤ maxGroupSize ∧ 0 < maxGroups.
Proof.
  unfold validateInput.
  destruct (readPeople (nonBlankLines names) ∅) as [e|[m nameList]] eqn:Hr;
    simpl; [done|].
  pose proof (readPeople_spec _ _ _ _ Hr) as [-> _]. fold (entityIds names).
  repeat case_decide; try done.
  destruct (mapM _ _) as [e|k] eqn:Hm; simpl; [done|].
  intros [= <- <- <-]. apply mapM_readLink_ok in Hm as [Hall ->].
  repeat split; auto; lia.
Qed.

(** X14. What the validation hands to the grouping: the unique names are
    the entity identifiers in first-seen order; the links are the link
    lines in their order, duplicates and self-links kept, and each of
    their endpoints is a unique name; the people map knows exactly the
    unique names. *)
Theorem validateInput_returns (names links : string)
    (minGroupSize maxGroupSize maxGroups : Z)
    (peopleMap : gmap string Person) (uniqueNames : list string)
    (linkPairs : list NameLink) :
  validateInput names links minGroupSize maxGroupSize maxGroups
    = inr (peopleMap, uniqueNames, linkPairs) →
  uniqueNames = firstSeen (entityIds names) ∧
  linkPairs = linkOfLine <$> nonBlankLines links ∧
  (∀ link, link ∈ linkPairs →
           source link ∈ uniqueNames ∧ target link ∈ uniqueNames) ∧
  (∀ n, is_Some (peopleMap !! n) ↔ n ∈ uniqueNames).
Proof.
  intros Hv.
  destruct (validateInput_result _ _ _ _ _ _ _ _ Hv)
    as (Hr & -> & -> & Hall & _).
  split; [apply of_list_firstSeen|]. split; [done|]. split.
  - intros link (line & -> & Hline)%list_elem_of_fmap.
    rewrite Forall_forall in Hall. by destruct (Hall line Hline) as (_ & ? & ?).
  - intros n. rewrite elem_of_of_list.
    apply readPeople_spec in Hr as [_ Hm]. rewrite Hm. split.
    + destruct (lastLineOf n (nonBlankLines names)) as [line|] eqn:Hlast.
      * intros _. unfold lastLineOf in Hlast.
        apply last_Some_elem_of, list_elem_of_filter in Hlast as [<- ?].
        by apply list_elem_of_fmap_2.
      * rewrite lookup_empty. by intros [? ?].
    + intros Hn. destruct (lastLineOf_is_Some n _ Hn) as [line ->]. by eexists.
Qed.

(** * The order of the checks *)

Lemma readPerson_cases line :
  (validRecord line ∧ ∃ person, readPerson line = inr person) ∨
  (¬ validRecord line ∧ readPerson line = inl (recordError line)).
Proof.
  unfold readPerson, validRecord, recordError, lineName, lineGender.
  case_decide as Hname.
  - right. split; [by intros [? _]|done].
  - destruct (includes _ _) eqn:E; simpl.
    + left. apply includes_true in E. split; [done|]. by eexists.
    + right. split; [|done]. intros [_ Hg].
      apply includes_true in Hg. congruence.
Qed.

Lemma readPeople_first_error lines (peopleMap : gmap string Person) e :
  readPeople lines peopleMap = inl e ↔
  ∃ bad, firstFailing validRecord lines bad ∧ e = recordError bad.
Proof.
  revert peopleMap. induction lines as [|line lines IH]; intros peopleMap.
  - simpl. split; [done|]. intros (bad & (good & rest & Heq & _) & _).
    by destruct good.
  - simpl. destruct (readPerson_cases line) as [[Hv [person ->]]|[Hv ->]];
      simpl.
    + specialize (IH (<[name person := person]> peopleMap)).
      destruct (readPeople lines _) as [e'|[m l]]; simpl.
      * split.
        -- intros [= <-]. destruct (proj1 IH eq_refl)
             as (bad & (good & rest & -> & Hgood & Hbad) & ->).
           exists bad. split; [|done]. exists (line :: good), rest.
           split; [done|]. split; [by constructor|done].
        -- intros (bad & (good & rest & Heq & Hgood & Hbad) & ->).
           destruct good as [|g good]; simplify_eq/=; [done|].
           apply Forall_cons in Hgood as [_ Hgood].
           f_equal. assert (inl e' = inl (recordError bad)
                            :> Error + (gmap string Person * list string))
             as [= ->]; [|done].
           apply IH. exists bad. split; [|done].
           by exists good, rest.
      * split; [done|].
        intros (bad & (good & rest & Heq & Hgood & Hbad) & ->).
        destruct good as [|g good]; simplify_eq/=; [done|].
        apply Forall_cons in Hgood as [_ Hgood].
        assert (inr (m, l) = inl (recordError bad)
                :> Error + (gmap string Person * list string)) as Habs;
          [|done].
        apply IH. exists bad. split; [|done]. by exists good, rest.
    + split.
      * intros [= <-]. exists line. split; [|done]. by exists [], lines.
      * intros (bad & (good & rest & Heq & Hgood & Hbad) & ->).
        destruct good as [|g good]; simplify_eq/=; [done|].
        by apply Forall_cons in Hgood as [? _].
Qed.

Lemma readLink_cases U ids line :
  (∀ n, n ∈ U ↔ n ∈ ids) →
  (validLink ids line ∧ readLink U line = inr (linkOfLine line)) ∨
  (¬ validLink ids line ∧ readLink U line = inl (linkError line)).
Proof.
  intros HU.
  unfold readLink, validLink, linkError, wellFormedLink, linkOfLine,
    linkSource, linkTarget.
  case_decide as Hwf.
  - right. split; [tauto|]. case_decide; [tauto|done].
  - case_decide as Hwf'; [|tauto].
    destruct (includes U _) eqn:E1; simpl.
    + destruct (includes U (default _ (_ !! 1%nat))) eqn:E2; simpl.
      * left. apply includes_true in E1, E2. by rewrite <- !HU.
      * right. split; [|done]. intros (_ & _ & Ht).
        apply HU, includes_true in Ht. congruence.
    + right. split; [|done]. intros (_ & Hs & _).
      apply HU, includes_true in Hs. congruence.
Qed.

Lemma mapM_readLink_first_error U ids lines e :
  (∀ n, n ∈ U ↔ n ∈ ids) →
  mapM (readLink U) lines = inl e ↔
  ∃ bad, firstFailing (validLink ids) lines bad ∧ e = linkError bad.
Proof.
  intros HU. induction lines as [|line lines IH].
  - simpl. split; [done|]. intros (bad & (good & rest & Heq & _) & _).
    by destruct good.
  - simpl. destruct (readLink_cases U ids line HU) as [[Hv ->]|[Hv ->]];
      simpl.
    + destruct (mapM (readLink U) lines) as [e'|k]; simpl.
      * split.
        -- intros [= <-]. destruct (proj1 IH eq_refl)
             as (bad & (good & rest & -> & Hgood & Hbad) & ->).
           exists bad. split; [|done]. exists (line :: good), rest.
           split; [done|]. split; [by constructor|done].
        -- intros (bad & (good & rest & Heq & Hgood & Hbad) & ->).
           destruct good as [|g good]; simplify_eq/=; [done|].
           apply Forall_cons in Hgood as [_ Hgood].
           f_equal. assert (inl e' = inl (linkError bad)
                            :> Error + list NameLink) as [= ->]; [|done].
           apply IH. exists bad. split; [|done]. by exists good, rest.
      * split; [done|].
        intros (bad & (good & rest & Heq & Hgood & Hbad) & ->).
        destruct good as [|g good]; simplify_eq/=; [done|].
        apply Forall_cons in Hgood as [_ Hgood].
        assert (inr k = inl (linkError bad) :> Error + list NameLink)
          as Habs; [|done].
        apply IH. exists bad. split; [|done]. by exists good, rest.
    + split.
      * intros [= <-]. exists line. split; [|done]. by exists [], lines.
      * intros (bad & (good & rest & Heq & Hgood & Hbad) & ->).
        destruct good as [|g good]; simplify_eq/=; [done|].
        by apply Forall_cons in Hgood as [? _].
Qed.

Lemma validateInput_first_error names links minGroupSize maxGroupSize
    maxGroups e :
  validateInput names links minGroupSize maxGroupSize maxGroups = inl e ↔
  firstFailure names links minGroupSize maxGroupSize maxGroups e.
Proof.
  unfold validateInput, firstFailure.
  pose proof (readPeople_first_error (nonBlankLines names) ∅) as Hfirst.
  pose proof (readPeople_ok (nonBlankLines names) ∅) as Hok.
  destruct (readPeople (nonBlankLines names) ∅) as [e'|[m nameList]] eqn:Hr;
    simpl.
  - split.
    + intros [= <-]. left. by apply Hfirst.
    + intros [Hbad|[Hall _]].
      * apply Hfirst in Hbad. congruence.
      * apply Hok in Hall as [r ?]. congruence.
  - assert (Forall validRecord (nonBlankLines names)) as Hall
      by (apply Hok; by eexists).
    apply readPeople_spec in Hr as [-> _]. fold (entityIds names).
    pose proof (mapM_readLink_first_error
                  (StrSet.of_list (entityIds names)) (entityIds names)
                  (nonBlankLines links)) as Hlinks.
    split.
    + intros He. right. split; [done|].
      repeat case_decide; simplify_eq.
      * left. done.
      * right; left. split; [lia|done].
      * right; right; left. repeat split; try lia.
      * right; right; right. split; [lia|]. split; [lia|]. split; [lia|].
        destruct (mapM _ _) as [e'|k] eqn:Hm; simpl in He; [|done].
        injection He as ->. apply (Hlinks e); [|done].
        intros n. apply elem_of_of_list.
    + intros [Hbad|[_ Hcase]].
      { apply Hfirst in Hbad. congruence. }
      destruct Hcase as [[? ->]|[(? & ? & ->)|[(? & ? & ? & ->)|
                          (? & ? & ? & Hbad)]]];
        repeat case_decide; try lia; try done.
      apply (Hlinks e) in Hbad; [|intros n; apply elem_of_of_list].
      by rewrite Hbad.
Qed.

(** C8. When the validation passes, duplicate identifiers have
    collapsed: the unique names that the grouping receives are the
    identifiers of the entity lines in first-seen order (every identifier
    at its first occurrence, so that the unique names of an initial
    segment of the input are an initial segment of them), without
    repetition and with the same members, and the person stored for an
    identifier carries the (upper-cased) gender of the last line that
    names it. *)
Theorem duplicates_collapse (names links : string)
    (minGroupSize maxGroupSize maxGroups : Z)
    (peopleMap : gmap string Person) (uniqueNames : list string)
    (linkPairs : list NameLink) :
  validateInput names links minGroupSize maxGroupSize maxGroups
    = inr (peopleMap, uniqueNames, linkPairs) →
  let nameList := entityIds names in
  uniqueNames = firstSeen nameList ∧
  (∀ p s, nameList = p ++ s → firstSeen p `prefix_of` uniqueNames) ∧
  NoDup uniqueNames ∧
  (∀ n, n ∈ uniqueNames ↔ n ∈ nameList) ∧
  ∀ n, n ∈ nameList →
    ∃ line, lastLineOf n (nonBlankLines names) = Some line ∧
            peopleMap !! n =
              Some {| name := n; gender := toUpperCase (lineGender line) |}.
Proof.
  intros Hv. simpl.
  destruct (validateInput_result _ _ _ _ _ _ _ _ Hv) as (Hread & -> & _).
  apply readPeople_spec in Hread as [_ Hmap].
  split; [apply of_list_firstSeen|].
  split; [intros p s ->; rewrite <- of_list_firstSeen; apply of_list_prefix|].
  split; [apply NoDup_of_list|]. split; [apply elem_of_of_list|].
  intros n Hn. destruct (lastLineOf_is_Some n _ Hn) as [line Hline].
  exists line. split; [done|]. by rewrite Hmap, Hline.
Qed.

(** C6, the claim as stated fails. From the first render (sizes 3, 5
    and 3), with the one entity record [Alice,F]: the link lines [Alice]
    and [Alice,Zed] name [Zed], which no entity record has, yet the run
    stops on the first link line, which has no second field; and with a
    second entity line [Bob], which has no gender, the run on the link
    line [Alice,Zed] stops on that entity line. Neither error is the
    unknown-name one. *)
Lemma unknown_reference_counterexample :
  session [NamesChanged "Alice,F"; LinksChanged "Alice
Alice,Zed"]
    = Some (mkState "Alice,F" "Alice
Alice,Zed" 3 5 3 [] [] "") ∧
  validBeforeLinks "Alice,F" 3 5 3 ∧
  referencesUnknown "Alice,F" "Alice
Alice,Zed" ∧
  tryBlock "Alice,F" "Alice
Alice,Zed" 3 5 3 = Thrown InvalidLinkFormat ∧
  referencesUnknown "Alice,F
Bob" "Alice,Zed" ∧
  tryBlock "Alice,F
Bob" "Alice,Zed" 3 5 3 = Thrown (InvalidGender "Bob") ∧
  ¬ (∃ s t, tryBlock "Alice,F" "Alice
Alice,Zed" 3 5 3 = Thrown (LinkNameNotInList s t)) ∧
  ¬ (∃ s t, tryBlock "Alice,F
Bob" "Alice,Zed" 3 5 3 = Thrown (LinkNameNotInList s t)).
Proof.
  split; [by vm_compute|]. split.
  { split; [eexists; vm_compute; reflexivity|lia]. }
  split.
  { exists "Alice,Zed"%string. split; [vm_compute; right; left|].
    right. vm_compute. by intros [= ]%list_elem_of_singleton. }
  split; [by vm_compute|]. split.
  { exists "Alice,Zed"%string. split; [by vm_compute; left|].
    right. vm_compute. intros Hin.
    apply elem_of_cons in Hin as [[= ]|Hin].
    by apply list_elem_of_singleton in Hin. }
  split; [by vm_compute|].
  split; by intros (s & t & [=]).
Qed.

(** C6 (as amended). Every error of a run is an error of the validation
    that precedes the first grouping call, and it is the error of the
    first check that fails, in the order: entity lines, minimum size,
    maximum size, number of groups, link lines. A run whose validation
    passes returns; a run that throws leaves nodes and connections as
    they were and only sets the message. When some link line names an
    identifier that no entity record has, the validation fails; the error
    is the unknown-name one when the entity records and the three sizes
    are valid and every link line has its two fields. *)
Theorem validation_fails_before_grouping (st : AppState) :
  let run := tryBlock (names st) (links st) (minGroupSize st)
               (maxGroupSize st) (maxGroups st) in
  let checked := validateInput (names st) (links st) (minGroupSize st)
                   (maxGroupSize st) (maxGroups st) in
  (∀ e, run = Thrown e ↔ checked = inl e) ∧
  (∀ e, checked = inl e ↔
        firstFailure (names st) (links st) (minGroupSize st)
          (maxGroupSize st) (maxGroups st) e) ∧
  (∀ peopleMap uniqueNames linkPairs,
      checked = inr (peopleMap, uniqueNames, linkPairs) →
      ∃ newNodes, run = Returned (newNodes, linkPairs)) ∧
  (∀ e, run = Thrown e →
        processInput st =
          Some (mkState (names st) (links st) (minGroupSize st)
                  (maxGroupSize st) (maxGroups st) (nodes st)
                  (connections st) (message e))) ∧
  (referencesUnknown (names st) (links st) →
   ∃ e,
     checked = inl e ∧ run = Thrown e ∧
     processInput st =
       Some (mkState (names st) (links st) (minGroupSize st)
               (maxGroupSize st) (maxGroups st) (nodes st) (connections st)
               (message e)) ∧
     (validBeforeLinks (names st) (minGroupSize st) (maxGroupSize st)
        (maxGroups st) →
      Forall wellFormedLink (nonBlankLines (links st)) →
      ∃ s t, e = LinkNameNotInList s t ∧
             (s ∉ entityIds (names st) ∨ t ∉ entityIds (names st)))).
Proof.
  simpl. split; [|split; [|split; [|split]]].
  - intros e.
    destruct (validateInput (names st) (links st) (minGroupSize st)
                (maxGroupSize st) (maxGroups st))
      as [e'|[[m U] L]] eqn:Hv.
    + unfold tryBlock. rewrite Hv. split; by intros [= ->].
    + destruct (tryBlock_returns _ _ _ _ _ _ _ _ Hv) as [ns ->]. done.
  - intros e. apply validateInput_first_error.
  - intros m U L Hv. by apply (tryBlock_returns _ _ _ _ _ m U).
  - intros e Hrun. unfold processInput. by rewrite Hrun.
  - intros Hunk.
    destruct (validateInput_unknown (names st) (links st) (minGroupSize st)
                (maxGroupSize st) (maxGroups st) Hunk) as (e & He & Hkind).
    exists e. split; [done|].
    assert (tryBlock (names st) (links st) (minGroupSize st)
              (maxGroupSize st) (maxGroups st) = Thrown e) as Hrun.
    { unfold tryBlock. by rewrite He. }
    split; [done|]. split; [|done].
    unfold processInput. by rewrite Hrun.
Qed.

(** ** Instances *)

Lemma validation_fails_before_grouping_witness :
  referencesUnknown "Alice,F" "Alice,Zed" ∧
  (∃ e,
     tryBlock "Alice,F" "Alice,Zed" 3 5 3 = Thrown e ∧
     processInput (mkState "Alice,F" "Alice,Zed" 3 5 3 [] [] "")
       = Some (mkState "Alice,F" "Alice,Zed" 3 5 3 [] [] (message e)) ∧
     ∃ s t, e = LinkNameNotInList s t) ∧
  firstFailure "Alice,F" "Alice
Alice,Zed" 3 5 3 InvalidLinkFormat.
Proof.
  assert (referencesUnknown "Alice,F" "Alice,Zed") as Hunk.
  { exists "Alice,Zed"%string. split; [by vm_compute; left|].
    right. vm_compute. by intros [= ]%list_elem_of_singleton. }
  split; [exact Hunk|]. split.
  - destruct (proj2 (proj2 (proj2 (proj2 (validation_fails_before_grouping
                (mkState "Alice,F" "Alice,Zed" 3 5 3 [] [] "")))))
                Hunk) as (e & _ & Hrun & Hstate & Hkind).
    exists e. split; [exact Hrun|]. split; [exact Hstate|].
    destruct Hkind as (s & t & He & _).
    + split; [eexists; vm_compute; reflexivity|simpl; lia].
    + apply Forall_forall. intros line Hin. vm_compute in Hin.
      apply list_elem_of_singleton in Hin as ->. split; by vm_compute.
    + by exists s, t.
  - apply (proj1 (proj2 (validation_fails_before_grouping
                           (mkState "Alice,F" "Alice
Alice,Zed" 3 5 3 [] [] "")))).
    vm_compute. reflexivity.
Defined.

Lemma duplicates_collapse_witness :
  validateInput "A,M
B,F
A,f" "A,B" 1 2 1
    = inr (<["A" := mkPerson "A" "F"]>
             (<["B" := mkPerson "B" "F"]> (<["A" := mkPerson "A" "M"]> ∅)),
           ["A"; "B"]%string, [mkLink "A" "B"]) ∧
  ["A"; "B"]%string = firstSeen (entityIds "A,M
B,F
A,f") ∧
  ∃ line,
    lastLineOf "A" (nonBlankLines "A,M
B,F
A,f") = Some line ∧
    (<["A" := mkPerson "A" "F"]>
       (<["B" := mkPerson "B" "F"]> (<["A" := mkPerson "A" "M"]> ∅))
     : gmap string Person) !! "A"%string
    = Some {| name := "A"; gender := toUpperCase (lineGender line) |}.
Proof.
  assert (validateInput "A,M
B,F
A,f" "A,B" 1 2 1
    = inr (<["A" := mkPerson "A" "F"]>
             (<["B" := mkPerson "B" "F"]> (<["A" := mkPerson "A" "M"]> ∅)),
           ["A"; "B"]%string, [mkLink "A" "B"])) as Hv
    by (vm_compute; reflexivity).
  split; [exact Hv|].
  pose proof (duplicates_collapse _ _ _ _ _ _ _ _ Hv) as Hfacts.
  cbv zeta in Hfacts. destruct Hfacts as (Hfirst & _ & _ & _ & Hlast).
  split; [exact Hfirst|]. apply Hlast. vm_compute. apply list_elem_of_here.
Defined.

(** ** White space other than ASCII *)

(** [trim] removes a no-break space (U+00A0), a line separator (U+2028)
    and a byte order mark (U+FEFF) like a space, and keeps the white space
    inside. *)
Example trim_unicode_white_space :
  trim (bytes [194; 160; 65; 32; 66; 226; 128; 168; 239; 187; 191; 9]%nat)
  = "A B"%string ∧
  trim (bytes [195; 169; 227; 128; 128]%nat) = bytes [195; 169]%nat ∧
  trim (bytes [226; 130; 160]%nat) = bytes [226; 130; 160]%nat.
Proof. by vm_compute. Qed.

(** A line of one no-break space is blank; an identifier behind a
    no-break space is the identifier itself, so the second line here
    names [A] again, and so does the link. *)
Example no_break_space_is_trimmed :
  tryBlock ("A,M
" +:+ bytes [194; 160]%nat +:+ "A,f
" +:+ bytes [194; 160]%nat) ("A," +:+ bytes [194; 160]%nat +:+ "A") 1 1 1
  = Returned ([mkNode "A" "F" 0], [mkLink "A" "A"]).
Proof. vm_compute; reflexivity. Qed.

(** * More on the analytics *)

Lemma groupedNodes_from_lookup (nodes : list Node)
    (acc : gmap nat (list Node)) (groupId : nat) :
  foldl (λ acc node,
           let acc :=
             match acc !! group node with
             | None => <[group node := []]> acc
             | Some _ => acc
             end in
           <[group node := default [] (acc !! group node) ++ [node]]> acc)
        acc nodes !! groupId
  = match acc !! groupId, filter (λ node, group node = groupId) nodes with
    | None, [] => None
    | o, f => Some (default [] o ++ f)
    end.
Proof.
  revert acc. induction nodes as [|node nodes IH]; intros acc; simpl.
  - destruct (acc !! groupId); simpl; [by rewrite app_nil_r|done].
  - rewrite IH, filter_cons.
    destruct (decide (group node = groupId)) as [<-|Hne].
    + rewrite lookup_insert_eq.
      assert (default [] (match acc !! group node with
                          | Some _ => acc
                          | None => <[group node:=[]]> acc
                          end !! group node)
              = default [] (acc !! group node)) as ->.
      { destruct (acc !! group node) eqn:E; [by rewrite E|].
        by rewrite lookup_insert_eq. }
      destruct (acc !! group node); simpl; [by rewrite <- app_assoc|done].
    + rewrite lookup_insert_ne by done.
      destruct (acc !! group node) eqn:E; [done|].
      by rewrite lookup_insert_ne.
Qed.

Lemma groupedNodes_lookup nodes groupId :
  groupedNodes nodes !! groupId
  = match filter (λ node, group node = groupId) nodes with
    | [] => None
    | f => Some f
    end.
Proof.
  unfold groupedNodes. rewrite groupedNodes_from_lookup, lookup_empty.
  by destruct (filter _ nodes).
Qed.

Lemma elem_of_groupIds nodes k :
  k ∈ groupIds nodes ↔ ∃ node, node ∈ nodes ∧ group node = k.
Proof.
  unfold groupIds. rewrite list_elem_of_fmap. split.
  - intros ([k' bucket] & -> & Hin). apply elem_of_map_to_list in Hin.
    rewrite groupedNodes_lookup in Hin. simpl.
    destruct (filter _ nodes) as [|node f] eqn:Hf; [done|].
    assert (node ∈ filter (λ node, group node = k') nodes) as Hn
      by (rewrite Hf; left).
    apply list_elem_of_filter in Hn as [? ?]. by exists node.
  - intros (node & Hnode & Hk).
    exists (k, filter (λ node, group node = k) nodes). split; [done|].
    apply elem_of_map_to_list. rewrite groupedNodes_lookup.
    destruct (filter _ nodes) as [|n f] eqn:Hf; [|done].
    assert (node ∈ filter (λ node, group node = k) nodes) as Hn
      by (by apply list_elem_of_filter).
    rewrite Hf in Hn. by apply elem_of_nil in Hn.
Qed.

(** X15. The buckets of [groupedNodes] partition the nodes: a group
    index is a key exactly when some node has it, its bucket lists the
    nodes of that group in node order, and each key occurs once. *)
Theorem groupedNodes_partition (nodes : list Node) :
  (∀ k, is_Some (groupedNodes nodes !! k) ↔
        ∃ node, node ∈ nodes ∧ group node = k) ∧
  (∀ k bucket, groupedNodes nodes !! k = Some bucket →
               bucket = filter (λ node, group node = k) nodes) ∧
  (∀ k, k ∈ groupIds nodes ↔ ∃ node, node ∈ nodes ∧ group node = k) ∧
  NoDup (groupIds nodes).
Proof.
  split; [|split; [|split]].
  - intros k. rewrite <- elem_of_groupIds. unfold groupIds.
    rewrite list_elem_of_fmap. split.
    + intros [bucket Hb]. exists (k, bucket). split; [done|].
      by apply elem_of_map_to_list.
    + intros ([k' bucket] & -> & Hin). apply elem_of_map_to_list in Hin.
      by exists bucket.
  - intros k bucket. rewrite groupedNodes_lookup.
    destruct (filter _ nodes); [done|]. by intros [= <-].
  - apply elem_of_groupIds.
  - apply NoDup_fst_map_to_list.
Qed.

(** ** Links inside a group *)

Lemma filter_none {A} (P : A → Prop) `{∀ x, Decision (P x)} (l : list A) :
  (∀ x, x ∈ l → ¬ P x) → filter P l = [].
Proof.
  induction l as [|x l IH]; intros Hnone; [done|].
  rewrite filter_cons. case_decide as HP.
  - destruct (Hnone x); [left|done].
  - apply IH. intros y Hy. apply Hnone. by right.
Qed.

Lemma members_of_node nodes groupId node :
  node ∈ nodes → group node = groupId → id node ∈ members nodes groupId.
Proof.
  intros Hn Hg. unfold members. apply list_elem_of_fmap_2.
  by apply list_elem_of_filter.
Qed.

Lemma members_unique nodes g g' x :
  NoDup (id <$> nodes) → x ∈ members nodes g → x ∈ members nodes g' → g = g'.
Proof.
  intros Hnd (n & -> & [<- Hn]%list_elem_of_filter)%list_elem_of_fmap
              (n' & Hid & [<- Hn']%list_elem_of_filter)%list_elem_of_fmap.
  f_equal. apply list_elem_of_lookup_1 in Hn as [i Hi].
  apply list_elem_of_lookup_1 in Hn' as [i' Hi'].
  assert (i = i') as ->; [|congruence].
  apply (NoDup_lookup (id <$> nodes) i i' (id n)); [done|..].
  - by rewrite list_lookup_fmap, Hi.
  - by rewrite list_lookup_fmap, Hi', Hid.
Qed.

Lemma filter_keeps_occurrences {A} `{EqDecision A} (P : A → Prop)
    `{∀ x, Decision (P x)} (x : A) (l : list A) :
  P x →
  length (filter (λ y, y = x) (filter P l)) = length (filter (λ y, y = x) l).
Proof.
  intros HP. induction l as [|y l IH]; [done|].
  rewrite !filter_cons. destruct (decide (P y)) as [Hy|Hy].
  - rewrite filter_cons. case_decide; simpl; by rewrite IH.
  - case_decide as Hyx; [by subst y|done].
Qed.

(** X16. The links of a group are the link list filtered to the links
    with both endpoints in the group: the same links in the same order,
    each as often as the link list has it. Their number does not change
    when every link is reversed; and when node identifiers are distinct
    no link is among the links of two groups. *)
Theorem getConnectionsInGroup_facts (nodes : list Node)
    (connections : list NameLink) (groupId : nat) :
  getConnectionsInGroup nodes connections groupId
    = filter (λ link, source link ∈ members nodes groupId ∧
                      target link ∈ members nodes groupId) connections ∧
  (∀ link, source link ∈ members nodes groupId →
           target link ∈ members nodes groupId →
           length (filter (λ l, l = link)
                     (getConnectionsInGroup nodes connections groupId))
           = length (filter (λ l, l = link) connections)) ∧
  (∀ link, link ∈ getConnectionsInGroup nodes connections groupId ↔
           link ∈ connections ∧
           source link ∈ members nodes groupId ∧
           target link ∈ members nodes groupId) ∧
  getConnectionsInGroup nodes connections groupId `sublist_of` connections ∧
  length (getConnectionsInGroup nodes (reversed <$> connections) groupId)
    = length (getConnectionsInGroup nodes connections groupId) ∧
  (NoDup (id <$> nodes) →
   ∀ link groupId',
     link ∈ getConnectionsInGroup nodes connections groupId →
     link ∈ getConnectionsInGroup nodes connections groupId' →
     groupId' = groupId).
Proof.
  rewrite !getConnectionsInGroup_intra. unfold intraGroupLinks.
  split; [done|]. split; [|split; [|split; [|split]]].
  - intros link Hs Ht.
    by apply (filter_keeps_occurrences
                (λ l, source l ∈ members nodes groupId ∧
                      target l ∈ members nodes groupId)).
  - intros link. rewrite list_elem_of_filter. tauto.
  - apply sublist_filter.
  - rewrite filter_fmap_length. f_equal. apply list_filter_iff.
    intros link. simpl. tauto.
  - intros Hnd link groupId' Hin Hin'.
    rewrite getConnectionsInGroup_intra in Hin'. unfold intraGroupLinks in Hin'.
    apply list_elem_of_filter in Hin as [[Hs _] _].
    apply list_elem_of_filter in Hin' as [[Hs' _] _].
    by apply (members_unique nodes groupId' groupId (source link)).
Qed.

(** X17. Who is isolated: a node is reported for a group exactly when it
    is a node of that group and no link with both endpoints in the group
    touches it. *)
Theorem getIsolatedMembers_spec (nodes : list Node)
    (connections : list NameLink) (groupId : nat) (node : Node) :
  node ∈ getIsolatedMembers nodes connections groupId ↔
  node ∈ nodes ∧ group node = groupId ∧
  ∀ link, link ∈ connections →
          source link ∈ members nodes groupId →
          target link ∈ members nodes groupId →
          source link ≠ id node ∧ target link ≠ id node.
Proof.
  unfold getIsolatedMembers. rewrite list_elem_of_filter.
  rewrite groupNodesOf_filter, list_elem_of_filter.
  rewrite getConnectionsInGroup_intra. unfold getConnectionsForName.
  rewrite length_zero_iff_nil. unfold intraGroupLinks.
  split.
  - intros [Hnone [Hg Hn]]. split; [done|]. split; [done|].
    intros link Hl Hs Ht.
    assert (link ∉ filter (λ conn, source conn = id node ∨ target conn = id node)
              (filter (λ link, source link ∈ members nodes groupId ∧
                               target link ∈ members nodes groupId)
                      connections)) as Hnot
      by (rewrite Hnone; apply not_elem_of_nil).
    rewrite !list_elem_of_filter in Hnot. tauto.
  - intros (Hn & Hg & Hfree). split; [|done].
    apply filter_none. intros link Hl.
    apply list_elem_of_filter in Hl as [[Hs Ht] Hl].
    destruct (Hfree link Hl Hs Ht). tauto.
Qed.

(** ** Counting degrees *)

Lemma filter_length_sum {A} (P : A → Prop) `{∀ x, Decision (P x)} (l : list A) :
  length (filter P l) = sum_list_with (λ x, if decide (P x) then 1 else 0)%nat l.
Proof.
  induction l as [|x l IH]; [done|].
  rewrite filter_cons. simpl. case_decide; simpl; by rewrite IH.
Qed.

Lemma sum_list_with_plus {A} (f g : A → nat) (l : list A) :
  sum_list_with (λ x, f x + g x)%nat l
  = (sum_list_with f l + sum_list_with g l)%nat.
Proof. induction l as [|x l IH]; simpl; [done|]. rewrite IH. lia. Qed.

Lemma sum_list_with_ext_in {A} (f g : A → nat) (l : list A) :
  (∀ x, x ∈ l → f x = g x) → sum_list_with f l = sum_list_with g l.
Proof.
  induction l as [|x l IH]; intros Heq; simpl; [done|].
  rewrite Heq by left. rewrite IH; [done|]. intros y Hy. apply Heq. by right.
Qed.

(** Counting the pairs of a relation by rows or by columns. *)
Lemma double_counting {A B} (R : A → B → Prop) `{∀ a b, Decision (R a b)}
    (rows : list A) (cols : list B) :
  sum_list_with (λ a, length (filter (R a) cols)) rows
  = sum_list_with (λ b, length (filter (λ a, R a b) rows)) cols.
Proof.
  induction rows as [|a rows IH]; simpl.
  - induction cols as [|b cols IHc]; simpl; [done|]. by rewrite <- IHc.
  - rewrite IH, filter_length_sum, <- sum_list_with_plus.
    apply sum_list_with_ext_in. intros b _. rewrite filter_cons.
    case_decide; simpl; lia.
Qed.

Lemma filter_or_length {A} (P Q : A → Prop)
    `{∀ x, Decision (P x), ∀ x, Decision (Q x)} (l : list A) :
  (length (filter (λ x, P x ∨ Q x) l) + length (filter (λ x, P x ∧ Q x) l)
   = length (filter P l) + length (filter Q l))%nat.
Proof.
  induction l as [|x l IH]; [done|].
  rewrite !filter_cons.
  destruct (decide (P x)), (decide (Q x)); repeat case_decide; simpl;
    try tauto; lia.
Qed.

Lemma count_by_id (ns : list Node) x :
  NoDup (id <$> ns) → x ∈ id <$> ns →
  length (filter (λ n, id n = x) ns) = 1%nat.
Proof.
  induction ns as [|n ns IH]; intros Hnd Hx; [by apply elem_of_nil in Hx|].
  rewrite fmap_cons in Hnd, Hx. apply NoDup_cons in Hnd as [Hn Hnd].
  rewrite filter_cons. case_decide as Heq.
  - simpl. f_equal. apply length_zero_iff_nil, filter_none.
    intros m Hm Hmx. apply Hn. rewrite Heq, <- Hmx.
    by apply list_elem_of_fmap_2.
  - apply IH; [done|]. apply elem_of_cons in Hx as [?|?]; [congruence|done].
Qed.

Lemma touching_nodes (ns : list Node) (link : NameLink) :
  NoDup (id <$> ns) →
  source link ∈ id <$> ns → target link ∈ id <$> ns →
  length (filter (λ n, touches (id n) link) ns)
  = if decide (source link = target link) then 1%nat else 2%nat.
Proof.
  intros Hnd Hs Ht. unfold touches.
  pose proof (filter_or_length (λ n, source link = id n)
                (λ n, target link = id n) ns) as Hsum.
  assert (∀ x, length (filter (λ n, x = id n) ns)
               = length (filter (λ n, id n = x) ns)) as Hflip.
  { intros x. f_equal. by apply list_filter_iff. }
  rewrite !Hflip, !count_by_id in Hsum by done.
  case_decide as Hself.
  - assert (length (filter (λ n, source link = id n ∧ target link = id n) ns)
            = 1%nat) as Hboth; [|lia].
    rewrite <- (count_by_id ns (source link)) by done. f_equal.
    apply list_filter_iff. intros n. rewrite <- Hself. naive_solver.
  - assert (length (filter (λ n, source link = id n ∧ target link = id n) ns)
            = 0%nat) as Hboth; [|lia].
    apply length_zero_iff_nil, filter_none. intros n _ [? ?]. congruence.
Qed.

(** X18. Degrees add up: when node identifiers are distinct, the degrees
    of the nodes of a group, added to the number of the group's
    self-links, give twice the number of the group's links. *)
Theorem degree_sum (nodes : list Node) (connections : list NameLink)
    (groupId : nat) :
  NoDup (id <$> nodes) →
  let groupConnections := getConnectionsInGroup nodes connections groupId in
  (sum_list_with (degreeInGroup nodes connections groupId)
     (groupNodesOf nodes groupId)
   + length (filter (λ link, source link = target link) groupConnections)
   = 2 * length groupConnections)%nat.
Proof.
  intros Hnd. simpl. unfold degreeInGroup, getConnectionsForName.
  rewrite groupNodesOf_filter.
  set (ns := filter (λ node, group node = groupId) nodes).
  set (E := getConnectionsInGroup nodes connections groupId).
  assert (NoDup (id <$> ns)) as Hns.
  { apply (sublist_NoDup _ (id <$> nodes)); [exact Hnd|].
    apply fmap_sublist, sublist_filter. }
  assert (∀ link, link ∈ E → source link ∈ id <$> ns ∧ target link ∈ id <$> ns)
    as HE.
  { intros link Hl. unfold E in Hl. rewrite getConnectionsInGroup_intra in Hl.
    by apply list_elem_of_filter in Hl as [? _]. }
  rewrite (double_counting (λ n link, source link = id n ∨ target link = id n)
             ns E).
  rewrite (sum_list_with_ext_in _
             (λ link, if decide (source link = target link) then 1 else 2)%nat).
  - clear HE. induction E as [|link E IH]; [done|].
    rewrite filter_cons. simpl. case_decide; simpl in *; lia.
  - intros link Hl. destruct (HE link Hl). by apply touching_nodes.
Qed.

Lemma degree_sum_witness :
  NoDup (id <$> [mkNode "a" "M" 0; mkNode "b" "F" 0; mkNode "c" "F" 1]) ∧
  (sum_list_with
     (degreeInGroup [mkNode "a" "M" 0; mkNode "b" "F" 0; mkNode "c" "F" 1]
        [mkLink "a" "b"; mkLink "a" "a"; mkLink "b" "c"] 0)
     (groupNodesOf [mkNode "a" "M" 0; mkNode "b" "F" 0; mkNode "c" "F" 1] 0)
   + length (filter (λ link, source link = target link)
               (getConnectionsInGroup
                  [mkNode "a" "M" 0; mkNode "b" "F" 0; mkNode "c" "F" 1]
                  [mkLink "a" "b"; mkLink "a" "a"; mkLink "b" "c"] 0))
   = 2 * length (getConnectionsInGroup
                   [mkNode "a" "M" 0; mkNode "b" "F" 0; mkNode "c" "F" 1]
                   [mkLink "a" "b"; mkLink "a" "a"; mkLink "b" "c"] 0))%nat.
Proof.
  assert (NoDup (id <$> [mkNode "a" "M" 0; mkNode "b" "F" 0;
                         mkNode "c" "F" 1])) as Hnd.
  { apply (bool_decide_unpack _). vm_compute. exact I. }
  split; [exact Hnd|].
  exact (degree_sum [mkNode "a" "M" 0; mkNode "b" "F" 0; mkNode "c" "F" 1]
           [mkLink "a" "b"; mkLink "a" "a"; mkLink "b" "c"] 0 Hnd).
Defined.

(** ** Gender counts *)

Lemma increment_lookup_ne acc key k :
  key ≠ k → increment acc key !! k = acc !! k.
Proof.
  intros Hne. unfold increment.
  destruct (acc !! key) as [[|n]|]; by rewrite lookup_insert_ne.
Qed.

Lemma increment_lookup_Int acc key n :
  acc !! key = Some (Int n) → increment acc key !! key = Some (Int (n + 1)).
Proof. intros H. unfold increment. rewrite H. apply lookup_insert_eq. Qed.

Lemma getGenderCounts_from (nodes : list Node) acc g n :
  acc !! g = Some (Int n) →
  foldl (λ acc node, increment acc (node_gender node)) acc nodes !! g
  = Some (Int (n + genderCount g nodes)).
Proof.
  unfold genderCount. revert acc n.
  induction nodes as [|node nodes IH]; intros acc n Hg; simpl.
  - rewrite Hg. do 2 f_equal. lia.
  - rewrite filter_cons. case_decide as Heq.
    + rewrite (IH _ (n + 1)).
      * do 2 f_equal. simpl. lia.
      * rewrite Heq. by apply increment_lookup_Int.
    + apply IH. by rewrite increment_lookup_ne.
Qed.

Lemma getGenderCounts_other (nodes : list Node) acc k :
  (acc !! k = None ∨ acc !! k = Some NaN) →
  foldl (λ acc node, increment acc (node_gender node)) acc nodes !! k = None ∨
  foldl (λ acc node, increment acc (node_gender node)) acc nodes !! k
    = Some NaN.
Proof.
  revert acc. induction nodes as [|node nodes IH]; intros acc Hk; [done|].
  simpl. apply IH. destruct (decide (node_gender node = k)) as [->|Hne].
  - right. unfold increment.
    destruct Hk as [-> | ->]; apply lookup_insert_eq.
  - by rewrite increment_lookup_ne.
Qed.

(** X19. The two counters count: [M] is the number of nodes of gender
    [M] and [F] the number of nodes of gender [F]; no other key ever holds
    a number; and when every node is [M] or [F] the two add up to the
    number of nodes. *)
Theorem getGenderCounts_counts (nodes : list Node) :
  getGenderCounts nodes !! "M"%string = Some (Int (genderCount "M" nodes)) ∧
  getGenderCounts nodes !! "F"%string = Some (Int (genderCount "F" nodes)) ∧
  (∀ k n, getGenderCounts nodes !! k = Some (Int n) →
          k = "M"%string ∨ k = "F"%string) ∧
  ((∀ node, node ∈ nodes →
            node_gender node = "M"%string ∨ node_gender node = "F"%string) →
   genderCount "M" nodes + genderCount "F" nodes = Z.of_nat (length nodes)).
Proof.
  unfold getGenderCounts. split; [|split; [|split]].
  - by rewrite (getGenderCounts_from nodes _ "M" 0).
  - by rewrite (getGenderCounts_from nodes _ "F" 0).
  - intros k n Hk.
    destruct (decide (k = "M"%string)); [by left|].
    destruct (decide (k = "F"%string)); [by right|].
    destruct (getGenderCounts_other nodes
                (<["M"%string := Int 0]> (<["F"%string := Int 0]> ∅)) k)
      as [H|H]; [|congruence..].
    left. by rewrite !lookup_insert_ne.
  - unfold genderCount. induction nodes as [|node nodes IH]; intros Hmf;
      [done|].
    rewrite !filter_cons.
    assert (genderOK : node_gender node = "M"%string ∨
                       node_gender node = "F"%string) by (apply Hmf; left).
    assert (Z.of_nat (length (filter (λ n, node_gender n = "M"%string) nodes))
            + Z.of_nat (length (filter (λ n, node_gender n = "F"%string) nodes))
            = Z.of_nat (length nodes)) as IH'
      by (apply IH; intros n Hn; apply Hmf; by right).
    destruct genderOK as [Hg|Hg]; rewrite Hg; simpl;
      repeat case_decide; try done; simpl; lia.
Qed.

(** ** The isolated-members banner *)

(** X20. The banner is shown exactly when some node is isolated in its
    own group. *)
Theorem hasIsolatedMembers_spec (nodes : list Node)
    (connections : list NameLink) :
  hasIsolatedMembers nodes connections = true ↔
  ∃ node, node ∈ nodes ∧
          node ∈ getIsolatedMembers nodes connections (group node).
Proof.
  unfold hasIsolatedMembers. rewrite existsb_exists. split.
  - intros (k & _ & Hk). apply bool_decide_eq_true in Hk.
    destruct (getIsolatedMembers nodes connections k) as [|node l] eqn:Hiso;
      [simpl in Hk; lia|].
    assert (node ∈ getIsolatedMembers nodes connections k) as Hin
      by (rewrite Hiso; left).
    pose proof Hin as Hin'. unfold getIsolatedMembers in Hin'.
    apply list_elem_of_filter in Hin' as [_ Hb].
    rewrite groupNodesOf_filter in Hb.
    apply list_elem_of_filter in Hb as [<- Hn]. by exists node.
  - intros (node & Hn & Hiso). exists (group node). split.
    + apply list_elem_of_In, elem_of_groupIds. by exists node.
    + apply bool_decide_eq_true.
      destruct (getIsolatedMembers nodes connections (group node));
        [by apply elem_of_nil in Hiso|simpl; lia].
Qed.

(** * The run as a whole *)

Lemma mapM_nodeOf_inr (peopleMap : gmap string Person) i (g : list string) ns :
  mapM (nodeOf peopleMap i) g = inr ns →
  ns = (λ n, {| id := n;
                node_gender := default EmptyString (gender <$> peopleMap !! n);
                group := i |}) <$> g.
Proof.
  revert ns. induction g as [|x g IH]; intros ns; simpl.
  - by intros [= <-].
  - destruct (nodeOf peopleMap i x) as [e|node] eqn:Hn; simpl; [done|].
    destruct (mapM (nodeOf peopleMap i) g) as [e|k]; simpl; [done|].
    intros [= <-]. rewrite (IH k eq_refl). f_equal.
    unfold nodeOf in Hn. destruct (peopleMap !! x); by simplify_eq.
Qed.

Lemma makeNodes_from (peopleMap : gmap string Person) (F : nat → nat)
    (groups : list (list string)) k :
  mapM (λ p : nat * list string, mapM (nodeOf peopleMap p.1) p.2)
       (imap (λ i g, (F i, g)) groups) = inr k →
  k = imap (λ i g,
              (λ n, {| id := n;
                       node_gender :=
                         default EmptyString (gender <$> peopleMap !! n);
                       group := F i |}) <$> g) groups.
Proof.
  revert F k. induction groups as [|g groups IH]; intros F k; simpl.
  - by intros [= <-].
  - destruct (mapM (nodeOf peopleMap (F 0%nat)) g) as [e|ns] eqn:Hg; simpl;
      [done|].
    apply mapM_nodeOf_inr in Hg as ->.
    destruct (mapM _ (imap _ groups)) as [e|k'] eqn:Hk; simpl; [done|].
    intros [= <-]. f_equal. by apply (IH (F ∘ S)).
Qed.

Lemma makeNodes_inr (peopleMap : gmap string Person) groups nodes :
  makeNodes peopleMap groups = inr nodes → nodes = nodesOf peopleMap groups.
Proof.
  unfold makeNodes, nodesOf.
  destruct (mapM _ (imap pair groups)) as [e|k] eqn:Hk; simpl; [done|].
  intros [= <-]. f_equal. by apply (makeNodes_from peopleMap (λ i, i)).
Qed.

Section NodesOf.
Variable peopleMap : gmap string Person.

Local Abbreviation mk := (λ i n,
  {| id := n;
     node_gender := default EmptyString (gender <$> peopleMap !! n);
     group := i |}).

Lemma nodes_from_group (F : nat → nat) (groups : list (list string)) node :
  node ∈ concat (imap (λ i g, mk (F i) <$> g) groups) →
  ∃ i g, groups !! i = Some g ∧ id node ∈ g ∧ node = mk (F i) (id node).
Proof.
  revert F. induction groups as [|g groups IH]; intros F; simpl.
  - by intros ?%elem_of_nil.
  - intros [Hn|Hn]%elem_of_app.
    + apply list_elem_of_fmap in Hn as (n & -> & Hn). by exists 0%nat, g.
    + destruct (IH (F ∘ S) Hn) as (i & h & ? & ? & ?). by exists (S i), h.
Qed.

Lemma nodes_filter_group (F : nat → nat) (groups : list (list string)) k :
  Inj (=) (=) F →
  filter (λ node, group node = F k)
         (concat (imap (λ i g, mk (F i) <$> g) groups))
  = mk (F k) <$> default [] (groups !! k).
Proof.
  intros HF. revert F HF k.
  induction groups as [|g groups IH]; intros F HF k; [done|].
  simpl. rewrite filter_app. destruct k as [|k]; simpl.
  - rewrite (filter_none _ (concat _)).
    + rewrite app_nil_r. induction g as [|n g IHg]; [done|].
      rewrite fmap_cons, filter_cons. simpl. case_decide; [|done].
      by f_equal.
    + intros node Hn Hg.
      destruct (nodes_from_group (F ∘ S) groups node Hn)
        as (i & h & _ & _ & Heq).
      rewrite Heq in Hg. simpl in Hg. by apply HF in Hg.
  - rewrite (filter_none _ (_ <$> g)).
    + simpl. apply (IH (F ∘ S)). intros a b Hab. apply HF in Hab. lia.
    + intros node (n & -> & _)%list_elem_of_fmap Hg. simpl in Hg.
      by apply HF in Hg.
Qed.

Lemma nodes_ids (F : nat → nat) (groups : list (list string)) :
  id <$> concat (imap (λ i g, mk (F i) <$> g) groups) = concat groups.
Proof.
  revert F. induction groups as [|g groups IH]; intros F; [done|].
  simpl. rewrite fmap_app. f_equal.
  - rewrite <- list_fmap_compose. clear. induction g; [done|].
    simpl. by f_equal.
  - apply (IH (F ∘ S)).
Qed.

Lemma nodesOf_ids groups : id <$> nodesOf peopleMap groups = concat groups.
Proof. apply (nodes_ids (λ i, i)). Qed.

Lemma nodesOf_bucket groups k :
  groupNodesOf (nodesOf peopleMap groups) k
  = mk k <$> default [] (groups !! k).
Proof.
  rewrite groupNodesOf_filter. unfold nodesOf.
  apply (nodes_filter_group (λ i, i)). by intros a b.
Qed.
End NodesOf.

(** From the node list back to the groups. *)
Lemma makeNodes_buckets (peopleMap : gmap string Person)
    (groups : list (list string)) (nodes : list Node) :
  makeNodes peopleMap groups = inr nodes →
  id <$> nodes = concat groups ∧
  (∀ k, id <$> groupNodesOf nodes k = default [] (groups !! k)) ∧
  (∀ k, k ∈ groupIds nodes ↔ ∃ g, groups !! k = Some g ∧ g ≠ []).
Proof.
  intros ->%makeNodes_inr. split; [apply nodesOf_ids|].
  assert (∀ k, id <$> groupNodesOf (nodesOf peopleMap groups) k
               = default [] (groups !! k)) as Hbucket.
  { intros k. rewrite nodesOf_bucket, <- list_fmap_compose.
    induction (default [] (groups !! k)) as [|n g IH]; [done|].
    simpl. by f_equal. }
  split; [done|]. intros k. rewrite elem_of_groupIds.
  specialize (Hbucket k). rewrite groupNodesOf_filter in Hbucket. split.
  - intros (node & Hn & Hg).
    assert (id node ∈ default [] (groups !! k)) as Hin.
    { rewrite <- Hbucket. apply list_elem_of_fmap_2.
      by apply list_elem_of_filter. }
    destruct (groups !! k) as [g|]; [|by apply elem_of_nil in Hin].
    exists g. split; [done|]. intros ->. by apply elem_of_nil in Hin.
  - intros (g & Hk & Hg). rewrite Hk in Hbucket. simpl in Hbucket.
    destruct (filter _ _) as [|node f] eqn:Hf; [by destruct g|].
    assert (node ∈ filter (λ node, group node = k)
                     (nodesOf peopleMap groups)) as Hn by (rewrite Hf; left).
    apply list_elem_of_filter in Hn as [? ?]. by exists node.
Qed.

(** X21. The buckets give the groups back: for the nodes made from a
    group list, the identifiers in the bucket of index [k] are the members
    of the group at [k], in order, and the keys are the indices of the
    non-empty groups. *)
Theorem makeNodes_round_trip (peopleMap : gmap string Person)
    (groups : list (list string)) (nodes : list Node) :
  makeNodes peopleMap groups = inr nodes →
  id <$> nodes = concat groups ∧
  (∀ k, id <$> groupNodesOf nodes k = default [] (groups !! k)) ∧
  (∀ k, k ∈ groupIds nodes ↔ ∃ g, groups !! k = Some g ∧ g ≠ []).
Proof.
  apply makeNodes_buckets.
Qed.

Lemma tryBlock_Returned names links minGroupSize maxGroupSize maxGroups
    nodes linkPairs :
  tryBlock names links minGroupSize maxGroupSize maxGroups
    = Returned (nodes, linkPairs) →
  ∃ (peopleMap : gmap string Person) uniqueNames groups,
    validateInput names links minGroupSize maxGroupSize maxGroups
      = inr (peopleMap, uniqueNames, linkPairs) ∧
    grouping peopleMap uniqueNames linkPairs minGroupSize maxGroupSize
      maxGroups = Returned groups ∧
    makeNodes peopleMap groups = inr nodes.
Proof.
  unfold tryBlock.
  destruct (validateInput _ _ _ _ _) as [e|[[m U] L]] eqn:Hv; [done|].
  destruct (grouping _ _ _ _ _ _) as [groups| |] eqn:Hg; [|done..].
  destruct (makeNodes m groups) as [e|ns] eqn:Hn; [done|].
  intros [= <- <-]. by exists m, U, groups.
Qed.

Lemma grouping_facts (peopleMap : gmap string Person) uniqueNames linkPairs
    minSize maxSize targetGroupCount final :
  grouping peopleMap uniqueNames linkPairs minSize maxSize targetGroupCount
    = Returned final →
  concat final ≡ₚ StrSet.of_list uniqueNames ∧
  Forall (λ g, g ≠ []) final ∧
  (1 ≤ minSize ≤ maxSize → Forall (fits maxSize) final) ∧
  (Z.of_nat (length final) ≤ targetGroupCount ∨
   ∀ i j, ¬ eligible final maxSize i j).
Proof.
  unfold grouping.
  destruct (createConnectedGroups_spec uniqueNames peopleMap linkPairs
              minSize maxSize) as (groups & Hrun & Hperm & Hfit).
  destruct (createConnectedGroups_shape_facts uniqueNames peopleMap linkPairs
              minSize maxSize) as (groups' & Hrun' & Hne & _).
  rewrite Hrun in Hrun'. simplify_eq. rewrite Hrun.
  destruct (mergeGroups_spec groups' linkPairs maxSize targetGroupCount)
    as (out & Hmerge & _ & Hin & Hperm').
  rewrite Hmerge. intros [= <-].
  destruct (mergeGroups_post (λ g, g ≠ []) _ _ _ _ _
              (λ a b Ha _, λ Hab, Ha (proj1 (app_eq_nil a b Hab))) Hmerge)
    as (Hstop & _ & HP).
  split; [by rewrite Hperm'|]. split; [by apply HP, Forall_forall|].
  split; [|done]. intros Hvalid. specialize (Hfit Hvalid).
  rewrite Forall_forall in Hfit. apply Forall_forall. intros g Hg.
  destruct (Hin g Hg) as [?|?]; [by apply Hfit|done].
Qed.

Lemma toUpperCase_gender g :
  g ∈ ["M"; "F"; "m"; "f"]%string →
  toUpperCase g = "M"%string ∨ toUpperCase g = "F"%string.
Proof.
  rewrite !elem_of_cons, elem_of_nil.
  intros [->|[->|[->|[->|[]]]]]; vm_compute; auto.
Qed.

Lemma readPeople_person lines (peopleMap : gmap string Person) nameList n p :
  readPeople lines ∅ = inr (peopleMap, nameList) →
  peopleMap !! n = Some p →
  ∃ line, lastLineOf n lines = Some line ∧
          p = {| name := n; gender := toUpperCase (lineGender line) |} ∧
          (gender p = "M"%string ∨ gender p = "F"%string).
Proof.
  intros Hr Hp.
  assert (Forall validRecord lines) as Hvalid
    by (apply (readPeople_ok lines ∅); by eexists).
  apply readPeople_spec in Hr as [_ Hm]. rewrite Hm in Hp.
  destruct (lastLineOf n lines) as [line|] eqn:Hlast; [|by rewrite lookup_empty in Hp].
  simplify_eq. exists line. split; [done|]. split; [done|]. simpl.
  apply toUpperCase_gender. unfold lastLineOf in Hlast.
  apply last_Some_elem_of, list_elem_of_filter in Hlast as [_ Hline].
  rewrite Forall_forall in Hvalid. by destruct (Hvalid line Hline).
Qed.

(** X22. The nodes of a successful run: there is one node for each
    entity identifier and none besides; every node carries the
    upper-cased gender of the last entity line that names it, which is M
    or F; and both endpoints of every link are nodes. *)
Theorem run_nodes (names links : string)
    (minGroupSize maxGroupSize maxGroups : Z)
    (newNodes : list Node) (linkPairs : list NameLink) :
  tryBlock names links minGroupSize maxGroupSize maxGroups
    = Returned (newNodes, linkPairs) →
  NoDup (id <$> newNodes) ∧
  (∀ n, n ∈ id <$> newNodes ↔ n ∈ entityIds names) ∧
  (∀ node, node ∈ newNodes →
     ∃ line, lastLineOf (id node) (nonBlankLines names) = Some line ∧
             node_gender node = toUpperCase (lineGender line) ∧
             (node_gender node = "M"%string ∨ node_gender node = "F"%string)) ∧
  (∀ link, link ∈ linkPairs →
           source link ∈ id <$> newNodes ∧ target link ∈ id <$> newNodes).
Proof.
  intros (peopleMap & U & groups & Hv & Hg & Hn)%tryBlock_Returned.
  destruct (validateInput_result _ _ _ _ _ _ _ _ Hv)
    as (Hr & -> & -> & Hall & _).
  destruct (grouping_facts _ _ _ _ _ _ _ Hg) as (Hperm & _).
  pose proof (makeNodes_inr _ _ _ Hn) as ->.
  rewrite nodesOf_ids.
  assert (∀ n, n ∈ concat groups ↔ n ∈ entityIds names) as Hmem.
  { intros n. by rewrite Hperm, !elem_of_of_list. }
  split; [rewrite Hperm; apply NoDup_of_list|]. split; [done|]. split.
  - intros node Hnode.
    destruct (nodes_from_group peopleMap (λ i, i) groups node Hnode)
      as (i & g & Hi & Hin & Heq).
    assert (id node ∈ entityIds names) as Hid.
    { apply Hmem, elem_of_concat. exists g. split; [done|].
      by apply list_elem_of_lookup_2 in Hi. }
    destruct (lastLineOf_is_Some _ _ Hid) as [line Hline].
    pose proof (readPeople_spec _ _ _ _ Hr) as [_ Hm].
    assert (peopleMap !! id node
            = Some {| name := id node;
                      gender := toUpperCase (lineGender line) |}) as Hp
      by (by rewrite Hm, Hline).
    destruct (readPeople_person _ _ _ _ _ Hr Hp) as (line' & ? & _ & Hmf).
    exists line. split; [done|].
    rewrite Heq. simpl. rewrite Hp. simpl. by split.
  - intros link (line & -> & Hline)%list_elem_of_fmap.
    rewrite Forall_forall in Hall.
    destruct (Hall line Hline) as (_ & Hs & Ht).
    rewrite !elem_of_of_list in Hs, Ht. simpl. by rewrite !Hmem.
Qed.

Lemma run_nodes_witness :
  tryBlock "A,M
B,F
A,f" "A,B
A,A" 1 2 1
    = Returned ([mkNode "A" "F" 0; mkNode "B" "F" 0],
                [mkLink "A" "B"; mkLink "A" "A"]) ∧
  NoDup (id <$> [mkNode "A" "F" 0; mkNode "B" "F" 0]) ∧
  ∀ link, link ∈ [mkLink "A" "B"; mkLink "A" "A"] →
          source link ∈ id <$> [mkNode "A" "F" 0; mkNode "B" "F" 0] ∧
          target link ∈ id <$> [mkNode "A" "F" 0; mkNode "B" "F" 0].
Proof.
  assert (tryBlock "A,M
B,F
A,f" "A,B
A,A" 1 2 1
    = Returned ([mkNode "A" "F" 0; mkNode "B" "F" 0],
                [mkLink "A" "B"; mkLink "A" "A"])) as Hrun
    by (vm_compute; reflexivity).
  split; [exact Hrun|].
  destruct (run_nodes _ _ _ _ _ _ _ Hrun) as (Hnd & _ & _ & Hlinks).
  split; [exact Hnd|exact Hlinks].
Defined.



(** * [processInput] and the form *)

Lemma message_nonempty e : message e ≠ EmptyString.
Proof. by destruct e. Qed.

Lemma processInput_cases (st : AppState) :
  (∃ newNodes linkPairs,
      tryBlock (names st) (links st) (minGroupSize st) (maxGroupSize st)
        (maxGroups st) = Returned (newNodes, linkPairs) ∧
      processInput st =
        Some (mkState (names st) (links st) (minGroupSize st)
                (maxGroupSize st) (maxGroups st) newNodes linkPairs
                EmptyString)) ∨
  (∃ e,
      validateInput (names st) (links st) (minGroupSize st)
        (maxGroupSize st) (maxGroups st) = inl e ∧
      processInput st =
        Some (mkState (names st) (links st) (minGroupSize st)
                (maxGroupSize st) (maxGroups st) (nodes st) (connections st)
                (message e))).
Proof.
  unfold processInput.
  destruct (validateInput (names st) (links st) (minGroupSize st)
              (maxGroupSize st) (maxGroups st)) as [e|[[m U] L]] eqn:Hv.
  - right. exists e. split; [done|]. unfold tryBlock. by rewrite Hv.
  - left. destruct (tryBlock_returns _ _ _ _ _ _ _ _ Hv) as [ns Hrun].
    exists ns, L. by rewrite Hrun.
Qed.

(** X24. [processInput] always completes and never touches the five
    inputs. Either the run returned: then the error is cleared and nodes
    and connections are those of the run; or it threw: then nodes and
    connections stay as they were and the error is a non-empty message.
    So the error banner is shown exactly after a failed run. *)
Theorem processInput_outcome (st : AppState) :
  ∃ st',
    processInput st = Some st' ∧
    names st' = names st ∧ links st' = links st ∧
    minGroupSize st' = minGroupSize st ∧ maxGroupSize st' = maxGroupSize st ∧
    maxGroups st' = maxGroups st ∧
    ((error st' = EmptyString ∧
      tryBlock (names st) (links st) (minGroupSize st) (maxGroupSize st)
        (maxGroups st) = Returned (nodes st', connections st')) ∨
     (error st' ≠ EmptyString ∧
      nodes st' = nodes st ∧ connections st' = connections st ∧
      ∃ e, tryBlock (names st) (links st) (minGroupSize st)
             (maxGroupSize st) (maxGroups st) = Thrown e ∧
           error st' = message e)).
Proof.
  destruct (processInput_cases st)
    as [(ns & L & Hrun & ->)|(e & Hv & ->)]; eexists; (split; [done|]);
    simpl; repeat (split; [done|]).
  - by left.
  - right. split; [apply message_nonempty|]. split; [done|]. split; [done|].
    exists e. split; [|done]. unfold tryBlock. by rewrite Hv.
Qed.

Lemma readPeople_error lines (peopleMap : gmap string Person) e :
  readPeople lines peopleMap = inl e → ¬ sizeError e.
Proof.
  revert peopleMap. induction lines as [|line lines IH]; intros peopleMap;
    simpl; [done|].
  destruct (readPerson line) as [e'|person] eqn:Hp; simpl.
  - intros [= ->]. unfold readPerson in Hp.
    case_decide; [|destruct (negb _)]; simplify_eq;
      by intros [?|[?|?]].
  - destruct (readPeople lines _) as [e'|[m l]] eqn:Hrest; simpl; [|done].
    intros [= ->]. by apply IH in Hrest.
Qed.

Lemma mapM_readLink_error_kind U lines e :
  mapM (readLink U) lines = inl e → ¬ sizeError e.
Proof.
  induction lines as [|line lines IH]; simpl; [done|].
  destruct (readLink U line) as [e'|link] eqn:Hl; simpl.
  - intros [= ->]. unfold readLink in Hl.
    case_decide; [|destruct (_ || _)]; simplify_eq; by intros [?|[?|?]].
  - destruct (mapM (readLink U) lines) as [e'|k]; simpl; [|done].
    intros [= ->]. by apply IH.
Qed.

Lemma validateInput_error names links minGroupSize maxGroupSize maxGroups e :
  1 ≤ minGroupSize → minGroupSize ≤ maxGroupSize → 1 ≤ maxGroups →
  validateInput names links minGroupSize maxGroupSize maxGroups = inl e →
  ¬ sizeError e.
Proof.
  intros Hmin Hmax Hgroups. unfold validateInput.
  destruct (readPeople (nonBlankLines names) ∅) as [e'|[m nameList]] eqn:Hr;
    simpl.
  - intros [= ->]. by apply readPeople_error in Hr.
  - repeat case_decide; try lia.
    destruct (mapM _ _) as [e'|k] eqn:Hm; simpl; [|done].
    intros [= ->]. by apply mapM_readLink_error_kind in Hm.
Qed.

Lemma message_sizeError e e' :
  sizeError e' → message e = message e' → sizeError e.
Proof.
  unfold sizeError.
  intros [-> | [-> | ->]]; destruct e; simpl; intros Heq; try discriminate; auto.
Qed.

Lemma handle_invariant st ev :
  sessionInvariant st → ∃ st', handle st ev = Some st' ∧ sessionInvariant st'.
Proof.
  intros [(Hmin & Hmax & Hgroups) Herr]. destruct ev; simpl.
  - eexists. split; [done|]. by split.
  - eexists. split; [done|]. by split.
  - eexists. split; [done|]. split; [|done].
    unfold validSizes. simpl. case_decide; lia.
  - eexists. split; [done|]. split; [|done]. unfold validSizes. simpl. lia.
  - eexists. split; [done|]. split; [|done]. unfold validSizes. simpl. lia.
  - destruct (processInput_cases st)
      as [(ns & L & Hrun & ->)|(e & Hv & ->)]; eexists; (split; [done|]).
    + split; [done|]. by left.
    + split; [done|]. right. exists e. split; [done|].
      by apply validateInput_error in Hv.
Qed.

Lemma session_from_invariant events st :
  sessionInvariant st →
  ∃ st', foldl (λ st ev, st ← st; handle st ev) (Some st) events = Some st' ∧
         sessionInvariant st'.
Proof.
  revert st. induction events as [|ev events IH]; intros st HI; simpl.
  - by exists st.
  - destruct (handle_invariant st ev HI) as (st' & -> & HI'). by apply IH.
Qed.

(** X25. Whatever the user types and however often the button is
    pressed, the session goes on, the sizes stay valid
    ([1 <= minGroupSize <= maxGroupSize], [1 <= maxGroups]), and none of
    the three messages about the sizes is ever displayed. *)
Theorem session_keeps_sizes_valid (events : list Event) :
  ∃ st,
    session events = Some st ∧
    1 ≤ minGroupSize st ∧ minGroupSize st ≤ maxGroupSize st ∧
    1 ≤ maxGroups st ∧
    error st ≠ message MinSizeNotPositive ∧
    error st ≠ message MaxSizeBelowMinSize ∧
    error st ≠ message MaxGroupsNotPositive.
Proof.
  destruct (session_from_invariant events initialState)
    as (st & Hrun & (Hmin & Hmax & Hgroups) & Herr).
  { split; [unfold validSizes; simpl; lia|]. by left. }
  exists st. split; [done|]. split; [done|]. split; [done|]. split; [done|].
  assert (∀ e', sizeError e' → error st ≠ message e') as Hno.
  { intros e' He' Heq. destruct Herr as [Herr|(e & Herr & Hne)].
    - rewrite Herr in Heq. by destruct (message_nonempty e').
    - apply Hne. apply (message_sizeError e e'); [done|congruence]. }
  unfold sizeError in Hno. repeat split; apply Hno; auto.
Qed.

(** * Instances of the conditional statements above *)

Lemma validateInput_returns_witness :
  validateInput "A,M
B,F
A,f" "A,B
A,A
A,B" 1 2 1
    = inr (<["A" := mkPerson "A" "F"]>
             (<["B" := mkPerson "B" "F"]> (<["A" := mkPerson "A" "M"]> ∅)),
           ["A"; "B"]%string,
           [mkLink "A" "B"; mkLink "A" "A"; mkLink "A" "B"]) ∧
  ["A"; "B"]%string = firstSeen (entityIds "A,M
B,F
A,f") ∧
  [mkLink "A" "B"; mkLink "A" "A"; mkLink "A" "B"]
    = linkOfLine <$> nonBlankLines "A,B
A,A
A,B".
Proof.
  assert (validateInput "A,M
B,F
A,f" "A,B
A,A
A,B" 1 2 1
    = inr (<["A" := mkPerson "A" "F"]>
             (<["B" := mkPerson "B" "F"]> (<["A" := mkPerson "A" "M"]> ∅)),
           ["A"; "B"]%string,
           [mkLink "A" "B"; mkLink "A" "A"; mkLink "A" "B"])) as Hv
    by (vm_compute; reflexivity).
  split; [exact Hv|].
  destruct (validateInput_returns _ _ _ _ _ _ _ _ Hv) as (Hu & Hl & _).
  split; [exact Hu|exact Hl].
Defined.

Lemma makeNodes_round_trip_witness :
  makeNodes (<["A" := mkPerson "A" "F"]>
               (<["B" := mkPerson "B" "M"]> (<["C" := mkPerson "C" "M"]> ∅)))
    [["A"; "B"]; ["C"]]%string
    = inr [mkNode "A" "F" 0; mkNode "B" "M" 0; mkNode "C" "M" 1] ∧
  id <$> [mkNode "A" "F" 0; mkNode "B" "M" 0; mkNode "C" "M" 1]
    = concat [["A"; "B"]; ["C"]]%string ∧
  ∀ k, id <$> groupNodesOf
                [mkNode "A" "F" 0; mkNode "B" "M" 0; mkNode "C" "M" 1] k
       = default [] ([["A"; "B"]; ["C"]]%string !! k).
Proof.
  assert (makeNodes (<["A" := mkPerson "A" "F"]>
               (<["B" := mkPerson "B" "M"]> (<["C" := mkPerson "C" "M"]> ∅)))
    [["A"; "B"]; ["C"]]%string
    = inr [mkNode "A" "F" 0; mkNode "B" "M" 0; mkNode "C" "M" 1]) as Hn
    by (vm_compute; reflexivity).
  split; [exact Hn|].
  destruct (makeNodes_round_trip _ _ _ Hn) as (Hids & Hbucket & _).
  split; [exact Hids|exact Hbucket].
Defined.
